(** * Resistance distance estimators: a shallow embedding

    Embedding of the push and absorbed-random-walk estimators of
    resistance-sp-webshow (src/algorithms/pushVSp.ts, found in
    src/wasm/README.md; src/algorithms/abwalkVSp.ts; src/wasm/resistance.cpp),
    of the worker harness (src/workers/resistance.worker.ts), of the
    worker hook (useResistanceWorker), of the error metrics and of the
    edge-list parser (src/utils/errorMetrics.ts).

    Numbers.  JavaScript numbers, [Float64Array] cells and C++ [double]s
    are IEEE-754 binary64 values; they are modelled with the Standard
    Library's executable specification [spec_float] at precision 53 and
    maximal exponent 1024, so that NaN and the infinities produced by a
    division by a zero degree are those of the running code.

    Arrays.  A [Float64Array(n)], [std::vector<double>(n)] or adjacency
    array indexed by a node id is modelled as a function [nat -> _]
    updated pointwise; the node ids handed to the estimators are assumed
    to be in [0, n).

    Loops.  A [while] loop is run on fuel; [None] (or [OutOfFuel]) means
    that the loop had not terminated after that many iterations. *)

From Stdlib Require Import ZArith QArith Qround.
From Stdlib Require Import Floats.SpecFloat Ascii.
From stdpp Require Import base list gmap sets strings pretty.

Local Open Scope Z_scope.

(** ** Binary64 numbers *)

Module F64.
Definition prec : Z := 53.
Definition emax : Z := 1024.
Definition t := spec_float.
Definition add (x y : t) : t := SFadd prec emax x y.
Definition sub (x y : t) : t := SFsub prec emax x y.
Definition mul (x y : t) : t := SFmul prec emax x y.
Definition div (x y : t) : t := SFdiv prec emax x y.
Definition abs (x : t) : t := SFabs x.
(** [x < y] and [x <= y] as JavaScript and C++ evaluate them: false when
    either side is NaN. *)
Definition ltb (x y : t) : bool := SFltb x y.
Definition leb (x y : t) : bool := SFleb x y.
(** The double nearest to an integer (exact below 2^53). *)
Definition of_Z (z : Z) : t := binary_normalize prec emax z 0 false.
Definition of_nat (n : nat) : t := of_Z (Z.of_nat n).
Definition zero : t := S754_zero false.
Definition one : t := of_Z 1.
Definition nan : t := S754_nan.
Definition infinity : t := S754_infinity false.
Definition is_nan (x : t) : bool :=
  match x with S754_nan => true | _ => false end.
(** Zero or a finite nonzero number: neither NaN nor an infinity. *)
Definition is_finite (x : t) : bool :=
  match x with S754_zero _ | S754_finite _ _ _ => true | _ => false end.
End F64.

Abbreviation num := F64.t.

(** Pointwise update of an array modelled as a function. *)
Definition upd {A} (f : nat -> A) (k : nat) (x : A) : nat -> A :=
  fun j => if Nat.eqb j k then x else f j.

(** ** Graph model (src/types/graph.ts) *)

Record Edge := mkEdge { source : nat; target : nat }.
Record Graph := mkGraph { nodes : nat; edges : list Edge }.

(** [const degree = new Float64Array(n);
     for (const edge of graph.edges) degree[edge.source]++;] *)
Definition degree_of (g : Graph) : nat -> num :=
  fold_left (fun deg e => upd deg (source e) (F64.add (deg (source e)) F64.one))
    (edges g) (fun _ => F64.zero).

(** [adjacencyList[edge.source].push(edge.target)] for every edge. *)
Definition adjacency_of (g : Graph) : nat -> list nat :=
  fold_left (fun adj e => upd adj (source e) (adj (source e) ++ [target e]))
    (edges g) (fun _ => []).

(** ** pushVSpJS (src/algorithms/pushVSp.ts) *)

Record PushVSpParams := mkPushParams
  { ps_s : nat; ps_t : nat; ps_v : nat; ps_rmax : num }.

(** State of one push phase: [queue], the [Set] [inQueue], the residual
    and settled arrays, [pushCount] and the progress values reported. *)
Record push_state := mkPushState
  { queue : list nat;
    inQueue : gset nat;
    res : nat -> num;
    settled : nat -> num;
    pushCount : nat;
    reported : list num }.

Section PushJS.
Variables (degree : nat -> num) (adjacencyList : nat -> list nat)
          (v : nat) (rmax : num) (phase_progress : num).

(** Body of [for (const nei of adjacencyList[u])]; [rs[u]] is read at
    every iteration, as in the source. *)
Definition push_neighbor_js (u : nat) (st : push_state) (nei : nat)
    : push_state :=
  if Nat.eqb nei v then st
  else
    let r' := upd (res st) nei
                (F64.add (res st nei) (F64.div (res st u) (degree u))) in
    if negb (bool_decide (nei ∈ inQueue st))
       && F64.ltb (F64.mul (degree nei) rmax) (r' nei)
    then mkPushState (queue st ++ [nei]) ({[nei]} ∪ inQueue st) r'
           (settled st) (pushCount st) (reported st)
    else mkPushState (queue st) (inQueue st) r'
           (settled st) (pushCount st) (reported st).

(** One iteration of [while (queue.length > 0)] once [u] is shifted. *)
Definition push_step_js (u : nat) (rest : list nat) (st : push_state)
    : push_state :=
  let st1 := mkPushState rest (inQueue st ∖ {[u]}) (res st)
               (upd (settled st) u (F64.add (settled st u) (res st u)))
               (pushCount st) (reported st) in
  let st2 := fold_left (push_neighbor_js u) (adjacencyList u) st1 in
  let cnt := S (pushCount st2) in
  mkPushState (queue st2) (inQueue st2) (upd (res st2) u F64.zero)
    (settled st2) cnt
    (if Nat.eqb (Nat.modulo cnt 100) 0
     then reported st2 ++ [phase_progress] else reported st2).

Fixpoint push_loop_js (fuel : nat) (st : push_state) : option push_state :=
  match fuel with
  | O => None
  | S fuel' =>
      match queue st with
      | [] => Some st
      | u :: rest => push_loop_js fuel' (push_step_js u rest st)
      end
  end.

(** One phase from [seed]: [rs[seed] = 1.0], the queue seeded with
    [seed] unless [seed === v], [pushCount = 0]. *)
Definition push_phase_js (fuel : nat) (seed : nat) (rep : list num)
    : option push_state :=
  let r0 := upd (fun _ => F64.zero) seed F64.one in
  push_loop_js fuel
    (if Nat.eqb seed v
     then mkPushState [] ∅ r0 (fun _ => F64.zero) 0 rep
     else mkPushState [seed] {[seed]} r0 (fun _ => F64.zero) 0 rep).
End PushJS.

(** [ps[s]/degree[s] + pt[t]/degree[t] - ps[t]/degree[s] - pt[s]/degree[t]],
    evaluated from left to right. *)
Definition combine (degree : nat -> num) (s t : nat) (ps pt : nat -> num) : num :=
  F64.sub
    (F64.sub
       (F64.add (F64.div (ps s) (degree s)) (F64.div (pt t) (degree t)))
       (F64.div (ps t) (degree s)))
    (F64.div (pt s) (degree t)).

(** [pushVSpJS(graph, params, onProgress)] with the worker's progress
    callback: the result and the progress values it reports, or [None]
    when a phase did not terminate within [fuel] iterations. *)
Definition pushVSpJS (fuel : nat) (g : Graph) (prm : PushVSpParams)
    : option (num * list num) :=
  let degree := degree_of g in
  let adj := adjacency_of g in
  let s := ps_s prm in let t := ps_t prm in
  let v := ps_v prm in let rmax := ps_rmax prm in
  match push_phase_js degree adj v rmax (F64.of_nat 25) fuel s [] with
  | None => None
  | Some sts =>
      match push_phase_js degree adj v rmax (F64.of_nat 75) fuel t
              (reported sts) with
      | None => None
      | Some stt =>
          Some (combine degree s t (settled sts) (settled stt),
                reported stt ++ [F64.of_nat 100])
      end
  end.

(** The 4-cycle of section 8 of the spec, both directions of each edge. *)
Definition undirected (l : list (nat * nat)) : list Edge :=
  flat_map (fun '(a, b) =>
    if Nat.eqb a b then [mkEdge a b] else [mkEdge a b; mkEdge b a]) l.

Definition cycle4 : Graph := mkGraph 4 (undirected [(0,1);(1,2);(2,3);(3,0)]%nat).

(** ** The push phase as section 4.2 of the spec words it

    Spec model, compared with [push_phase_js] by the refinement theorem
    of claim C5.  The queue is FIFO with at-most-once membership: "not
    already queued" is membership in the queue itself. *)
Record spec_push_state := mkSpecPushState
  { sp_queue : list nat; sp_r : nat -> num; sp_settled : nat -> num }.

Section PushSpec.
Variables (degree : nat -> num) (neighbors : nat -> list nat)
          (v : nat) (rmax : num).

(** "for every neighbor w of u with w <> v, add r[u]/degree(u) to r[w];
    if r[w] now exceeds degree(w) x rmax and w is not already queued,
    enqueue w" *)
Definition spec_relax (u : nat) (st : spec_push_state) (w : nat)
    : spec_push_state :=
  if Nat.eqb w v then st
  else
    let r' := upd (sp_r st) w
                (F64.add (sp_r st w) (F64.div (sp_r st u) (degree u))) in
    if F64.ltb (F64.mul (degree w) rmax) (r' w)
       && negb (existsb (Nat.eqb w) (sp_queue st))
    then mkSpecPushState (sp_queue st ++ [w]) r' (sp_settled st)
    else mkSpecPushState (sp_queue st) r' (sp_settled st).

(** "While the queue is non-empty: dequeue u; add its current residual
    into settled[u]; ... after processing all neighbors, zero r[u]." *)
Fixpoint spec_push_loop (fuel : nat) (st : spec_push_state)
    : option spec_push_state :=
  match fuel with
  | O => None
  | S fuel' =>
      match sp_queue st with
      | [] => Some st
      | u :: rest =>
          let st1 := mkSpecPushState rest (sp_r st)
                       (upd (sp_settled st) u
                          (F64.add (sp_settled st u) (sp_r st u))) in
          let st2 := fold_left (spec_relax u) (neighbors u) st1 in
          spec_push_loop fuel'
            (mkSpecPushState (sp_queue st2) (upd (sp_r st2) u F64.zero)
               (sp_settled st2))
      end
  end.

(** "Initialize residual r[seed] = 1, all other residual and settled
    values 0 ... Seed the queue with seed unless seed == v." *)
Definition spec_push_phase (fuel : nat) (seed : nat)
    : option (nat -> num) :=
  option_map sp_settled
    (spec_push_loop fuel
       (mkSpecPushState (if Nat.eqb seed v then [] else [seed])
          (upd (fun _ => F64.zero) seed F64.one) (fun _ => F64.zero))).
End PushSpec.

(** "result = settled_from_s[s]/degree(s) + settled_from_t[t]/degree(t)
     - settled_from_s[t]/degree(s) - settled_from_t[s]/degree(t)" over the
    spec's two phases. *)
Definition spec_push_result (fuel : nat) (g : Graph) (prm : PushVSpParams)
    : option num :=
  let degree := degree_of g in
  let adj := adjacency_of g in
  match spec_push_phase degree adj (ps_v prm) (ps_rmax prm) fuel (ps_s prm),
        spec_push_phase degree adj (ps_v prm) (ps_rmax prm) fuel (ps_t prm) with
  | Some ss, Some st => Some (combine degree (ps_s prm) (ps_t prm) ss st)
  | _, _ => None
  end.

(** ** pushVSp (src/wasm/resistance.cpp) *)

(** [class SimpleQueue]: [data], [inQueue] (a [std::vector<bool>]) and
    [front]. *)
Record SimpleQueue := mkSimpleQueue
  { sq_data : list nat; sq_inQueue : nat -> bool; sq_front : nat }.

Module SimpleQueue.
Definition create : SimpleQueue := mkSimpleQueue [] (fun _ => false) 0.
(** [void push(int node) { if (!inQueue[node]) { data.push_back(node);
    inQueue[node] = true; } }] *)
Definition push (q : SimpleQueue) (node : nat) : SimpleQueue :=
  if sq_inQueue q node then q
  else mkSimpleQueue (sq_data q ++ [node]) (upd (sq_inQueue q) node true)
         (sq_front q).
(** [int pop() { int node = data[front++]; inQueue[node] = false;
    return node; }] *)
Definition pop (q : SimpleQueue) : nat * SimpleQueue :=
  let node := nth (sq_front q) (sq_data q) 0%nat in
  (node, mkSimpleQueue (sq_data q) (upd (sq_inQueue q) node false)
           (S (sq_front q))).
(** [bool empty() { return front >= data.size(); }] *)
Definition empty (q : SimpleQueue) : bool :=
  Nat.leb (length (sq_data q)) (sq_front q).
(** [void clear()] *)
Definition clear (q : SimpleQueue) : SimpleQueue := create.
End SimpleQueue.

Record cpp_push_state := mkCppPushState
  { cq : SimpleQueue; cr : nat -> num; cp : nat -> num }.

Section PushCpp.
Variables (degree : nat -> num) (adj : nat -> list nat)
          (v : nat) (rmax : num).

(** [if (nei == v) continue; rs[nei] += rs[u] / degree[u];
     if (rs[nei] > degree[nei] * rmax) queue.push(nei);] *)
Definition push_neighbor_cpp (u : nat) (st : cpp_push_state) (nei : nat)
    : cpp_push_state :=
  if Nat.eqb nei v then st
  else
    let r' := upd (cr st) nei
                (F64.add (cr st nei) (F64.div (cr st u) (degree u))) in
    if F64.ltb (F64.mul (degree nei) rmax) (r' nei)
    then mkCppPushState (SimpleQueue.push (cq st) nei) r' (cp st)
    else mkCppPushState (cq st) r' (cp st).

Fixpoint push_loop_cpp (fuel : nat) (st : cpp_push_state)
    : option cpp_push_state :=
  match fuel with
  | O => None
  | S fuel' =>
      if SimpleQueue.empty (cq st) then Some st
      else
        let '(u, q1) := SimpleQueue.pop (cq st) in
        let st1 := mkCppPushState q1 (cr st)
                     (upd (cp st) u (F64.add (cp st u) (cr st u))) in
        let st2 := fold_left (push_neighbor_cpp u) (adj u) st1 in
        push_loop_cpp fuel'
          (mkCppPushState (cq st2) (upd (cr st2) u F64.zero) (cp st2))
  end.

(** One phase: fresh [rs]/[ps] with [rs[seed] = 1.0], the queue cleared
    and seeded with [seed] unless [seed == v]. *)
Definition push_phase_cpp (fuel : nat) (q : SimpleQueue) (seed : nat)
    : option cpp_push_state :=
  let q0 := SimpleQueue.clear q in
  push_loop_cpp fuel
    (mkCppPushState (if Nat.eqb seed v then q0 else SimpleQueue.push q0 seed)
       (upd (fun _ => F64.zero) seed F64.one) (fun _ => F64.zero)).
End PushCpp.

(** [double pushVSp(n, m, edgeSources, edgeTargets, s, t, v, rmax)]; the
    edge arrays are those the worker copies from [graph.edges]. *)
Definition pushVSp (fuel : nat) (g : Graph) (s t v : nat) (rmax : num)
    : option num :=
  let degree := degree_of g in
  let adj := adjacency_of g in
  match push_phase_cpp degree adj v rmax fuel SimpleQueue.create s with
  | None => None
  | Some sts =>
      match push_phase_cpp degree adj v rmax fuel (cq sts) t with
      | None => None
      | Some stt => Some (combine degree s t (cp sts) (cp stt))
      end
  end.

(** ** Effects of the worker: [Math.random], libc's [rand], [postMessage]

    [Math.random()] draws the next value of a sequence [rnd] of rationals
    (each double in [0, 1) is one); [Math.floor(Math.random() * k)] is
    computed on the exact product.  The C++ code runs against Emscripten's
    libc (musl), whose generator is
    [srand(s) { seed = s-1; }] and
    [rand() { seed = 6364136223846793005ULL*seed + 1; return seed>>33; }]. *)

Inductive WorkerResult :=
  | PROGRESS (taskId : string) (progress : num)
  | RESULT (taskId : string) (result : num)
  | ERROR (taskId : string) (error : string).

Record world := mkWorld
  { rnd_pos : nat;          (** how many [Math.random()] values were drawn *)
    libc_seed : Z;          (** musl's [static uint64_t seed] *)
    posted : list WorkerResult }.

(** A computation may finish, throw a JavaScript exception (a trap of the
    WebAssembly code surfaces as one), or still be running when the fuel
    of a [while] loop is exhausted. *)
Inductive outcome (A : Type) :=
  | Done (a : A)
  | Thrown (msg : string)
  | OutOfFuel.
Arguments Done {A} a.
Arguments Thrown {A} msg.
Arguments OutOfFuel {A}.

Definition M (A : Type) := world -> outcome A * world.

Definition ret {A} (a : A) : M A := fun w => (Done a, w).
Definition throw {A} (msg : string) : M A := fun w => (Thrown msg, w).
Definition out_of_fuel {A} : M A := fun w => (OutOfFuel, w).
Definition bind {A B} (m : M A) (k : A -> M B) : M B :=
  fun w => match m w with
           | (Done a, w') => k a w'
           | (Thrown e, w') => (Thrown e, w')
           | (OutOfFuel, w') => (OutOfFuel, w')
           end.
(** [try { m } catch (e) { h(e) }] *)
Definition try_catch {A} (m : M A) (h : string -> M A) : M A :=
  fun w => match m w with
           | (Thrown e, w') => h e w'
           | r => r
           end.

Global Instance M_ret : MRet M := @ret.
Global Instance M_bind : MBind M := fun A B k m => bind m k.

Definition postMessage (msg : WorkerResult) : M unit :=
  fun w => (Done tt, mkWorld (rnd_pos w) (libc_seed w) (posted w ++ [msg])).

Definition type_error : string := "Cannot read properties of undefined (reading 'length')".
Definition wasm_trap : string := "divide by zero".

Module MuslRand.
(** [void srand(unsigned s) { seed = s-1; }] *)
Definition srand (s : Z) : Z := (s - 1) mod 2 ^ 32.
Definition step (seed : Z) : Z := (6364136223846793005 * seed + 1) mod 2 ^ 64.
Definition output (seed : Z) : Z := Z.shiftr seed 33.
End MuslRand.

Section Effects.
Variable rnd : nat -> Q.

Definition Math_random : M Q :=
  fun w => (Done (rnd (rnd_pos w)),
            mkWorld (S (rnd_pos w)) (libc_seed w) (posted w)).

Definition c_srand (s : Z) : M unit :=
  fun w => (Done tt, mkWorld (rnd_pos w) (MuslRand.srand s) (posted w)).

Definition c_rand : M Z :=
  fun w => let seed := MuslRand.step (libc_seed w) in
           (Done (MuslRand.output seed), mkWorld (rnd_pos w) seed (posted w)).
End Effects.

(** [Math.floor(x * k)] *)
Definition floor_mul_Z (x : Q) (k : Z) : Z := Qfloor (x * inject_Z k).
Definition floor_mul (x : Q) (k : nat) : Z := floor_mul_Z x (Z.of_nat k).

(** ** abwalkVSpJS (src/algorithms/abwalkVSp.ts) *)

Record AbwalkVSpParams := mkWalkParams
  { aw_s : nat; aw_t : nat; aw_v : nat; aw_times : nat }.

(** A JavaScript value that is a node id or [undefined]. *)
Definition jsnode := option nat.

Section AbwalkJS.
Variables (rnd : nat -> Q) (n : nat) (adjacencyList : nat -> list nat)
          (s t v times : nat) (onProgress : num -> M unit).

(** [randNeighbor(u)]: [adjacencyList[u]] is [undefined] for [u]
    [undefined] or out of range; [Math.random()] is drawn before
    [neighbors.length] is read; [neighbors[idx]] is [undefined] when
    [idx] is out of range. *)
Definition randNeighbor (u : jsnode) : M jsnode :=
  r ← Math_random rnd;
  match u with
  | Some k =>
      if Nat.ltb k n then
        let neighbors := adjacencyList k in
        let idx := floor_mul r (length neighbors) in
        ret (if Z.leb 0 idx then nth_error neighbors (Z.to_nat idx) else None)
      else throw type_error
  | None => throw type_error
  end.

(** [while (u !== v) { if (u === a) ca += 1.0; if (u === b) cb += 1.0;
     u = randNeighbor(u); }], on fuel. *)
Fixpoint walk_js (fuel : nat) (a b : nat) (u : jsnode) (ca cb : num)
    : M (num * num) :=
  match fuel with
  | O => out_of_fuel
  | S fuel' =>
      if decide (u = Some v) then ret (ca, cb)
      else
        let ca' := if decide (u = Some a) then F64.add ca F64.one else ca in
        let cb' := if decide (u = Some b) then F64.add cb F64.one else cb in
        u' ← randNeighbor u;
        walk_js fuel' a b u' ca' cb'
  end.

(** [(i + 1) % Math.max(1, Math.floor(times / 20)) === 0] *)
Definition report_now (i : nat) : bool :=
  Nat.eqb (Nat.modulo (S i) (Nat.max 1 (Nat.div times 20))) 0.

(** [((i + 1) / times) * 50], and [50 + ((i + 1) / times) * 50]. *)
Definition walk_progress (second : bool) (i : nat) : num :=
  let x := F64.mul (F64.div (F64.of_nat (S i)) (F64.of_nat times))
                   (F64.of_nat 50) in
  if second then F64.add (F64.of_nat 50) x else x.

(** [for (let i = 0; i < times; i++) { let u = start; while ... ;
     if (onProgress && ...) onProgress(progress); }]; [k] iterations
    remain. *)
Fixpoint walks_js (fuel : nat) (start : nat) (second : bool) (i k : nat)
    (ca cb : num) : M (num * num) :=
  match k with
  | O => ret (ca, cb)
  | S k' =>
      ' (ca', cb') ← walk_js fuel s t (Some start) ca cb;
      (if report_now i then onProgress (walk_progress second i) else mret tt) ;;
      walks_js fuel start second (S i) k' ca' cb'
  end.
End AbwalkJS.

(** [tauss / (degree[s] * times) - taust / (degree[t] * times)
     - tauts / (degree[s] * times) + tautt / (degree[t] * times)] *)
Definition walk_estimate (degree : nat -> num) (s t times : nat)
    (tauss taust tauts tautt : num) : num :=
  let tm := F64.of_nat times in
  F64.add
    (F64.sub
       (F64.sub (F64.div tauss (F64.mul (degree s) tm))
                (F64.div taust (F64.mul (degree t) tm)))
       (F64.div tauts (F64.mul (degree s) tm)))
    (F64.div tautt (F64.mul (degree t) tm)).

(** [abwalkVSpJS(graph, params, onProgress)]; [fuel] bounds each walk. *)
Definition abwalkVSpJS (rnd : nat -> Q) (fuel : nat) (g : Graph)
    (prm : AbwalkVSpParams) (onProgress : num -> M unit) : M num :=
  let s := aw_s prm in let t := aw_t prm in
  let v := aw_v prm in let times := aw_times prm in
  let degree := degree_of g in
  let adj := adjacency_of g in
  ' (tauss, taust) ←
    walks_js rnd (nodes g) adj s t v times onProgress fuel s false 0 times
      F64.zero F64.zero;
  ' (tauts, tautt) ←
    walks_js rnd (nodes g) adj s t v times onProgress fuel t true 0 times
      F64.zero F64.zero;
  ret (walk_estimate degree s t times tauss taust tauts tautt).

(** ** abwalkVSp (src/wasm/resistance.cpp) *)

Section AbwalkCpp.
Variables (adj : nat -> list nat) (s t v : nat).

(** [while (u != v) { ...; int idx = rand() % neighbors.size();
     u = neighbors[idx]; }]; the unsigned remainder by a size of 0 traps
    in WebAssembly. *)
Fixpoint walk_cpp (fuel : nat) (u : nat) (ca cb : num) : M (num * num) :=
  match fuel with
  | O => out_of_fuel
  | S fuel' =>
      if Nat.eqb u v then ret (ca, cb)
      else
        let ca' := if Nat.eqb u s then F64.add ca F64.one else ca in
        let cb' := if Nat.eqb u t then F64.add cb F64.one else cb in
        let neighbors := adj u in
        r ← c_rand;
        if Nat.eqb (length neighbors) 0 then throw wasm_trap
        else
          let idx := Z.to_nat (r mod Z.of_nat (length neighbors)) in
          walk_cpp fuel' (nth idx neighbors 0%nat) ca' cb'
  end.

Fixpoint walks_cpp (fuel : nat) (start : nat) (k : nat) (ca cb : num)
    : M (num * num) :=
  match k with
  | O => ret (ca, cb)
  | S k' =>
      ' (ca', cb') ← walk_cpp fuel start ca cb;
      walks_cpp fuel start k' ca' cb'
  end.
End AbwalkCpp.

(** [double abwalkVSp(n, m, edgeSources, edgeTargets, s, t, v, times, seed)] *)
Definition abwalkVSp (fuel : nat) (g : Graph) (s t v times : nat) (seed : Z)
    : M num :=
  let degree := degree_of g in
  let adj := adjacency_of g in
  c_srand seed ;;
  ' (tauss, taust) ← walks_cpp adj s t v fuel s times F64.zero F64.zero;
  ' (tauts, tautt) ← walks_cpp adj s t v fuel t times F64.zero F64.zero;
  ret (walk_estimate degree s t times tauss taust tauts tautt).


(** ** The worker (src/workers/resistance.worker.ts) *)

Inductive AlgorithmType :=
  | push_v_sp_wasm | push_v_sp_js | abwalk_v_sp_wasm | abwalk_v_sp_js.

(** The fields of [AlgorithmParams] the executors read
    ([params as PushVSpParams] or [params as AbwalkVSpParams]). *)
Record AlgorithmParams := mkParams
  { ap_s : nat; ap_t : nat; ap_v : nat; ap_rmax : num; ap_times : nat }.

(** [ComputeMessage.payload]; the graph is the one sent by the hook. *)
Record ComputePayload := mkCompute
  { algorithm : AlgorithmType; graph : Graph; params : AlgorithmParams;
    taskId : string }.

Definition push_params (p : AlgorithmParams) : PushVSpParams :=
  mkPushParams (ap_s p) (ap_t p) (ap_v p) (ap_rmax p).
Definition walk_params (p : AlgorithmParams) : AbwalkVSpParams :=
  mkWalkParams (ap_s p) (ap_t p) (ap_v p) (ap_times p).

(** The progress callback of [executePushVSpJS] and [executeAbwalkVSpJS]. *)
Definition post_progress (id : string) (progress : num) : M unit :=
  postMessage (PROGRESS id progress).

Fixpoint post_all (id : string) (l : list num) : M unit :=
  match l with
  | [] => mret tt
  | p :: l' => post_progress id p ;; post_all id l'
  end.

Definition load_failure : string := "Failed to fetch resistance.js".

Section Worker.
Variables (rnd : nat -> Q) (fuel : nat).
(** Whether [loadWASM()] resolves. *)
Variable wasm_loaded : bool.

(** [executePushVSpJS]: [pushVSpJS] cannot throw on node ids in range,
    so its progress messages are posted in the order it reports them. *)
Definition executePushVSpJS (msg : ComputePayload) : M num :=
  match pushVSpJS fuel (graph msg) (push_params (params msg)) with
  | None => out_of_fuel
  | Some (r, reps) => post_all (taskId msg) reps ;; mret r
  end.

Definition executeAbwalkVSpJS (msg : ComputePayload) : M num :=
  abwalkVSpJS rnd fuel (graph msg) (walk_params (params msg))
    (post_progress (taskId msg)).

Definition executePushVSpWASM (msg : ComputePayload) : M num :=
  try_catch
    (if wasm_loaded then
       let p := params msg in
       postMessage (PROGRESS (taskId msg) (F64.of_nat 50)) ;;
       match pushVSp fuel (graph msg) (ap_s p) (ap_t p) (ap_v p) (ap_rmax p) with
       | Some r => mret r
       | None => out_of_fuel
       end
     else throw load_failure)
    (fun _ => executePushVSpJS msg).

(** [executeAbwalkVSpWASM]: the seed is
    [Math.floor(Math.random() * 0xFFFFFFFF)], drawn on every call. *)
Definition executeAbwalkVSpWASM (msg : ComputePayload) : M num :=
  try_catch
    (if wasm_loaded then
       let p := params msg in
       r ← Math_random rnd;
       let seed := floor_mul_Z r 4294967295 in
       postMessage (PROGRESS (taskId msg) (F64.of_nat 50)) ;;
       abwalkVSp fuel (graph msg) (ap_s p) (ap_t p) (ap_v p) (ap_times p) seed
     else throw load_failure)
    (fun _ => executeAbwalkVSpJS msg).

(** [handleCompute]: the dispatch, then [RESULT], or [ERROR] with the
    message of what was thrown.  (The [time] field of [RESULT] is not
    modelled.) *)
Definition handleCompute (msg : ComputePayload) : M unit :=
  try_catch
    (r ← match algorithm msg with
         | push_v_sp_wasm => executePushVSpWASM msg
         | abwalk_v_sp_wasm => executeAbwalkVSpWASM msg
         | push_v_sp_js => executePushVSpJS msg
         | abwalk_v_sp_js => executeAbwalkVSpJS msg
         end;
     postMessage (RESULT (taskId msg) r))
    (fun e => postMessage (ERROR (taskId msg) e)).
End Worker.

(** The ordering property of section 4.4 of the spec, checked on the
    messages posted for [id]: progress values in [0, 100], non-decreasing,
    and none after the terminal message. *)
Fixpoint progress_ordered (id : string) (last : num) (terminated : bool)
    (msgs : list WorkerResult) : bool :=
  match msgs with
  | [] => true
  | PROGRESS id' p :: rest =>
      if String.eqb id' id then
        negb terminated && F64.leb last p && F64.leb p (F64.of_nat 100)
        && progress_ordered id p terminated rest
      else progress_ordered id last terminated rest
  | RESULT id' _ :: rest | ERROR id' _ :: rest =>
      progress_ordered id last (terminated || String.eqb id' id) rest
  end.


(** ** Error metrics (src/utils/errorMetrics.ts) *)

Record ErrorMetrics := mkErrorMetrics { absolute : num; relative : num }.

(** The literal [1e-10]: the double nearest to 10^-10, which is the
    correctly rounded quotient [1 / 10^10]. *)
Definition relative_epsilon : num := F64.div F64.one (F64.of_Z (10 ^ 10)).

(** [Math.abs(result - groundTruth)] *)
Definition calculateAbsoluteError (result groundTruth : num) : num :=
  F64.abs (F64.sub result groundTruth).

(** [if (Math.abs(groundTruth) < 1e-10) return Infinity;
     return Math.abs(result - groundTruth) / Math.abs(groundTruth);] *)
Definition calculateRelativeError (result groundTruth : num) : num :=
  if F64.ltb (F64.abs groundTruth) relative_epsilon then F64.infinity
  else F64.div (F64.abs (F64.sub result groundTruth)) (F64.abs groundTruth).

Definition calculateErrorMetrics (result groundTruth : num) : ErrorMetrics :=
  mkErrorMetrics (calculateAbsoluteError result groundTruth)
                 (calculateRelativeError result groundTruth).

(** ** The worker hook (useResistanceWorker, src/unnamed/part_004) *)

(** A registered [ComputeTask]; [onResult] and [onError] are always
    present, [onProgress] is optional. *)
Record ComputeTask := mkTask { task_id : string; has_onProgress : bool }.

(** [workerRef.current] (present or [null]) and [tasksRef.current]. *)
Record hook_state := mkHook
  { worker_present : bool; tasks : gmap string ComputeTask }.

Definition hook_init : hook_state := mkHook false ∅.

(** What happens on the main thread. *)
Inductive hook_event :=
  | Mount                              (** the [useEffect] body *)
  | Unmount                            (** its cleanup *)
  | Compute (id : string) (onProgress_given : bool)
  | Cancel (id : string)
  | Incoming (msg : WorkerResult)      (** [worker.onmessage] *)
  | WorkerFailure.                     (** [worker.onerror] *)

(** A callback invocation: what the caller of the hook observes. *)
Inductive delivery :=
  | OnResult (id : string) (r : num)
  | OnError (id : string) (e : string)
  | OnProgress (id : string) (p : num).

Definition delivery_id (d : delivery) : string :=
  match d with OnResult id _ | OnError id _ | OnProgress id _ => id end.

Definition worker_error_message : string := "Worker error occurred".

Definition hook_step (h : hook_state) (e : hook_event)
    : hook_state * list delivery :=
  match e with
  | Mount => (mkHook true (tasks h), [])
  | Unmount => (mkHook false ∅, [])
  | Compute id op =>
      (* [if (!workerRef.current) throw ...]; [tasksRef.current.set(taskId, ...)] *)
      if worker_present h
      then (mkHook true (<[id := mkTask id op]> (tasks h)), [])
      else (h, [])
  | Cancel id =>
      (* [if (!workerRef.current) return; ... tasksRef.current.delete(taskId)] *)
      if worker_present h then (mkHook true (delete id (tasks h)), [])
      else (h, [])
  | Incoming msg =>
      match msg with
      | RESULT id r =>
          match tasks h !! id with
          | Some _ => (mkHook (worker_present h) (delete id (tasks h)), [OnResult id r])
          | None => (h, [])
          end
      | ERROR id err =>
          match tasks h !! id with
          | Some _ => (mkHook (worker_present h) (delete id (tasks h)), [OnError id err])
          | None => (h, [])
          end
      | PROGRESS id p =>
          match tasks h !! id with
          | Some task => (h, if has_onProgress task then [OnProgress id p] else [])
          | None => (h, [])
          end
      end
  | WorkerFailure =>
      (mkHook (worker_present h) ∅,
       map (fun '(id, _) => OnError id worker_error_message) (map_to_list (tasks h)))
  end.

Fixpoint hook_run (h : hook_state) (evs : list hook_event)
    : hook_state * list delivery :=
  match evs with
  | [] => (h, [])
  | e :: evs' =>
      let '(h1, d1) := hook_step h e in
      let '(h2, d2) := hook_run h1 evs' in
      (h2, d1 ++ d2)
  end.

Definition registers (id : string) (e : hook_event) : bool :=
  match e with Compute id' _ => String.eqb id' id | _ => false end.


(** ** The edge-list parser ([parseEdgeList], src/utils/errorMetrics.ts)

    The file content is a list of ASCII characters; JavaScript's white
    space is taken on that alphabet (tab, line feed, vertical tab, form
    feed, carriage return, space).  [parseInt] results are kept exact. *)

Definition is_ws (c : ascii) : bool :=
  let k := nat_of_ascii c in ((9 <=? k) && (k <=? 13))%nat || (k =? 32)%nat.

Definition is_digit (c : ascii) : bool :=
  let k := nat_of_ascii c in ((48 <=? k) && (k <=? 57))%nat.

Fixpoint ltrim (l : list ascii) : list ascii :=
  match l with
  | c :: r => if is_ws c then ltrim r else l
  | [] => []
  end.

(** [line.trim()] *)
Definition trim (l : list ascii) : list ascii := rev (ltrim (rev (ltrim l))).

(** [content.split('\n')] *)
Fixpoint split_lines (l : list ascii) : list (list ascii) :=
  match l with
  | [] => [[]]
  | c :: r =>
      if Ascii.eqb c "010"%char then [] :: split_lines r
      else match split_lines r with
           | h :: tl => (c :: h) :: tl
           | [] => [[c]]
           end
  end.

(** [line.split(/\s+/)]: [in_ws] tells whether the previous character was
    white space, [cur] is the current token reversed. *)
Fixpoint split_ws_aux (in_ws : bool) (cur : list ascii) (l : list ascii)
    : list (list ascii) :=
  match l with
  | [] => [rev cur]
  | c :: r =>
      if is_ws c then
        if in_ws then split_ws_aux true cur r else rev cur :: split_ws_aux true [] r
      else split_ws_aux false (c :: cur) r
  end.
Definition split_ws (l : list ascii) : list (list ascii) := split_ws_aux false [] l.

Fixpoint take_digits (l : list ascii) : list ascii :=
  match l with
  | c :: r => if is_digit c then c :: take_digits r else []
  | [] => []
  end.

Definition digits_value (ds : list ascii) : Z :=
  fold_left (fun acc d => acc * 10 + (Z.of_nat (nat_of_ascii d) - 48)) ds 0.

(** [parseInt(x, 10)]; [None] is NaN. *)
Definition parseInt (l : list ascii) : option Z :=
  let l := ltrim l in
  let '(sign, body) :=
    match l with
    | c :: r => if Ascii.eqb c "-"%char then (-1, r)
                else if Ascii.eqb c "+"%char then (1, r) else (1, l)
    | [] => (1, l)
    end in
  match take_digits body with
  | [] => None
  | ds => Some (sign * digits_value ds)
  end.

Record GraphParseError := mkParseError { pe_message : string; pe_line : option nat }.
Record ParsedEdge := mkParsedEdge { pe_source : Z; pe_target : Z }.
Record ParsedGraph := mkParsedGraph
  { pg_nodes : Z; pg_edges : list ParsedEdge; pg_isDirected : bool;
    pg_wasOneBased : bool; pg_originalMaxNodeId : Z }.

(** The loop variables of [parseEdgeList]; [None] stands for [Infinity]
    in [minNodeId] and for [-Infinity] in [maxNodeId]. *)
Record parse_state := mkParseState
  { p_edges : list ParsedEdge;
    declaredNodeCount : option Z;
    declaredEdgeCount : option Z;
    minNodeId : option Z;
    maxNodeId : option Z;
    lineNumber : nat;
    firstDataLineProcessed : bool }.

Definition parse_init : parse_state := mkParseState [] None None None None 0 false.

Definition zmin (o : option Z) (a b : Z) : option Z :=
  Some (match o with Some m => Z.min m (Z.min a b) | None => Z.min a b end).
Definition zmax (o : option Z) (a b : Z) : option Z :=
  Some (match o with Some m => Z.max m (Z.max a b) | None => Z.max a b end).

Definition line_error (what : string) (ln : nat) (detail : string)
    : GraphParseError :=
  mkParseError
    (String.append what (String.append " at line "
       (String.append (pretty ln) (String.append ": " detail))))
    (Some ln).

(** The body of [for (const line of lines)]; [inl] is a thrown
    [GraphParseError].  The messages keep the source's text up to the
    line number. *)
Definition parse_line (st0 : parse_state) (line : list ascii)
    : GraphParseError + parse_state :=
  let ln := S (lineNumber st0) in
  let st := mkParseState (p_edges st0) (declaredNodeCount st0)
              (declaredEdgeCount st0) (minNodeId st0) (maxNodeId st0) ln
              (firstDataLineProcessed st0) in
  match line with
  | [] => inr st
  | c :: _ =>
    if Ascii.eqb c "#"%char then inr st
    else
      let parts := split_ws line in
      let meta :=
        if negb (firstDataLineProcessed st) && (length parts =? 2)%nat then
          match parseInt (nth 0 parts []), parseInt (nth 1 parts []) with
          | Some first, Some second =>
              if (0 <? first) && (0 <? second) then Some (first, second) else None
          | _, _ => None
          end
        else None in
      match meta with
      | Some (first, second) =>
          inr (mkParseState (p_edges st) (Some first) (Some second)
                 (minNodeId st) (maxNodeId st) ln true)
      | None =>
          if negb (length parts =? 2)%nat then
            inl (line_error "Invalid edge format" ln
                   (String.append "expected 2 numbers, got " (pretty (length parts))))
          else
            match parseInt (nth 0 parts []), parseInt (nth 1 parts []) with
            | Some src, Some tgt =>
                if (src <? 0) || (tgt <? 0) then
                  inl (line_error "Invalid node IDs" ln "negative IDs not allowed")
                else
                  let es := p_edges st ++ [mkParsedEdge src tgt] ++
                            (if src =? tgt then [] else [mkParsedEdge tgt src]) in
                  inr (mkParseState es (declaredNodeCount st) (declaredEdgeCount st)
                         (zmin (minNodeId st) src tgt) (zmax (maxNodeId st) src tgt)
                         ln true)
            | _, _ => inl (line_error "Invalid node IDs" ln "could not parse as integers")
            end
      end
  end.

Fixpoint parse_lines (st : parse_state) (lines : list (list ascii))
    : GraphParseError + parse_state :=
  match lines with
  | [] => inr st
  | l :: ls =>
      match parse_line st l with
      | inl e => inl e
      | inr st' => parse_lines st' ls
      end
  end.

Definition no_edges_error : GraphParseError :=
  mkParseError "No edges found in the file" None.

(** [parseEdgeList(content)]: the lines are split, trimmed and parsed;
    then the node-id base is detected and the ids are shifted.  The count
    checks against the metadata only log a warning. *)
Definition parseEdgeList (content : list ascii) : GraphParseError + ParsedGraph :=
  match parse_lines parse_init (map trim (split_lines content)) with
  | inl e => inl e
  | inr st =>
      match p_edges st with
      | [] => inl no_edges_error
      | es =>
          let wasOneBased := bool_decide (minNodeId st = Some 1) in
          let es' := if wasOneBased
                     then map (fun e => mkParsedEdge (pe_source e - 1) (pe_target e - 1)) es
                     else es in
          let mx := match maxNodeId st with Some m => m | None => 0 end in
          let mx' := if wasOneBased then mx - 1 else mx in
          inr (mkParsedGraph (mx' + 1) es' false wasOneBased
                 (if wasOneBased then mx' + 1 else mx'))
      end
  end.

(** ** Graph utilities (src/utils/errorMetrics.ts, after [parseEdgeList])

    These functions take the [ParsedGraph] that [parseEdgeList] returns.
    What they only log is left out. *)

(** The exceptions these functions throw. *)
Inductive exn :=
  | EGraphParse (e : GraphParseError)  (** a [GraphParseError] *)
  | ERange (msg : string)              (** a [RangeError] *)
  | EType (msg : string)               (** a [TypeError] *)
  | EFileTooLarge (size : Z).          (** [Error(`File too large: ...`)] *)

Definition invalid_array_length : string := "Invalid array length".
Definition push_of_undefined : string :=
  "Cannot read properties of undefined (reading 'push')".

(** [new Array(n)] accepts a length [n] only if [ToUint32(n) === n]. *)
Definition valid_array_length (n : Z) : bool := (0 <=? n) && (n <? 2 ^ 32).

(** A JavaScript array of numbers, element by element; [None] is a
    hole.  Reading [a[i]] gives [undefined] for a hole or past the end,
    which converts to NaN in arithmetic and in comparisons. *)
Definition js_read (a : list (option num)) (i : nat) : num :=
  match a !! i with Some (Some x) => x | _ => F64.nan end.

(** [a[k]++]: the new value is [a[k] + 1]; writing past the end extends
    the array with holes; a negative [k] names a property that is not an
    element and is never read back as one. *)
Definition js_incr (a : list (option num)) (k : Z) : list (option num) :=
  if k <? 0 then a
  else
    let i := Z.to_nat k in
    let x := F64.add (js_read a i) F64.one in
    if (i <? length a)%nat then <[i := Some x]> a
    else a ++ replicate (i - length a) None ++ [Some x].

(** [computeDegree(graph)]: [new Array(graph.nodes).fill(0)], then
    [degree[edge.source]++] for every edge. *)
Definition computeDegree (g : ParsedGraph) : exn + list (option num) :=
  if valid_array_length (pg_nodes g) then
    inr (fold_left (fun d e => js_incr d (pe_source e)) (pg_edges g)
           (replicate (Z.to_nat (pg_nodes g)) (Some F64.zero)))
  else inl (ERange invalid_array_length).

(** [buildAdjacencyList(graph)]: [Array.from({ length: graph.nodes }, () => [])]
    takes the length through [ToLength] (a negative count gives 0) and
    builds it with [new Array(len)] (a [RangeError] from 2^32 on); then
    [adjacencyList[edge.source].push(edge.target)] for every edge, which
    throws a [TypeError] when [adjacencyList[edge.source]] is [undefined]. *)
Definition buildAdjacencyList (g : ParsedGraph) : exn + list (list Z) :=
  if 2 ^ 32 <=? pg_nodes g then inl (ERange invalid_array_length)
  else
    fold_left (fun acc e =>
      match acc with
      | inl err => inl err
      | inr adj =>
          if (0 <=? pe_source e) && (pe_source e <? Z.of_nat (length adj)) then
            let i := Z.to_nat (pe_source e) in
            inr (<[i := match adj !! i with Some l => l | None => [] end
                        ++ [pe_target e]]> adj)
          else inl (EType push_of_undefined)
      end) (pg_edges g) (inr (replicate (Z.to_nat (pg_nodes g)) [])).

(** [for (let i = 1; i < graph.nodes; i++) if (degree[i] > maxDeg) { ... }];
    [k] iterations remain. *)
Fixpoint max_degree_loop (degree : list (option num)) (i k maxNode : nat)
    (maxDeg : num) : nat :=
  match k with
  | O => maxNode
  | S k' =>
      if F64.ltb maxDeg (js_read degree i)
      then max_degree_loop degree (S i) k' i (js_read degree i)
      else max_degree_loop degree (S i) k' maxNode maxDeg
  end.

(** [findMaxDegreeNode(graph)]: [maxNode = 0], [maxDeg = degree[0]]. *)
Definition findMaxDegreeNode (g : ParsedGraph) : exn + nat :=
  match computeDegree g with
  | inl err => inl err
  | inr degree =>
      inr (max_degree_loop degree 1 (Z.to_nat (pg_nodes g) - 1) 0 (js_read degree 0))
  end.

(** [validateGraph(graph)]; the self-loop and isolated-node counts only
    feed warnings, but [computeDegree] can throw. *)
Definition validateGraph (g : ParsedGraph) : option exn :=
  if pg_nodes g <=? 0 then
    Some (EGraphParse (mkParseError "Graph must have at least one node" None))
  else
    match pg_edges g with
    | [] => Some (EGraphParse (mkParseError "Graph must have at least one edge" None))
    | _ => match computeDegree g with inl err => Some err | inr _ => None end
    end.

(** ** Loading a file (src/utils/dataLoader.ts) *)

Definition MAX_SIZE : Z := 50 * 1024 * 1024.

(** [loadFromFile(file)] on a file of [size] bytes whose text is
    [content]: the size check, then [parseEdgeList] and [validateGraph],
    whose exceptions are rethrown. *)
Definition loadFromFile (size : Z) (content : list ascii) : exn + ParsedGraph :=
  if MAX_SIZE <? size then inl (EFileTooLarge size)
  else
    match parseEdgeList content with
    | inl e => inl (EGraphParse e)
    | inr g => match validateGraph g with Some err => inl err | None => inr g end
    end.

(** ** Observations on the code above *)

(** The abstract content of a [SimpleQueue]: [data[front..]]. *)
Definition sq_pending (q : SimpleQueue) : list nat := drop (sq_front q) (sq_data q).

(** [front] within [data], no node pending twice, and the [inQueue]
    flags set exactly for the pending nodes. *)
Definition sq_inv (q : SimpleQueue) : Prop :=
  (sq_front q <= length (sq_data q))%nat /\ NoDup (sq_pending q) /\
  forall x, sq_inQueue q x = true <-> x ∈ sq_pending q.

Definition is_progress_for (id : string) (m : WorkerResult) : Prop :=
  exists p, m = PROGRESS id p.

Definition is_terminal_for (id : string) (m : WorkerResult) : Prop :=
  (exists r, m = RESULT id r) \/ (exists e, m = ERROR id e).

(** The terminal messages of a list of posted messages. *)
Definition terminal_messages (l : list WorkerResult) : list WorkerResult :=
  List.filter (fun m => match m with PROGRESS _ _ => false | _ => true end) l.

(** [n] increments of 1 from 0, as [degree[u]++] performs them. *)
Definition count_up (n : nat) : num := Nat.iter n (fun x => F64.add x F64.one) F64.zero.

(** ** Predicates of the further properties *)

(** The invariant [parseEdgeList] keeps over its loop. *)
Definition parse_inv (st : parse_state) : Prop :=
  (forall e, In e (p_edges st) -> In (mkParsedEdge (pe_target e) (pe_source e)) (p_edges st)) /\
  ((p_edges st = [] /\ minNodeId st = None /\ maxNodeId st = None) \/
   (exists mn mx, minNodeId st = Some mn /\ maxNodeId st = Some mx /\ 0 <= mn /\
      Forall (fun e => mn <= pe_source e <= mx /\ mn <= pe_target e <= mx) (p_edges st) /\
      Exists (fun e => pe_source e = mx) (p_edges st))).

(** A parser state with its line number replaced. *)
Definition set_ln (st : parse_state) (n : nat) : parse_state :=
  mkParseState (p_edges st) (declaredNodeCount st) (declaredEdgeCount st)
    (minNodeId st) (maxNodeId st) n (firstDataLineProcessed st).

(** Two parser states equal but for their line numbers. *)
Definition same_but_ln (st st' : parse_state) : Prop := set_ln st 0 = set_ln st' 0.



(** A computation that posts, for task [id], progress messages only. *)
Definition progress_only {A} (id : string) (m : M A) : Prop :=
  forall w, exists ps, posted (snd (m w)) = posted w ++ ps /\ Forall (is_progress_for id) ps.

(** ** Concrete inputs *)

(** One edge [0 - 1]; node 2 is isolated. *)
Definition edge01_graph : Graph := mkGraph 3 (undirected [(0,1)]%nat).

(** One edge [1 - 2]; node 0 is isolated. *)
Definition edge12_graph : Graph := mkGraph 3 (undirected [(1,2)]%nat).

(** The path [0 - 1 - 2]. *)
Definition path3 : Graph := mkGraph 3 (undirected [(0,1);(1,2)]%nat).

(** A walk-variant WASM request whose target 2 is isolated. *)
Definition isolated_target_request : ComputePayload :=
  mkCompute abwalk_v_sp_wasm edge01_graph (mkParams 0 2 1 F64.zero 20) "task-1".

(** A walk-variant WASM request on the path, one walk per phase. *)
Definition path_request : ComputePayload :=
  mkCompute abwalk_v_sp_wasm path3 (mkParams 0 1 2 F64.zero 1) "task-1".

Definition start_world : world := mkWorld 0 0 [].

(** A file content made of the given lines: [lines.join('\n')]. *)
Fixpoint join_lines (ls : list (list ascii)) : list ascii :=
  match ls with
  | [] => []
  | [l] => l
  | l :: ls' => l ++ "010"%char :: join_lines ls'
  end.

(** A line [parseEdgeList] skips: blank or a comment once trimmed. *)
Definition skipped_line (l : list ascii) : Prop :=
  trim l = [] \/ exists r, trim l = "#"%char :: r.

Definition no_newline (l : list ascii) : Prop := Forall (fun c => c <> "010"%char) l.

(** A [Math.random()] sequence: 0.5 first, then 0.2. *)
Definition half_then_fifth : nat -> Q := fun k => if Nat.eqb k 0 then 1 # 2 else 1 # 5.

(** Two [Math.random()] sequences that differ at their second value. *)
Definition three_quarters : nat -> Q := fun _ => 3 # 4.
Definition quarter_at_one : nat -> Q :=
  fun k => if Nat.eqb k 1 then 1 # 4 else 3 # 4.

(** A node that is the source of no edge. *)
Definition isolated (g : Graph) (x : nat) : Prop :=
  forall e, In e (edges g) -> source e <> x.

(** * Proofs *)

(** Two optional results related by [R]: both absent or both present. *)
Definition opt_rel {A B} (R : A -> B -> Prop) (a : option A) (b : option B) : Prop :=
  match a, b with
  | None, None => True
  | Some x, Some y => R x y
  | _, _ => False
end.

Lemma existsb_eqb_elem (x : nat) (l : list nat) :
  existsb (Nat.eqb x) l = bool_decide (x ∈ l).
Proof.
  induction l as [|y l IH]; simpl.
  - done.
  - rewrite IH. destruct (Nat.eqb_spec x y) as [->|Hne]; simpl.
    + symmetry. apply bool_decide_eq_true_2. set_solver.
    + apply bool_decide_ext. split; [set_solver|].
      intros H. apply elem_of_cons in H as [H|H]; [congruence|done].
Qed.

Lemma drop_cons_inv (f : nat) (l rest : list nat) (u : nat) :
  drop f l = u :: rest -> nth f l 0%nat = u /\ drop (S f) l = rest /\ (f < length l)%nat.
Proof.
  revert f. induction l as [|x l IH]; intros f H; destruct f; simpl in *;
    try discriminate.
  - inversion H; subst. split; [done|]. split; [done|lia].
  - destruct (IH f H) as (? & ? & ?). split; [done|]. split; [done|lia].
Qed.

Lemma drop_nil_iff (f : nat) (l : list nat) :
  (f <= length l)%nat -> drop f l = [] <-> Nat.leb (length l) f = true.
Proof.
  intros Hf. rewrite Nat.leb_le. split.
  - intros H. assert (Hl : length (drop f l) = (length l - f)%nat) by apply length_drop. rewrite H in Hl. simpl in Hl. lia.
  - intros H. apply drop_ge. lia.
Qed.

(** A one-based edge list with a comment, a metadata line and padding. *)
Definition sample_file : list ascii :=
  join_lines [String.list_ascii_of_string "# demo"; String.list_ascii_of_string "3 2";
              String.list_ascii_of_string "1 2"; String.list_ascii_of_string " 2 3 "].

(** The graph [parseEdgeList] makes of it. *)
Definition sample_graph : ParsedGraph :=
  mkParsedGraph 3 [mkParsedEdge 0 1; mkParsedEdge 1 0; mkParsedEdge 1 2; mkParsedEdge 2 1]
    false true 3.

(** ** The JavaScript phase against the C++ phase *)

Section JsCpp.
Variables (degree : nat -> num) (adj : nat -> list nat)
          (v : nat) (rmax : num) (pp : num).

(** [queue] is the unread part [data[front..]] of the C++ queue and the
    [Set] holds exactly the nodes whose [inQueue] flag is set. *)
Definition js_cpp_rel (js : push_state) (c : cpp_push_state) : Prop :=
  queue js = drop (sq_front (cq c)) (sq_data (cq c)) /\
  (sq_front (cq c) <= length (sq_data (cq c)))%nat /\
  (forall x, x ∈ inQueue js <-> sq_inQueue (cq c) x = true) /\
  res js = cr c /\ settled js = cp c.

Lemma push_neighbor_js_cpp u js c nei :
  js_cpp_rel js c ->
  js_cpp_rel (push_neighbor_js degree v rmax u js nei)
             (push_neighbor_cpp degree v rmax u c nei).
Proof.
  intros (Hq & Hf & Hin & Hr & Hp).
  unfold push_neighbor_js, push_neighbor_cpp.
  destruct (Nat.eqb nei v); [repeat split; auto; apply Hin|].
  rewrite Hr.
  destruct (F64.ltb _ _) eqn:Hlt; rewrite ?andb_true_r, ?andb_false_r.
  - unfold SimpleQueue.push.
    destruct (sq_inQueue (cq c) nei) eqn:Hnei.
    + rewrite bool_decide_eq_true_2 by (apply Hin; done). simpl.
      repeat split; auto; apply Hin.
    + rewrite bool_decide_eq_false_2
        by (intros Hx; apply Hin in Hx; congruence). simpl.
      repeat split; simpl; auto.
      * rewrite Hq. rewrite drop_app_le by lia. done.
      * rewrite length_app. lia.
      * intros Hx. unfold upd. destruct (Nat.eqb_spec x nei); [done|].
        apply Hin. set_solver.
      * unfold upd. destruct (Nat.eqb_spec x nei) as [->|Hne];
          [set_solver|]. intros Hx. apply Hin in Hx. set_solver.
  - simpl. repeat split; auto; apply Hin.
Qed.

Lemma fold_push_neighbor_js_cpp u ns js c :
  js_cpp_rel js c ->
  js_cpp_rel (fold_left (push_neighbor_js degree v rmax u) ns js)
             (fold_left (push_neighbor_cpp degree v rmax u) ns c).
Proof.
  revert js c. induction ns as [|nei ns IH]; intros js c H; simpl; [done|].
  apply IH, push_neighbor_js_cpp, H.
Qed.

Lemma push_loop_js_cpp fuel js c :
  js_cpp_rel js c ->
  opt_rel js_cpp_rel (push_loop_js degree adj v rmax pp fuel js)
                     (push_loop_cpp degree adj v rmax fuel c).
Proof.
  revert js c. induction fuel as [|fuel IH]; intros js c H; simpl; [done|].
  pose proof H as (Hq & Hf & Hin & Hr & Hp).
  destruct (queue js) as [|u rest] eqn:Hqj.
  - symmetry in Hq. apply drop_nil_iff in Hq; [|done].
    unfold SimpleQueue.empty. rewrite Hq. simpl. done.
  - symmetry in Hq. apply drop_cons_inv in Hq as (Hu & Hrest & Hlt).
    unfold SimpleQueue.empty.
    replace (Nat.leb (length (sq_data (cq c))) (sq_front (cq c))) with false
      by (symmetry; apply Nat.leb_gt; lia).
    unfold SimpleQueue.pop. rewrite Hu.
    apply IH. unfold push_step_js.
    assert (Hrel1 : js_cpp_rel
      (mkPushState rest (inQueue js ∖ {[u]}) (res js)
         (upd (settled js) u (F64.add (settled js u) (res js u)))
         (pushCount js) (reported js))
      (mkCppPushState
         (mkSimpleQueue (sq_data (cq c)) (upd (sq_inQueue (cq c)) u false)
            (S (sq_front (cq c))))
         (cr c) (upd (cp c) u (F64.add (cp c u) (cr c u))))).
    { repeat split; simpl; auto; try lia.
      - intros Hx. unfold upd. destruct (Nat.eqb_spec x u); [set_solver|].
        apply Hin. set_solver.
      - unfold upd. destruct (Nat.eqb_spec x u); [done|].
        intros Hx. apply Hin in Hx. set_solver.
      - by rewrite Hr, Hp. }
    pose proof (fold_push_neighbor_js_cpp u (adj u) _ _ Hrel1)
      as (Hq2 & Hf2 & Hin2 & Hr2 & Hp2).
    repeat split; simpl; auto; [apply Hin2 | apply Hin2 | by rewrite Hr2].
Qed.
End JsCpp.

(** ** The JavaScript phase against the spec's phase *)

Section JsSpec.
Variables (degree : nat -> num) (adj : nat -> list nat)
          (v : nat) (rmax : num) (pp : num).

(** The queues coincide, hold no node twice, and the [Set] holds exactly
    the queued nodes. *)
Definition js_spec_rel (js : push_state) (sp : spec_push_state) : Prop :=
  queue js = sp_queue sp /\ NoDup (queue js) /\
  (forall x, x ∈ inQueue js <-> x ∈ queue js) /\
  res js = sp_r sp /\ settled js = sp_settled sp.

Lemma push_neighbor_js_spec u js sp nei :
  js_spec_rel js sp ->
  js_spec_rel (push_neighbor_js degree v rmax u js nei)
              (spec_relax degree v rmax u sp nei).
Proof.
  intros (Hq & Hnd & Hin & Hr & Hp).
  unfold push_neighbor_js, spec_relax.
  destruct (Nat.eqb nei v); [repeat split; auto; apply Hin|].
  rewrite Hr, existsb_eqb_elem, <- Hq.
  assert (Hb : bool_decide (nei ∈ inQueue js) = bool_decide (nei ∈ queue js))
    by (apply bool_decide_ext, Hin).
  rewrite Hb.
  destruct (bool_decide (nei ∈ queue js)) eqn:Hbq; simpl;
    rewrite ?andb_false_r, ?andb_true_r; [repeat split; auto; apply Hin|].
  apply bool_decide_eq_false in Hbq.
  destruct (F64.ltb _ _); unfold js_spec_rel;
    cbn [queue inQueue res settled sp_queue sp_r sp_settled];
    repeat split; auto; try apply Hin.
  - apply NoDup_app. split; [done|]. split; [|apply NoDup_singleton].
    set_solver.
  - intros Hx. apply elem_of_union in Hx as [Hx|Hx];
      [set_solver|apply elem_of_app; left; by apply Hin].
  - intros Hx. apply elem_of_app in Hx as [Hx|Hx]; [apply Hin in Hx|];
      set_solver.
Qed.

Lemma fold_push_neighbor_js_spec u ns js sp :
  js_spec_rel js sp ->
  js_spec_rel (fold_left (push_neighbor_js degree v rmax u) ns js)
              (fold_left (spec_relax degree v rmax u) ns sp).
Proof.
  revert js sp. induction ns as [|nei ns IH]; intros js sp H; simpl; [done|].
  apply IH, push_neighbor_js_spec, H.
Qed.

Lemma push_loop_js_spec fuel js sp :
  js_spec_rel js sp ->
  opt_rel js_spec_rel (push_loop_js degree adj v rmax pp fuel js)
                      (spec_push_loop degree adj v rmax fuel sp).
Proof.
  revert js sp. induction fuel as [|fuel IH]; intros js sp H; simpl; [done|].
  pose proof H as (Hq & Hnd & Hin & Hr & Hp).
  rewrite <- Hq. destruct (queue js) as [|u rest] eqn:Hqj; [done|].
  apply IH. unfold push_step_js.
  apply NoDup_cons in Hnd as [Hu Hnd].
  assert (Hrel1 : js_spec_rel
    (mkPushState rest (inQueue js ∖ {[u]}) (res js)
       (upd (settled js) u (F64.add (settled js u) (res js u)))
       (pushCount js) (reported js))
    (mkSpecPushState rest (sp_r sp)
       (upd (sp_settled sp) u (F64.add (sp_settled sp u) (sp_r sp u))))).
  { repeat split; simpl; auto.
    - intros Hx. apply elem_of_difference in Hx as [Hx Hne].
      apply Hin in Hx. apply elem_of_cons in Hx as [->|Hx]; set_solver.
    - intros Hx. apply elem_of_difference. split.
      + apply Hin. set_solver.
      + intros ->%elem_of_singleton. done.
    - by rewrite Hr, Hp. }
  pose proof (fold_push_neighbor_js_spec u (adj u) _ _ Hrel1)
    as (Hq2 & Hnd2 & Hin2 & Hr2 & Hp2).
  repeat split; simpl; auto; [apply Hin2 | apply Hin2 | by rewrite Hr2].
Qed.
End JsSpec.

Lemma push_phase_js_spec degree adj v rmax pp fuel seed rep :
  opt_rel js_spec_rel (push_phase_js degree adj v rmax pp fuel seed rep)
    (spec_push_loop degree adj v rmax fuel
       (mkSpecPushState (if Nat.eqb seed v then [] else [seed])
          (upd (fun _ => F64.zero) seed F64.one) (fun _ => F64.zero))).
Proof.
  unfold push_phase_js. apply push_loop_js_spec.
  destruct (Nat.eqb seed v); repeat split; simpl; auto.
  - constructor.
  - set_solver.
  - set_solver.
  - apply NoDup_singleton.
  - set_solver.
  - set_solver.
Qed.

Lemma push_phase_js_cpp degree adj v rmax pp fuel seed rep q :
  opt_rel js_cpp_rel (push_phase_js degree adj v rmax pp fuel seed rep)
    (push_phase_cpp degree adj v rmax fuel q seed).
Proof.
  unfold push_phase_js, push_phase_cpp. apply push_loop_js_cpp.
  destruct (Nat.eqb seed v); repeat split; simpl; auto; try lia.
  - set_solver.
  - intros Hx. unfold upd. destruct (Nat.eqb_spec x seed); [done|set_solver].
  - unfold upd. destruct (Nat.eqb_spec x seed); [set_solver|done].
Qed.

(** ** Claim C5 *)

(** (C5) For every graph and push parameters, [pushVSpJS] returns exactly
    [settled_from_s[s]/degree(s) + settled_from_t[t]/degree(t)
     - settled_from_s[t]/degree(s) - settled_from_t[s]/degree(t)], where the
    settled vectors are those of the spec's two push phases (FIFO
    at-most-once queue, seeded unless the seed is [v], enqueue threshold
    [degree(w) * rmax], [v] absorbing); with the same fuel, the code
    terminates exactly when the spec's phases do.  The statement holds for
    every degree, so in particular when [degree(s)] and [degree(t)] are
    nonzero. *)
Theorem pushVSpJS_matches_spec_phases (fuel : nat) (g : Graph) (prm : PushVSpParams) :
  option_map fst (pushVSpJS fuel g prm) = spec_push_result fuel g prm.
Proof.
  unfold pushVSpJS, spec_push_result, spec_push_phase.
  pose proof (push_phase_js_spec (degree_of g) (adjacency_of g) (ps_v prm)
                (ps_rmax prm) (F64.of_nat 25) fuel (ps_s prm) []) as Hs.
  destruct (push_phase_js _ _ _ _ _ fuel (ps_s prm) []) as [sts|];
    destruct (spec_push_loop _ _ _ _ fuel _) as [sps|]; simpl in Hs;
    try contradiction; simpl; [|done].
  pose proof (push_phase_js_spec (degree_of g) (adjacency_of g) (ps_v prm)
                (ps_rmax prm) (F64.of_nat 75) fuel (ps_t prm) (reported sts)) as Ht.
  destruct (push_phase_js _ _ _ _ _ fuel (ps_t prm) _) as [stt|];
    destruct (spec_push_loop _ _ _ _ fuel _) as [spt|]; simpl in Ht;
    try contradiction; simpl; [|done].
  destruct Hs as (_ & _ & _ & _ & Hps). destruct Ht as (_ & _ & _ & _ & Hpt).
  by rewrite Hps, Hpt.
Qed.

(** ** Claim C9 *)

(** (C9) The JavaScript [pushVSpJS] and the C++ [pushVSp] denote the same
    function: on every graph and parameters [(s, t, v, rmax)], run with the
    same fuel, they return the same result (or both are still running).
    The [Set]-guarded enqueue of the JavaScript code and [SimpleQueue]'s
    membership-checked [push] realise the same FIFO at-most-once queue. *)
Theorem pushVSpJS_equiv_pushVSp (fuel : nat) (g : Graph) (s t v : nat) (rmax : num) :
  option_map fst (pushVSpJS fuel g (mkPushParams s t v rmax))
  = pushVSp fuel g s t v rmax.
Proof.
  unfold pushVSpJS, pushVSp; simpl.
  pose proof (push_phase_js_cpp (degree_of g) (adjacency_of g) v rmax
                (F64.of_nat 25) fuel s [] SimpleQueue.create) as Hs.
  destruct (push_phase_js _ _ _ _ _ fuel s []) as [sts|];
    destruct (push_phase_cpp _ _ _ _ fuel _ s) as [cs|]; simpl in Hs;
    try contradiction; simpl; [|done].
  pose proof (push_phase_js_cpp (degree_of g) (adjacency_of g) v rmax
                (F64.of_nat 75) fuel t (reported sts) (cq cs)) as Ht.
  destruct (push_phase_js _ _ _ _ _ fuel t _) as [stt|];
    destruct (push_phase_cpp _ _ _ _ fuel _ t) as [ct|]; simpl in Ht;
    try contradiction; simpl; [|done].
  destruct Hs as (_ & _ & _ & _ & Hps). destruct Ht as (_ & _ & _ & _ & Hpt).
  by rewrite Hps, Hpt.
Qed.

(** ** Error metrics *)

Lemma SFcompare_swap (x y : spec_float) :
  SFcompare y x = option_map CompOpp (SFcompare x y).
Proof.
  destruct x as [bx|bx| |bx mx ex], y as [by'|by'| |by' my ey];
    try destruct bx; try destruct by'; simpl; try reflexivity;
    pose proof (Pos.compare_cont_antisym mx my Eq) as Hm; simpl in Hm;
    rewrite (Z.compare_antisym ex ey);
    destruct (Z.compare ex ey); simpl; try reflexivity;
    rewrite <- Hm; destruct (Pos.compare_cont Eq mx my); reflexivity.
Qed.

Lemma F64_leb_not_ltb (x y : num) : F64.leb x y = true -> F64.ltb y x = false.
Proof.
  unfold F64.leb, F64.ltb, SFleb, SFltb. rewrite (SFcompare_swap x y).
  destruct (SFcompare x y) as [[]|]; simpl; congruence.
Qed.

(** Claim C8.  [calculateErrorMetrics(result, groundTruth)] returns
    [absolute = |result - groundTruth|]; when [|groundTruth|] is at least
    [1e-10] it returns [relative = absolute / |groundTruth|], and when
    [|groundTruth|] is below [1e-10] it returns [relative = Infinity]. *)
Theorem calculateErrorMetrics_spec (result groundTruth : num) :
  let m := calculateErrorMetrics result groundTruth in
  absolute m = F64.abs (F64.sub result groundTruth) /\
  (F64.leb relative_epsilon (F64.abs groundTruth) = true ->
   relative m = F64.div (absolute m) (F64.abs groundTruth)) /\
  (F64.ltb (F64.abs groundTruth) relative_epsilon = true ->
   relative m = F64.infinity).
Proof.
  cbn zeta. unfold calculateErrorMetrics, calculateRelativeError,
    calculateAbsoluteError; cbn [absolute relative].
  split; [reflexivity | split].
  - intros Hle. rewrite (F64_leb_not_ltb _ _ Hle). reflexivity.
  - intros Hlt. rewrite Hlt. reflexivity.
Qed.

Lemma calculateErrorMetrics_spec_witness :
  F64.leb relative_epsilon (F64.abs F64.one) = true /\
  F64.ltb (F64.abs F64.zero) relative_epsilon = true /\
  relative (calculateErrorMetrics F64.zero F64.one)
    = F64.div (absolute (calculateErrorMetrics F64.zero F64.one)) (F64.abs F64.one) /\
  relative (calculateErrorMetrics F64.one F64.zero) = F64.infinity.
Proof.
  assert (H1 : F64.leb relative_epsilon (F64.abs F64.one) = true) by (vm_compute; reflexivity).
  assert (H2 : F64.ltb (F64.abs F64.zero) relative_epsilon = true) by (vm_compute; reflexivity).
  split; [exact H1 | split; [exact H2 | split]].
  - exact (proj1 (proj2 (calculateErrorMetrics_spec F64.zero F64.one)) H1).
  - exact (proj2 (proj2 (calculateErrorMetrics_spec F64.one F64.zero)) H2).
Defined.

(** ** Progress ordering *)

(** Claim C7 (a run where it fails).  On [isolated_target_request] with
    [Math.random() = 0.5] throughout, the WebAssembly walk posts progress
    50 and then traps at the isolated target; the JavaScript fallback
    posts progress again from 2.5, then throws at the isolated target,
    and the worker posts [ERROR].  The progress values of the task are
    not non-decreasing. *)
Theorem handleCompute_progress_not_monotone :
  let w := snd (handleCompute (fun _ => 1 # 2) 10 true isolated_target_request
                  start_world) in
  firstn 2 (posted w) =
    [PROGRESS "task-1" (F64.of_nat 50);
     PROGRESS "task-1" (F64.div (F64.of_nat 5) (F64.of_nat 2))] /\
  last (posted w) = Some (ERROR "task-1" type_error) /\
  progress_ordered "task-1" F64.zero false (posted w) = false.
Proof. vm_compute. repeat split. Qed.

(** ** The metadata line of [parseEdgeList] *)

Lemma split_lines_app (l r : list ascii) (h : list ascii) (tl : list (list ascii)) :
  no_newline l -> split_lines r = h :: tl ->
  split_lines (l ++ r) = (l ++ h) :: tl.
Proof.
  intros Hl Hr. induction Hl as [|c l Hc Hl IH]; [exact Hr|].
  simpl. destruct (Ascii.eqb_spec c "010"%char) as [E|_]; [contradiction|].
  rewrite IH. reflexivity.
Qed.

Lemma split_lines_join (ls : list (list ascii)) :
  ls <> [] -> Forall no_newline ls -> split_lines (join_lines ls) = ls.
Proof.
  induction ls as [|l ls IH]; [congruence|].
  intros _ Hall. inversion Hall as [|? ? Hl Hls]; subst.
  destruct ls as [|l' ls'].
  - simpl. rewrite <- (app_nil_r l) at 1.
    rewrite (split_lines_app l [] [] [] Hl eq_refl), app_nil_r. reflexivity.
  - change (join_lines (l :: l' :: ls')) with (l ++ "010"%char :: join_lines (l' :: ls')).
    rewrite (split_lines_app l _ [] (l' :: ls') Hl).
    + rewrite app_nil_r. reflexivity.
    + change (split_lines ("010"%char :: join_lines (l' :: ls')))
        with ([] :: split_lines (join_lines (l' :: ls'))).
      rewrite IH by (congruence || assumption).
      reflexivity.
Qed.

Lemma digit_not_ws (c : ascii) : is_digit c = true -> is_ws c = false.
Proof.
  unfold is_digit, is_ws. intros H.
  apply andb_true_iff in H as [H1 H2]. apply Nat.leb_le in H1, H2.
  apply orb_false_iff. split.
  - apply andb_false_iff. right. apply Nat.leb_gt. lia.
  - apply Nat.eqb_neq. lia.
Qed.

Lemma digit_neq (c d : ascii) : is_digit c = true -> is_digit d = false ->
  Ascii.eqb c d = false.
Proof. intros Hc Hd. destruct (Ascii.eqb_spec c d); congruence. Qed.

Lemma ltrim_digit (d : ascii) (r : list ascii) :
  is_digit d = true -> ltrim (d :: r) = d :: r.
Proof. intros H. simpl. rewrite (digit_not_ws d H). reflexivity. Qed.

Lemma trim_data_line (D1 sep D2 : list ascii) :
  D1 <> [] -> D2 <> [] ->
  Forall (fun c => is_digit c = true) D1 -> Forall (fun c => is_digit c = true) D2 ->
  trim (D1 ++ sep ++ D2) = D1 ++ sep ++ D2.
Proof.
  intros H1 H2 F1 F2. unfold trim.
  destruct D1 as [|d1 D1']; [congruence|].
  inversion F1 as [|? ? Hd1 _]; subst.
  rewrite <- app_comm_cons, (ltrim_digit d1 _ Hd1), app_comm_cons.
  rewrite (app_assoc (d1 :: D1')), rev_app_distr.
  destruct (rev D2) as [|d2 r2] eqn:E.
  - apply (f_equal (@rev ascii)) in E. rewrite rev_involutive in E. simpl in E. congruence.
  - assert (Hd2 : is_digit d2 = true).
    { assert (Hin : In d2 D2) by (apply in_rev; rewrite E; left; reflexivity).
      exact (proj1 (List.Forall_forall _ _) F2 d2 Hin). }
    rewrite <- app_comm_cons, (ltrim_digit d2 _ Hd2), app_comm_cons, <- E,
      <- rev_app_distr, rev_involutive. reflexivity.
Qed.

Lemma split_ws_aux_word (cur D r : list ascii) :
  Forall (fun c => is_ws c = false) D ->
  split_ws_aux false cur (D ++ r) = split_ws_aux false (rev D ++ cur) r.
Proof.
  intros F. revert cur. induction F as [|c D Hc F IH]; intros cur; [reflexivity|].
  simpl. rewrite Hc, IH, <- app_assoc. reflexivity.
Qed.

Lemma split_ws_aux_space (cur S r : list ascii) :
  Forall (fun c => is_ws c = true) S ->
  split_ws_aux true cur (S ++ r) = split_ws_aux true cur r.
Proof.
  intros F. induction F as [|c S Hc F IH]; [reflexivity|].
  simpl. rewrite Hc. exact IH.
Qed.

Lemma digits_not_ws (D : list ascii) :
  Forall (fun c => is_digit c = true) D -> Forall (fun c => is_ws c = false) D.
Proof. intros F. eapply Forall_impl; [exact F|]. intros c. apply digit_not_ws. Qed.

Lemma split_ws_data_line (D1 sep D2 : list ascii) :
  D2 <> [] -> sep <> [] ->
  Forall (fun c => is_digit c = true) D1 -> Forall (fun c => is_digit c = true) D2 ->
  Forall (fun c => is_ws c = true) sep ->
  split_ws (D1 ++ sep ++ D2) = [D1; D2].
Proof.
  intros H2 Hs F1 F2 Fs. unfold split_ws.
  rewrite (split_ws_aux_word [] D1 _ (digits_not_ws D1 F1)).
  destruct sep as [|c sep']; [congruence|].
  inversion Fs as [|? ? Hc Fs']; subst.
  simpl. rewrite Hc, app_nil_r, rev_involutive, (split_ws_aux_space [] sep' D2 Fs').
  destruct D2 as [|d D2']; [congruence|].
  inversion F2 as [|? ? Hd F2']; subst.
  simpl. rewrite (digit_not_ws d Hd), <- (app_nil_r D2') at 1.
  rewrite (split_ws_aux_word [d] D2' [] (digits_not_ws D2' F2')).
  simpl. rewrite rev_app_distr, rev_involutive. reflexivity.
Qed.

Lemma take_digits_all (D : list ascii) :
  Forall (fun c => is_digit c = true) D -> take_digits D = D.
Proof. intros F. induction F as [|c D Hc F IH]; [reflexivity|]. simpl. rewrite Hc, IH. reflexivity. Qed.

Lemma parseInt_digits (D : list ascii) :
  D <> [] -> Forall (fun c => is_digit c = true) D -> parseInt D = Some (digits_value D).
Proof.
  intros H F. destruct D as [|d D']; [congruence|].
  inversion F as [|? ? Hd _]; subst.
  unfold parseInt. rewrite (ltrim_digit d D' Hd).
  rewrite (digit_neq d "-"%char Hd eq_refl), (digit_neq d "+"%char Hd eq_refl).
  rewrite (take_digits_all (d :: D') F). exact (f_equal Some (Z.mul_1_l _)).
Qed.

Lemma parse_lines_app (st : parse_state) (l1 l2 : list (list ascii)) :
  parse_lines st (l1 ++ l2) =
  match parse_lines st l1 with
  | inl e => inl e
  | inr st' => parse_lines st' l2
  end.
Proof.
  revert st. induction l1 as [|l l1 IH]; intros st; [reflexivity|].
  simpl. destruct (parse_line st l); [reflexivity|]. apply IH.
Qed.

Lemma parse_lines_skipped (st : parse_state) (ls : list (list ascii)) :
  Forall skipped_line ls ->
  parse_lines st (map trim ls) =
  inr (mkParseState (p_edges st) (declaredNodeCount st) (declaredEdgeCount st)
         (minNodeId st) (maxNodeId st) (lineNumber st + length ls)
         (firstDataLineProcessed st)).
Proof.
  intros F. revert st. induction F as [|l ls Hl F IH]; intros st.
  - simpl. rewrite Nat.add_0_r. destruct st; reflexivity.
  - simpl (map trim (l :: ls)). unfold parse_lines; fold parse_lines.
    destruct Hl as [E | [r E]]; unfold parse_line; rewrite E; cbn -[parse_lines];
      rewrite IH; cbn; rewrite Nat.add_succ_r; reflexivity.
Qed.

(** Claim C10.  Let the first line of the input that is neither blank nor
    a comment be two positive decimal integers separated by white space.
    That line is taken as the metadata line: after it the parser has
    recorded the two numbers as declared counts and no edge.  If every
    later line is blank or a comment too, [parseEdgeList] throws
    [GraphParseError("No edges found in the file")]. *)
Theorem parseEdgeList_first_line_is_metadata
    (pre post : list (list ascii)) (D1 sep D2 : list ascii) :
  Forall skipped_line pre -> Forall skipped_line post ->
  Forall no_newline pre -> Forall no_newline post ->
  D1 <> [] -> Forall (fun c => is_digit c = true) D1 -> 0 < digits_value D1 ->
  D2 <> [] -> Forall (fun c => is_digit c = true) D2 -> 0 < digits_value D2 ->
  sep <> [] -> Forall (fun c => is_ws c = true /\ c <> "010"%char) sep ->
  (exists st,
     parse_lines parse_init (map trim (pre ++ [D1 ++ sep ++ D2])) = inr st /\
     p_edges st = [] /\
     declaredNodeCount st = Some (digits_value D1) /\
     declaredEdgeCount st = Some (digits_value D2)) /\
  parseEdgeList (join_lines (pre ++ [D1 ++ sep ++ D2] ++ post)) = inl no_edges_error.
Proof.
  intros Spre Spost Npre Npost H1 F1 P1 H2 F2 P2 Hs Fs.
  assert (Fws : Forall (fun c => is_ws c = true) sep)
    by (eapply Forall_impl; [exact Fs|]; intros c [? ?]; assumption).
  assert (Step : forall st0 : parse_state, firstDataLineProcessed st0 = false ->
    parse_line st0 (D1 ++ sep ++ D2) =
    inr (mkParseState (p_edges st0) (Some (digits_value D1)) (Some (digits_value D2))
           (minNodeId st0) (maxNodeId st0) (S (lineNumber st0)) true)).
  { intros st0 Hf. unfold parse_line.
    destruct D1 as [|d1 D1'] eqn:ED1; [congruence|].
    inversion F1 as [|? ? Hd1 _]; subst.
    rewrite (split_ws_data_line (d1 :: D1') sep D2 H2 Hs F1 F2 Fws).
    change ((d1 :: D1') ++ sep ++ D2) with (d1 :: (D1' ++ sep ++ D2)).
    lazy beta iota. rewrite (digit_neq d1 "#"%char Hd1 eq_refl).
    cbn [nth firstDataLineProcessed length]. rewrite Hf.
    rewrite (parseInt_digits _ H1 F1), (parseInt_digits _ H2 F2).
    apply Z.ltb_lt in P1, P2. cbn -[digits_value]. rewrite P1, P2. reflexivity. }
  assert (Hpre := parse_lines_skipped parse_init pre Spre).
  assert (Hmid : parse_lines parse_init (map trim (pre ++ [D1 ++ sep ++ D2])) =
    inr (mkParseState [] (Some (digits_value D1)) (Some (digits_value D2))
           None None (S (length pre)) true)).
  { rewrite map_app, parse_lines_app, Hpre. simpl map.
    rewrite (trim_data_line D1 sep D2 H1 H2 F1 F2). simpl parse_lines.
    rewrite Step by reflexivity. reflexivity. }
  split.
  - eexists. split; [exact Hmid|]. repeat split.
  - unfold parseEdgeList.
    rewrite split_lines_join.
    + rewrite app_assoc, map_app, parse_lines_app, Hmid,
        (parse_lines_skipped _ post Spost). reflexivity.
    + destruct pre; discriminate.
    + apply Forall_app. split; [exact Npre|]. constructor; [|exact Npost].
      unfold no_newline. rewrite !Forall_app. repeat split.
      * eapply Forall_impl; [exact F1|]. intros c Hc E. subst. discriminate.
      * eapply Forall_impl; [exact Fs|]. intros c [_ ?]. assumption.
      * eapply Forall_impl; [exact F2|]. intros c Hc E. subst. discriminate.
Qed.

Lemma parseEdgeList_first_line_is_metadata_witness :
  parseEdgeList (join_lines [String.list_ascii_of_string "# comment";
                             String.list_ascii_of_string "1 2"; []])
  = inl no_edges_error.
Proof.
  refine (proj2 (parseEdgeList_first_line_is_metadata
    [String.list_ascii_of_string "# comment"] [[]]
    ["1"%char] [" "%char] ["2"%char] _ _ _ _ _ _ _ _ _ _ _ _)).
  - constructor; [right; eexists; reflexivity | constructor].
  - constructor; [left; reflexivity | constructor].
  - repeat constructor; discriminate.
  - repeat constructor.
  - discriminate.
  - repeat constructor.
  - vm_compute. reflexivity.
  - discriminate.
  - repeat constructor.
  - vm_compute. reflexivity.
  - discriminate.
  - repeat constructor; discriminate.
Defined.

(** ** Cancellation in the worker hook *)

(** Without a worker no task is registered. *)
Definition hook_inv (h : hook_state) : Prop :=
  worker_present h = false -> tasks h = ∅.

Lemma hook_step_inv (h : hook_state) (e : hook_event) :
  hook_inv h -> hook_inv (fst (hook_step h e)).
Proof.
  unfold hook_inv. intros Hi.
  destruct e as [| |id op|id|[id p|id r|id err]|]; simpl.
  - discriminate.
  - reflexivity.
  - destruct (worker_present h) eqn:Ew; simpl; [discriminate | rewrite Ew; exact Hi].
  - destruct (worker_present h) eqn:Ew; simpl; [discriminate | rewrite Ew; exact Hi].
  - destruct (tasks h !! id) as [task|] eqn:El; simpl; [|exact Hi].
    exact Hi.
  - destruct (tasks h !! id) as [task|] eqn:El; simpl; [|exact Hi].
    intros Ew. rewrite (Hi Ew), lookup_empty in El. discriminate.
  - destruct (tasks h !! id) as [task|] eqn:El; simpl; [|exact Hi].
    intros Ew. rewrite (Hi Ew), lookup_empty in El. discriminate.
  - intros _. reflexivity.
Qed.

Lemma hook_run_inv (h : hook_state) (evs : list hook_event) :
  hook_inv h -> hook_inv (fst (hook_run h evs)).
Proof.
  revert h. induction evs as [|e evs IH]; intros h Hi; [exact Hi|].
  simpl. pose proof (hook_step_inv h e Hi) as H1.
  destruct (hook_step h e) as [h1 d1]. simpl in H1.
  specialize (IH h1 H1). destruct (hook_run h1 evs) as [h2 d2]. exact IH.
Qed.

Lemma hook_step_absent (h : hook_state) (e : hook_event) (id : string) :
  tasks h !! id = None -> registers id e = false ->
  tasks (fst (hook_step h e)) !! id = None /\
  Forall (fun d => delivery_id d <> id) (snd (hook_step h e)).
Proof.
  intros Hn Hr.
  destruct e as [| |id' op|id'|[id' p|id' r|id' err]|]; simpl.
  - auto.
  - rewrite lookup_empty. auto.
  - simpl in Hr. apply String.eqb_neq in Hr.
    destruct (worker_present h); simpl; [|auto].
    rewrite lookup_insert_ne by congruence. auto.
  - destruct (worker_present h); simpl; [|auto].
    destruct (decide (id' = id)) as [->|Hne].
    + rewrite lookup_delete_eq. auto.
    + rewrite lookup_delete_ne by congruence. auto.
  - destruct (tasks h !! id') as [task|] eqn:E; simpl; [|auto].
    split; [exact Hn|]. destruct (has_onProgress task); repeat constructor.
    simpl. intros ->. congruence.
  - destruct (tasks h !! id') eqn:E; simpl; [|auto].
    split.
    + destruct (decide (id' = id)) as [->|Hne];
        [rewrite lookup_delete_eq | rewrite lookup_delete_ne by congruence]; auto.
    + repeat constructor. simpl. intros ->. congruence.
  - destruct (tasks h !! id') eqn:E; simpl; [|auto].
    split.
    + destruct (decide (id' = id)) as [->|Hne];
        [rewrite lookup_delete_eq | rewrite lookup_delete_ne by congruence]; auto.
    + repeat constructor. simpl. intros ->. congruence.
  - rewrite lookup_empty. split; [reflexivity|].
    apply List.Forall_forall. intros d Hd.
    apply in_map_iff in Hd as [[k task] [<- Hin]]. simpl. intros ->.
    apply list_elem_of_In, elem_of_map_to_list in Hin. congruence.
Qed.

Lemma hook_run_absent (h : hook_state) (evs : list hook_event) (id : string) :
  tasks h !! id = None -> Forall (fun e => registers id e = false) evs ->
  Forall (fun d => delivery_id d <> id) (snd (hook_run h evs)).
Proof.
  intros Hn F. revert h Hn. induction F as [|e evs He F IH]; intros h Hn.
  - constructor.
  - simpl. destruct (hook_step_absent h e id Hn He) as [H1 D1].
    destruct (hook_step h e) as [h1 d1]. simpl in H1, D1.
    specialize (IH h1 H1). destruct (hook_run h1 evs) as [h2 d2].
    simpl in *. apply Forall_app. auto.
Qed.

Lemma hook_run_cons (h : hook_state) (e : hook_event) (evs : list hook_event) :
  hook_run h (e :: evs) =
  (fst (hook_run (fst (hook_step h e)) evs),
   snd (hook_step h e) ++ snd (hook_run (fst (hook_step h e)) evs)).
Proof.
  simpl. destruct (hook_step h e) as [h1 d1]. simpl.
  destruct (hook_run h1 evs). reflexivity.
Qed.

Lemma hook_cancel_removes (h : hook_state) (id : string) :
  hook_inv h -> tasks (fst (hook_step h (Cancel id))) !! id = None.
Proof.
  unfold hook_inv. intros Hi. simpl.
  destruct (worker_present h) eqn:Ew; simpl.
  - apply lookup_delete_eq.
  - rewrite (Hi eq_refl). apply lookup_empty.
Qed.

(** Claim C4.  Whatever happened since the hook was created ([pre]),
    once [cancel(id)] has run, no callback of task [id] (progress,
    result or error) is invoked for any later worker message, worker
    failure, mount or unmount, as long as no new computation registers
    the same task id. *)
Theorem hook_cancel_silences (pre post : list hook_event) (id : string) :
  Forall (fun e => registers id e = false) post ->
  Forall (fun d => delivery_id d <> id)
    (snd (hook_run (fst (hook_run hook_init pre)) (Cancel id :: post))).
Proof.
  intros F.
  assert (Hi : hook_inv (fst (hook_run hook_init pre)))
    by (apply hook_run_inv; intros _; reflexivity).
  remember (fst (hook_run hook_init pre)) as h eqn:Eh. clear Eh.
  pose proof (hook_cancel_removes h id Hi) as Hn.
  rewrite hook_run_cons. cbn [snd]. apply Forall_app. split.
  - simpl. destruct (worker_present h); constructor.
  - exact (hook_run_absent _ post id Hn F).
Qed.

Lemma hook_cancel_silences_witness :
  let pre := [Mount; Compute "task-1" true] in
  let post := [Incoming (PROGRESS "task-1" (F64.of_nat 50));
               Incoming (RESULT "task-1" F64.one)] in
  Forall (fun d => delivery_id d <> "task-1")
    (snd (hook_run (fst (hook_run hook_init pre)) (Cancel "task-1" :: post))) /\
  snd (hook_run (fst (hook_run hook_init pre)) post) =
    [OnProgress "task-1" (F64.of_nat 50); OnResult "task-1" F64.one].
Proof.
  cbv zeta. split.
  - apply hook_cancel_silences. repeat constructor.
  - vm_compute. reflexivity.
Defined.

(** ** Seeding of the random walks *)

(** A computation whose outcome and final generator state are determined
    by the generator state it starts from. *)
Definition seed_determined {A} (m : M A) : Prop :=
  forall w1 w2, libc_seed w1 = libc_seed w2 ->
    fst (m w1) = fst (m w2) /\ libc_seed (snd (m w1)) = libc_seed (snd (m w2)).

Lemma seed_determined_ret {A} (a : A) : seed_determined (ret a).
Proof. intros w1 w2 E. simpl. auto. Qed.

Lemma seed_determined_throw {A} (e : string) : seed_determined (A := A) (throw e).
Proof. intros w1 w2 E. simpl. auto. Qed.

Lemma seed_determined_out_of_fuel {A} : seed_determined (A := A) out_of_fuel.
Proof. intros w1 w2 E. simpl. auto. Qed.

Lemma seed_determined_c_rand : seed_determined c_rand.
Proof. intros w1 w2 E. unfold c_rand. simpl. rewrite E. auto. Qed.

Lemma seed_determined_bind {A B} (m : M A) (k : A -> M B) :
  seed_determined m -> (forall a, seed_determined (k a)) ->
  seed_determined (bind m k).
Proof.
  intros Hm Hk w1 w2 E. unfold bind.
  destruct (Hm w1 w2 E) as [E1 E2].
  destruct (m w1) as [[a1| e1 |] w1'], (m w2) as [[a2| e2 |] w2'];
    simpl in *; try discriminate; try (injection E1 as ->).
  - apply Hk. exact E2.
  - split; [reflexivity | exact E2].
  - split; [reflexivity | exact E2].
Qed.

Lemma seed_determined_walk_cpp adj s t v fuel u ca cb :
  seed_determined (walk_cpp adj s t v fuel u ca cb).
Proof.
  revert u ca cb. induction fuel as [|fuel IH]; intros u ca cb; simpl.
  - apply seed_determined_out_of_fuel.
  - destruct (Nat.eqb u v); [apply seed_determined_ret|].
    apply seed_determined_bind; [apply seed_determined_c_rand|]. intros r.
    destruct (Nat.eqb (length (adj u)) 0); [apply seed_determined_throw|]. apply IH.
Qed.

Lemma seed_determined_walks_cpp adj s t v fuel start k ca cb :
  seed_determined (walks_cpp adj s t v fuel start k ca cb).
Proof.
  revert ca cb. induction k as [|k IH]; intros ca cb; simpl.
  - apply seed_determined_ret.
  - apply seed_determined_bind; [apply seed_determined_walk_cpp|].
    intros [ca' cb']. apply IH.
Qed.

Lemma srand_then {A} (seed : Z) (m : M A) :
  seed_determined m ->
  forall w1 w2, fst (bind (c_srand seed) (fun _ => m) w1) =
                fst (bind (c_srand seed) (fun _ => m) w2).
Proof.
  intros Hm w1 w2.
  exact (proj1 (Hm (snd (c_srand seed w1)) (snd (c_srand seed w2)) eq_refl)).
Qed.

(** Claim C3 (amended).  The C++ estimator [abwalkVSp] calls
    [srand(seed)] before its walks, so its outcome depends only on the
    graph, [s], [t], [v], [times] and [seed]: two calls with the same
    arguments return the same value (or both trap, or both run on),
    whatever the generator's state and the rest of the world before
    each call. *)
Theorem abwalkVSp_seed_deterministic (fuel : nat) (g : Graph) (s t v times : nat)
    (seed : Z) (w1 w2 : world) :
  fst (abwalkVSp fuel g s t v times seed w1) = fst (abwalkVSp fuel g s t v times seed w2).
Proof.
  revert w1 w2.
  unfold abwalkVSp. cbv [mbind M_bind].
  apply srand_then.
  apply seed_determined_bind; [apply seed_determined_walks_cpp|]. intros [a b].
  apply seed_determined_bind; [apply seed_determined_walks_cpp|]. intros [c d].
  apply seed_determined_ret.
Qed.

(** Claim C3 (counterexample).  The JavaScript estimator takes no seed:
    on the path [0 - 1 - 2] with [s = 0], [t = 1], [v = 2] and one walk per
    phase, two runs with the same arguments return 1 and 1.5 depending on
    the values [Math.random()] yields.  The worker's WebAssembly path
    draws its seed from [Math.random()]: the same request handled twice in
    a row gets the results 1.5 and 1. *)
Lemma abwalk_same_inputs_differ :
  fst (abwalkVSpJS three_quarters 10 path3 (mkWalkParams 0 1 2 1)
         (fun _ => mret tt) start_world) = Done F64.one /\
  fst (abwalkVSpJS quarter_at_one 10 path3 (mkWalkParams 0 1 2 1)
         (fun _ => mret tt) start_world)
    = Done (F64.div (F64.of_nat 3) (F64.of_nat 2)) /\
  posted (snd (handleCompute half_then_fifth 100 true path_request
                 (snd (handleCompute half_then_fifth 100 true path_request
                         start_world)))) =
    [PROGRESS "task-1" (F64.of_nat 50);
     RESULT "task-1" (F64.div (F64.of_nat 3) (F64.of_nat 2));
     PROGRESS "task-1" (F64.of_nat 50);
     RESULT "task-1" F64.one] /\
  F64.div (F64.of_nat 3) (F64.of_nat 2) <> F64.one.
Proof. vm_compute. repeat split. discriminate. Qed.

(** ** Zero-degree endpoints and equal endpoints of [pushVSpJS] *)

Lemma fold_upd_other {A} (f : A -> nat -> A -> A) (l : list Edge) (x : nat)
    (d0 : nat -> A) :
  (forall e, In e l -> source e <> x) ->
  fold_left (fun d e => upd d (source e) (f (d (source e)) (target e) (d (source e)))) l d0 x
  = d0 x.
Proof.
  revert d0. induction l as [|e l IH]; intros d0 H; [reflexivity|].
  simpl. rewrite IH by (intros e' He'; apply H; right; exact He').
  unfold upd. destruct (Nat.eqb_spec x (source e)) as [E|_]; [|reflexivity].
  exfalso. apply (H e); [left; reflexivity | symmetry; exact E].
Qed.

Lemma degree_of_isolated (g : Graph) (x : nat) :
  isolated g x -> degree_of g x = F64.zero.
Proof.
  intros H. unfold degree_of.
  exact (fold_upd_other (fun c _ _ => F64.add c F64.one) (edges g) x _ H).
Qed.





(** [((x/0 + y/0) - x/0) - y/0] is NaN for all [x] and [y]. *)
Lemma combine_zero_degree_nan (x y : num) :
  let a := F64.div x F64.zero in
  let b := F64.div y F64.zero in
  F64.sub (F64.sub (F64.add a b) a) b = F64.nan.
Proof. destruct x as [[]|[]| |[] mx ex], y as [[]|[]| |[] my ey]; reflexivity. Qed.

(** ** Binary64 facts: quotients are canonical, and [((a + a) - a) - a] is +0 *)

Local Abbreviation fexp53 := (fexp F64.prec F64.emax).

Lemma fexp53_eq (x : Z) : fexp53 x = Z.max (x - 53) (-1074).
Proof. reflexivity. Qed.

Lemma digits2_pos_log2 (p : positive) : Zpos (digits2_pos p) = Z.log2 (Zpos p) + 1.
Proof.
  induction p as [p IH|p IH|]; [| |reflexivity]; cbn [digits2_pos]; rewrite Pos2Z.inj_succ, IH.
  - change (Zpos p~1) with (2 * Zpos p + 1). rewrite Z.log2_succ_double by lia. lia.
  - change (Zpos p~0) with (2 * Zpos p). rewrite Z.log2_double by lia. lia.
Qed.

Lemma Zdigits2_log2 (m : Z) : 0 < m -> Zdigits2 m = Z.log2 m + 1.
Proof. intros H. destruct m as [|p|p]; try lia. apply digits2_pos_log2. Qed.

Lemma Zdigits2_nonneg (m : Z) : 0 <= Zdigits2 m.
Proof. destruct m; cbn; lia. Qed.

Lemma shr_1_m (mrs : shr_record) :
  0 <= shr_m mrs -> shr_m (shr_1 mrs) = shr_m mrs / 2.
Proof.
  destruct mrs as [m r s]. cbn [shr_m]. intros H.
  destruct m as [|[p|p|]|p]; try lia; cbn [shr_1 shr_m]; try reflexivity.
  all: try (change (Zpos p~0) with (2 * Zpos p); rewrite Z.mul_comm, Z.div_mul by lia; reflexivity).
  all: change (Zpos p~1) with (2 * Zpos p + 1); rewrite Z.mul_comm, Z.div_add_l by lia;
    reflexivity.
Qed.

Lemma iter_shr_1_m (p : positive) (mrs : shr_record) :
  0 <= shr_m mrs -> shr_m (SpecFloat.iter_pos shr_1 p mrs) = shr_m mrs / 2 ^ Zpos p.
Proof.
  revert mrs. induction p as [p IH|p IH|]; intros mrs H; cbn [SpecFloat.iter_pos].
  - assert (H1 : 0 <= shr_m (shr_1 mrs)) by (rewrite shr_1_m by exact H; apply Z.div_pos; lia).
    assert (H2 : 0 <= shr_m (SpecFloat.iter_pos shr_1 p (shr_1 mrs)))
      by (rewrite IH by exact H1; apply Z.div_pos; [exact H1 | lia]).
    rewrite IH, IH, shr_1_m by assumption.
    rewrite !Z.div_div by (try apply Z.pow_nonneg; try apply Z.mul_nonneg_nonneg; lia).
    assert (E : 2 ^ Zpos p~1 = 2 * (2 ^ Zpos p * 2 ^ Zpos p))
      by (rewrite <- Z.pow_add_r, <- Z.pow_succ_r by lia; f_equal; lia).
    rewrite E; f_equal; ring.
  - assert (H2 : 0 <= shr_m (SpecFloat.iter_pos shr_1 p mrs))
      by (rewrite IH by exact H; apply Z.div_pos; lia).
    rewrite IH, IH by assumption.
    rewrite Z.div_div by (try apply Z.pow_pos_nonneg; lia).
    assert (E : 2 ^ Zpos p~0 = 2 ^ Zpos p * 2 ^ Zpos p)
      by (rewrite <- Z.pow_add_r by lia; f_equal; lia).
    rewrite E. reflexivity.
  - rewrite shr_1_m by exact H. reflexivity.
Qed.

Lemma shr_m_of_loc (m : Z) (l : location) : shr_m (shr_record_of_loc m l) = m.
Proof. destruct l as [|[]]; reflexivity. Qed.

Lemma shr_fexp_spec (m e : Z) (l : location) :
  0 <= m -> e <= fexp53 (Zdigits2 m + e) ->
  shr_m (fst (shr_fexp F64.prec F64.emax m e l)) = m / 2 ^ (fexp53 (Zdigits2 m + e) - e) /\
  snd (shr_fexp F64.prec F64.emax m e l) = fexp53 (Zdigits2 m + e).
Proof.
  intros Hm He. unfold shr_fexp, shr.
  destruct (fexp53 (Zdigits2 m + e) - e) as [|p|p] eqn:En.
  - cbn [fst snd]. rewrite shr_m_of_loc, Z.div_1_r. split; [reflexivity | lia].
  - cbn [fst snd]. rewrite iter_shr_1_m by (rewrite shr_m_of_loc; exact Hm).
    rewrite shr_m_of_loc. split; [reflexivity | lia].
  - lia.
Qed.

Lemma round_nearest_even_bounds (m : Z) (l : location) :
  m <= round_nearest_even m l <= m + 1.
Proof. destruct l as [|[]]; cbn; try destruct (Z.even m); lia. Qed.

Lemma Zdigits2_shiftr (m k : Z) :
  0 <= k -> 0 < m / 2 ^ k -> Zdigits2 (m / 2 ^ k) = Zdigits2 m - k.
Proof.
  intros Hk Hq.
  assert (Hm : 0 < m).
  { destruct (Z.le_gt_cases m 0) as [H|H]; [|exact H].
    exfalso. assert (m / 2 ^ k <= 0); [|lia].
    apply Z.div_le_upper_bound; [apply Z.pow_pos_nonneg; lia | nia]. }
  rewrite !Zdigits2_log2 by assumption.
  rewrite <- Z.shiftr_div_pow2 by exact Hk. rewrite Z.log2_shiftr by exact Hm.
  rewrite <- Z.shiftr_div_pow2 in Hq by exact Hk.
  destruct (Z.lt_ge_cases (Z.log2 m) k) as [Hl|Hl].
  - rewrite Z.shiftr_eq_0 in Hq by lia. lia.
  - lia.
Qed.

(** [binary_round_aux] makes a valid binary64 value of any mantissa that
    needs no shift to the left. *)
Lemma binary_round_aux_valid (sx : bool) (mx ex : Z) (lx : location) :
  0 <= mx -> ex <= fexp53 (Zdigits2 mx + ex) ->
  valid_binary F64.prec F64.emax (binary_round_aux F64.prec F64.emax sx mx ex lx) = true.
Proof.
  intros Hm He. unfold binary_round_aux.
  destruct (shr_fexp_spec mx ex lx Hm He) as [Hm1 He1].
  destruct (shr_fexp F64.prec F64.emax mx ex lx) as [r1 e1]. cbn [fst snd] in Hm1, He1.
  set (m2 := round_nearest_even (shr_m r1) (loc_of_shr_record r1)).
  pose proof (round_nearest_even_bounds (shr_m r1) (loc_of_shr_record r1)) as Hb.
  fold m2 in Hb.
  assert (Hm1p : 0 <= shr_m r1) by (rewrite Hm1; apply Z.div_pos; [lia | apply Z.pow_pos_nonneg; lia]).
  assert (He2 : e1 <= fexp53 (Zdigits2 m2 + e1)).
  { rewrite fexp53_eq in He1, He |- *.
    destruct (Z.le_gt_cases (Zdigits2 mx + ex - 53) (-1074)) as [Hc|Hc]; [lia|].
    assert (Hmx : 0 < mx).
    { destruct (Z.eq_dec mx 0) as [->|]; [|lia]. cbn [Zdigits2] in *. lia. }
    assert (Hq : 0 < shr_m r1).
    { rewrite Hm1, fexp53_eq. rewrite <- Z.shiftr_div_pow2 by lia.
      destruct (Z.eq_dec (Z.shiftr mx (Z.max (Zdigits2 mx + ex - 53) (-1074) - ex)) 0) as [E|E];
        [|pose proof (proj2 (Z.shiftr_nonneg mx (Z.max (Zdigits2 mx + ex - 53) (-1074) - ex)) Hm);
          lia].
      apply Z.shiftr_eq_0_iff in E. rewrite Zdigits2_log2 in Hc, E by exact Hmx. lia. }
    assert (Hd1 : Zdigits2 (shr_m r1) = 53).
    { rewrite Hm1 in Hq |- *. rewrite Zdigits2_shiftr; [| rewrite fexp53_eq; lia | exact Hq].
      rewrite fexp53_eq. lia. }
    assert (Hd2 : 53 <= Zdigits2 m2).
    { rewrite Zdigits2_log2 in Hd1 |- * by lia.
      pose proof (Z.log2_le_mono (shr_m r1) m2 (proj1 Hb)). lia. }
    lia. }
  assert (Hm2 : 0 <= m2) by lia.
  destruct (shr_fexp_spec m2 e1 loc_Exact Hm2 He2) as [Hm3 He3].
  destruct (shr_fexp F64.prec F64.emax m2 e1 loc_Exact) as [r3 e3]. cbn [fst snd] in Hm3, He3.
  destruct (shr_m r3) as [|m3|m3] eqn:Er3; [reflexivity| |reflexivity].
  destruct (Z.leb_spec e3 (F64.emax - F64.prec)) as [Hle|]; [|reflexivity].
  cbn [valid_binary]. unfold bounded, canonical_mantissa.
  apply andb_true_intro. split; [|apply Z.leb_le; exact Hle].
  apply Z.eqb_eq.
  change (Zpos (digits2_pos m3)) with (Zdigits2 (Zpos m3)). rewrite Hm3.
  rewrite Zdigits2_shiftr; [| lia | rewrite <- Hm3; lia].
  rewrite He3. f_equal. lia.
Qed.

Lemma Zdigits2_div_le (a b : Z) :
  0 <= a -> 0 < b -> Zdigits2 a <= Zdigits2 (a / b) + Zdigits2 b.
Proof.
  intros Ha Hb.
  destruct (Z.eq_dec a 0) as [->|Ha']; [rewrite Z.div_0_l by lia; cbn; pose proof (Zdigits2_nonneg b); lia|].
  assert (Hlt : a < (a / b + 1) * b).
  { pose proof (Z.mod_pos_bound a b Hb). pose proof (Z.div_mod a b ltac:(lia)). nia. }
  assert (Hq : a / b + 1 <= 2 ^ Zdigits2 (a / b)).
  { assert (0 <= a / b) by (apply Z.div_pos; lia).
    destruct (Z.eq_dec (a / b) 0) as [E|E]; [rewrite E; cbn; lia|].
    rewrite Zdigits2_log2 by lia. pose proof (Z.log2_spec (a / b) ltac:(lia)). lia. }
  assert (Hbb : b < 2 ^ Zdigits2 b).
  { rewrite Zdigits2_log2 by lia. pose proof (Z.log2_spec b Hb). lia. }
  assert (Haa : 2 ^ (Zdigits2 a - 1) <= a).
  { rewrite Zdigits2_log2 by lia. rewrite Z.add_simpl_r. apply Z.log2_spec. lia. }
  assert (Hp : 2 ^ (Zdigits2 a - 1) < 2 ^ (Zdigits2 (a / b) + Zdigits2 b)).
  { rewrite Z.pow_add_r by apply Zdigits2_nonneg.
    pose proof (Z.pow_pos_nonneg 2 (Zdigits2 (a / b)) ltac:(lia) (Zdigits2_nonneg _)). nia. }
  apply Z.pow_lt_mono_r_iff in Hp; [lia | lia | pose proof (Zdigits2_nonneg (a / b));
    pose proof (Zdigits2_nonneg b); lia].
Qed.

(** Every quotient [F64.div] computes is a valid binary64 value. *)
Lemma F64_div_valid (x y : num) : valid_binary F64.prec F64.emax (F64.div x y) = true.
Proof.
  destruct x as [sx|sx| |sx mx ex], y as [sy|sy| |sy my ey]; try reflexivity.
  unfold F64.div, SFdiv, SFdiv_core_binary.
  set (e' := Z.min (fexp53 (Zdigits2 (Zpos mx) + ex - (Zdigits2 (Zpos my) + ey))) (ex - ey)).
  assert (Hs : 0 <= ex - ey - e') by (unfold e'; lia).
  set (m' := match ex - ey - e' with Zpos _ => Z.shiftl (Zpos mx) (ex - ey - e')
                                   | Z0 => Zpos mx | Zneg _ => 0 end).
  assert (Em' : m' = Zpos mx * 2 ^ (ex - ey - e')).
  { unfold m'. destruct (ex - ey - e') eqn:E; [lia | |lia].
    rewrite Z.shiftl_mul_pow2 by lia. reflexivity. }
  destruct (IntDef.Z.div_eucl m' (Zpos my)) as [q r] eqn:Ediv.
  assert (Hq : q = m' / Zpos my).
  { unfold Z.div. first [rewrite Ediv | change IntDef.Z.div_eucl with Z.div_eucl in Ediv; rewrite Ediv].
    reflexivity. }
  cbv beta iota. subst q.
  apply binary_round_aux_valid.
  - apply Z.div_pos; [rewrite Em'; apply Z.mul_nonneg_nonneg; [lia | apply Z.pow_nonneg; lia] | lia].
  - assert (Hd : Zdigits2 m' = Zdigits2 (Zpos mx) + (ex - ey - e')).
    { rewrite Em', !Zdigits2_log2; [| lia | apply Z.mul_pos_pos; [lia | apply Z.pow_pos_nonneg; lia]].
      rewrite Z.log2_mul_pow2 by lia. lia. }
    pose proof (Zdigits2_div_le m' (Zpos my) ltac:(rewrite Em'; apply Z.mul_nonneg_nonneg;
      [lia | apply Z.pow_nonneg; lia]) ltac:(lia)) as Hq.
    assert (Hmono : fexp53 (Zdigits2 (Zpos mx) + ex - (Zdigits2 (Zpos my) + ey))
                    <= fexp53 (Zdigits2 (m' / Zpos my) + e')) by (rewrite !fexp53_eq; lia).
    unfold e' at 1. lia.
Qed.


Lemma round_aux_canonical (sx : bool) (m : positive) (e : Z) :
  fexp53 (Zpos (digits2_pos m) + e) = e ->
  binary_round_aux F64.prec F64.emax sx (Zpos m) e loc_Exact =
    if e <=? F64.emax - F64.prec then S754_finite sx m e else S754_infinity sx.
Proof.
  intros H. unfold binary_round_aux, shr_fexp.
  change (Zdigits2 (Zpos m)) with (Zpos (digits2_pos m)). rewrite H, Z.sub_diag.
  cbn [shr shr_record_of_loc loc_of_shr_record shr_m round_nearest_even].
  change (Zdigits2 (Zpos m)) with (Zpos (digits2_pos m)). rewrite H, Z.sub_diag.
  reflexivity.
Qed.

Lemma binary_round_canonical (sx : bool) (m : positive) (e : Z) :
  fexp53 (Zpos (digits2_pos m) + e) = e ->
  binary_round F64.prec F64.emax sx m e =
    if e <=? F64.emax - F64.prec then S754_finite sx m e else S754_infinity sx.
Proof.
  intros H. unfold binary_round. rewrite H. unfold shl_align. rewrite Z.sub_diag.
  apply round_aux_canonical. exact H.
Qed.

Lemma round_aux_shift1 (sx : bool) (m : positive) (e : Z) :
  fexp53 (Zpos (digits2_pos m) + (e + 1)) = e + 1 ->
  binary_round_aux F64.prec F64.emax sx (Zpos m~0) e loc_Exact =
    if e + 1 <=? F64.emax - F64.prec then S754_finite sx m (e + 1) else S754_infinity sx.
Proof.
  intros H. unfold binary_round_aux at 1. unfold shr_fexp at 1.
  assert (E : fexp53 (Zdigits2 (Zpos m~0) + e) - e = 1).
  { change (Zdigits2 (Zpos m~0)) with (Zpos (Pos.succ (digits2_pos m))).
    rewrite Pos2Z.inj_succ. replace (Z.succ (Zpos (digits2_pos m)) + e)
      with (Zpos (digits2_pos m) + (e + 1)) by lia. lia. }
  rewrite E. cbn [shr SpecFloat.iter_pos shr_1 shr_record_of_loc loc_of_shr_record shr_m orb
                  round_nearest_even].
  unfold shr_fexp. change (Zdigits2 (Zpos m)) with (Zpos (digits2_pos m)).
  rewrite H, Z.sub_diag. reflexivity.
Qed.

Lemma binary_normalize_cond (sx : bool) (m : positive) (e : Z) :
  binary_normalize F64.prec F64.emax (cond_Zopp sx (Zpos m)) e false =
    binary_round F64.prec F64.emax sx m e.
Proof. destruct sx; reflexivity. Qed.

Lemma shl_align_noshift (m : positive) (e e' : Z) : e <= e' -> shl_align m e e' = (m, e).
Proof. intros H. unfold shl_align. destruct (e' - e) eqn:E; [reflexivity | reflexivity | lia]. Qed.

Lemma F64_sub_finite_self (sx : bool) (m : positive) (e : Z) :
  F64.sub (S754_finite sx m e) (S754_finite sx m e) = F64.zero.
Proof.
  unfold F64.sub, SFsub. rewrite Z.min_id, (shl_align_noshift m e e (Z.le_refl e)).
  cbn [fst]. rewrite Z.sub_diag. reflexivity.
Qed.

(** [((a + a) - a) - a] is +0 for every binary64 value [a] for which
    [a + a] does not overflow. *)
Lemma F64_double_cancel (a : num) :
  valid_binary F64.prec F64.emax a = true -> F64.is_finite (F64.add a a) = true ->
  F64.sub (F64.sub (F64.add a a) a) a = F64.zero.
Proof.
  destruct a as [sx|sx| |sx m e]; intros Hv Hf;
    [destruct sx; reflexivity | destruct sx; vm_compute in Hf; discriminate
    | vm_compute in Hf; discriminate | ].
  cbn [valid_binary] in Hv. unfold bounded, canonical_mantissa in Hv.
  apply andb_prop in Hv as [Hc Hb]. apply Z.eqb_eq in Hc. apply Z.leb_le in Hb.
  set (d := Zpos (digits2_pos m)) in Hc.
  assert (Hd : 0 < d) by (unfold d; lia).
  assert (Hadd : F64.add (S754_finite sx m e) (S754_finite sx m e) =
    binary_round_aux F64.prec F64.emax sx (Zpos m~0) e loc_Exact).
  { unfold F64.add, SFadd. rewrite Z.min_id, (shl_align_noshift m e e (Z.le_refl e)).
    cbn [fst]. replace (cond_Zopp sx (Zpos m) + cond_Zopp sx (Zpos m))
      with (cond_Zopp sx (Zpos m~0)) by (destruct sx; cbn; lia).
    rewrite binary_normalize_cond. unfold binary_round.
    rewrite shl_align_noshift; [reflexivity|].
    cbn [digits2_pos]. rewrite Pos2Z.inj_succ. fold d. rewrite fexp53_eq in Hc |- *. lia. }
  rewrite fexp53_eq in Hc.
  destruct (Z.eq_dec d 53) as [D53|D53].
  - (* a normal number: [a + a] has the exponent [e + 1] *)
    rewrite Hadd, round_aux_shift1 in Hf |- *
      by (fold d; rewrite fexp53_eq; lia).
    destruct (Z.leb_spec (e + 1) (F64.emax - F64.prec)) as [He|]; [|discriminate].
    unfold F64.sub at 2, SFsub.
    replace (Z.min (e + 1) e) with e by lia.
    unfold shl_align at 1. replace (e - (e + 1)) with (-1) by lia.
    rewrite (shl_align_noshift m e e (Z.le_refl e)). cbn [fst Pos.iter].
    replace (cond_Zopp sx (Zpos m~0) - cond_Zopp sx (Zpos m)) with (cond_Zopp sx (Zpos m))
      by (destruct sx; cbn; lia).
    rewrite binary_normalize_cond, binary_round_canonical by (fold d; rewrite fexp53_eq; lia).
    destruct (Z.leb_spec e (F64.emax - F64.prec)); [|lia].
    apply F64_sub_finite_self.
  - (* a subnormal number: [e] is the least exponent *)
    assert (He : e = -1074) by lia.
    assert (Hd2 : fexp53 (Zpos (digits2_pos m~0) + e) = e).
    { cbn [digits2_pos]. rewrite Pos2Z.inj_succ. fold d. rewrite fexp53_eq. lia. }
    rewrite Hadd, round_aux_canonical by exact Hd2.
    destruct (Z.leb_spec e (F64.emax - F64.prec)); [|lia].
    unfold F64.sub at 2, SFsub. rewrite Z.min_id, !(shl_align_noshift _ e e (Z.le_refl e)).
    cbn [fst].
    replace (cond_Zopp sx (Zpos m~0) - cond_Zopp sx (Zpos m)) with (cond_Zopp sx (Zpos m))
      by (destruct sx; cbn; lia).
    rewrite binary_normalize_cond, binary_round_canonical by (fold d; rewrite fexp53_eq; lia).
    destruct (Z.leb_spec e (F64.emax - F64.prec)); [|lia].
    apply F64_sub_finite_self.
Qed.

Lemma randNeighbor_no_neighbours rnd n adj u w :
  adj u = [] ->
  fst (randNeighbor rnd n adj (Some u) w) = Done None \/
  fst (randNeighbor rnd n adj (Some u) w) = Thrown type_error.
Proof.
  intros Ha. unfold randNeighbor. cbv [mbind M_bind bind Math_random ret throw].
  destruct (Nat.ltb u n); [left | right; reflexivity].
  rewrite Ha. cbn [fst]. destruct (0 <=? _); [destruct (Z.to_nat _)|]; reflexivity.
Qed.









(** Claim C6 (amended).  [Push(s, s, v, rmax)] computes both phases from
    [s]; they settle the same vector [ps], that of the push phase of the
    spec.  The result is [((a + a) - a) - a] evaluated in binary64 with
    [a = ps[s] / degree(s)]: it is +0 whenever [a + a] is finite (does not
    overflow), and it is NaN when [s] has degree 0. *)
Theorem pushVSpJS_same_endpoints (fuel : nat) (g : Graph) (s v : nat) (rmax : num) :
  option_map fst (pushVSpJS fuel g (mkPushParams s s v rmax)) =
    option_map (fun ps => let a := F64.div (ps s) (degree_of g s) in
                          F64.sub (F64.sub (F64.add a a) a) a)
      (spec_push_phase (degree_of g) (adjacency_of g) v rmax fuel s) /\
  (forall ps r, spec_push_phase (degree_of g) (adjacency_of g) v rmax fuel s = Some ps ->
     F64.is_finite (F64.add (F64.div (ps s) (degree_of g s))
                            (F64.div (ps s) (degree_of g s))) = true ->
     option_map fst (pushVSpJS fuel g (mkPushParams s s v rmax)) = Some r ->
     r = F64.zero) /\
  (isolated g s -> forall r,
     option_map fst (pushVSpJS fuel g (mkPushParams s s v rmax)) = Some r ->
     r = F64.nan).
Proof.
  assert (Heq : option_map fst (pushVSpJS fuel g (mkPushParams s s v rmax)) =
    option_map (fun ps => let a := F64.div (ps s) (degree_of g s) in
                          F64.sub (F64.sub (F64.add a a) a) a)
      (spec_push_phase (degree_of g) (adjacency_of g) v rmax fuel s)).
  { unfold pushVSpJS, spec_push_phase. cbn [ps_s ps_t ps_v ps_rmax].
    pose proof (push_phase_js_spec (degree_of g) (adjacency_of g) v rmax
                  (F64.of_nat 25) fuel s []) as Hs.
    destruct (push_phase_js _ _ _ _ _ fuel s []) as [sts|];
      destruct (spec_push_loop _ _ _ _ fuel _) as [sp|] eqn:Esp; simpl in Hs;
      try contradiction; simpl; [|reflexivity].
    pose proof (push_phase_js_spec (degree_of g) (adjacency_of g) v rmax
                  (F64.of_nat 75) fuel s (reported sts)) as Ht.
    rewrite Esp in Ht.
    destruct (push_phase_js _ _ _ _ _ fuel s (reported sts)) as [stt|];
      simpl in Ht; [|contradiction]. simpl.
    destruct Hs as (_ & _ & _ & _ & Hps). destruct Ht as (_ & _ & _ & _ & Hpt).
    unfold combine. rewrite Hps, Hpt. reflexivity. }
  split; [exact Heq|]. split.
  - intros ps r Hps Hfin. rewrite Heq, Hps. cbn [option_map]. intros [= <-].
    apply F64_double_cancel; [apply F64_div_valid | exact Hfin].
  - intros H r. unfold pushVSpJS. cbn [ps_s ps_t ps_v ps_rmax].
    destruct (push_phase_js _ _ _ _ _ fuel s []) as [sts|]; [|discriminate].
    destruct (push_phase_js _ _ _ _ _ fuel s _) as [stt|]; [|discriminate].
    simpl. intros [= <-]. unfold combine.
    rewrite (degree_of_isolated g s H). apply combine_zero_degree_nan.
Qed.

Lemma pushVSpJS_same_endpoints_witness :
  (exists r, option_map fst (pushVSpJS 10 edge12_graph (mkPushParams 0 0 2 F64.one))
               = Some r /\ r = F64.nan) /\
  option_map fst (pushVSpJS 100 cycle4 (mkPushParams 0 0 2 F64.one))
    = option_map (fun ps => let a := F64.div (ps 0%nat) (degree_of cycle4 0) in
                            F64.sub (F64.sub (F64.add a a) a) a)
        (spec_push_phase (degree_of cycle4) (adjacency_of cycle4) 2 F64.one 100 0) /\
  (exists ps r,
     spec_push_phase (degree_of cycle4) (adjacency_of cycle4) 2 F64.one 100 0 = Some ps /\
     F64.is_finite (F64.add (F64.div (ps 0%nat) (degree_of cycle4 0))
                            (F64.div (ps 0%nat) (degree_of cycle4 0))) = true /\
     option_map fst (pushVSpJS 100 cycle4 (mkPushParams 0 0 2 F64.one)) = Some r /\
     r = F64.zero).
Proof.
  assert (Hr : option_map fst (pushVSpJS 10 edge12_graph (mkPushParams 0 0 2 F64.one))
               = Some F64.nan) by (vm_compute; reflexivity).
  split; [|split].
  - exists F64.nan. split; [exact Hr|].
    refine (proj2 (proj2 (pushVSpJS_same_endpoints 10 edge12_graph 0 2 F64.one))
              _ F64.nan Hr).
    intros e He. vm_compute in He.
    destruct He as [<- | [<- | []]]; discriminate.
  - exact (proj1 (pushVSpJS_same_endpoints 100 cycle4 0 2 F64.one)).
  - set (ps := match spec_push_phase (degree_of cycle4) (adjacency_of cycle4) 2 F64.one 100 0
               with Some ps => ps | None => fun _ => F64.zero end).
    set (r := match option_map fst (pushVSpJS 100 cycle4 (mkPushParams 0 0 2 F64.one))
              with Some r => r | None => F64.nan end).
    assert (Hps : spec_push_phase (degree_of cycle4) (adjacency_of cycle4) 2 F64.one 100 0
                  = Some ps) by (vm_compute; reflexivity).
    assert (Hfin : F64.is_finite (F64.add (F64.div (ps 0%nat) (degree_of cycle4 0))
                                          (F64.div (ps 0%nat) (degree_of cycle4 0))) = true)
      by (vm_compute; reflexivity).
    assert (Hres : option_map fst (pushVSpJS 100 cycle4 (mkPushParams 0 0 2 F64.one))
                   = Some r) by (vm_compute; reflexivity).
    exists ps, r. split; [exact Hps|]. split; [exact Hfin|]. split; [exact Hres|].
    exact (proj1 (proj2 (pushVSpJS_same_endpoints 100 cycle4 0 2 F64.one)) ps r Hps Hfin Hres).
Defined.

(** Claim C6 (counterexample).  On [edge12_graph], where node 0 has
    degree 0, [Push(0, 0, 2, 1)] returns NaN, not 0. *)
Lemma push_same_endpoints_not_zero :
  option_map fst (pushVSpJS 10 edge12_graph (mkPushParams 0 0 2 F64.one))
    = Some F64.nan /\ F64.nan <> F64.zero.
Proof. vm_compute. split; [reflexivity | discriminate]. Qed.

(** ** No step cap on the random walks *)

Lemma floor_mul_bounds (r : Q) (k : nat) :
  (0 <= r)%Q -> (r < 1)%Q -> (0 < k)%nat -> 0 <= floor_mul r k < Z.of_nat k.
Proof.
  intros H0 H1 Hk. unfold floor_mul, floor_mul_Z.
  set (K := inject_Z (Z.of_nat k)).
  assert (HK : (0 < K)%Q) by (unfold K; change 0%Q with (inject_Z 0); rewrite <- Zlt_Qlt; lia).
  set (x := (r * K)%Q).
  assert (Hx0 : (0 <= x)%Q) by (apply Qmult_le_0_compat; [exact H0 | apply Qlt_le_weak, HK]).
  assert (HxK : (x < K)%Q).
  { unfold x. rewrite <- (Qmult_1_l K) at 2. apply Qmult_lt_compat_r; assumption. }
  pose proof (Qfloor_le x) as Hle. pose proof (Qlt_floor x) as Hlt.
  split.
  - destruct (Z_lt_le_dec (Qfloor x) 0) as [Hn|Hn]; [|exact Hn].
    exfalso. assert (E : Qfloor x + 1 <= 0) by lia.
    rewrite Zle_Qle in E. apply (Qlt_irrefl 0%Q).
    apply Qle_lt_trans with x; [exact Hx0|].
    apply Qlt_le_trans with (inject_Z (Qfloor x + 1)); assumption.
  - rewrite Zlt_Qlt. apply Qle_lt_trans with x; assumption.
Qed.

Lemma randNeighbor_in (rnd : nat -> Q) (n : nat) (adj : nat -> list nat) (u : nat)
    (w : world) :
  (0 <= rnd (rnd_pos w))%Q -> (rnd (rnd_pos w) < 1)%Q -> (u < n)%nat -> adj u <> [] ->
  exists x w', randNeighbor rnd n adj (Some u) w = (Done (Some x), w') /\ In x (adj u).
Proof.
  intros H0 H1 Hu Hne.
  assert (Hlen : (0 < length (adj u))%nat) by (destruct (adj u); [congruence | simpl; lia]).
  destruct (floor_mul_bounds (rnd (rnd_pos w)) (length (adj u)) H0 H1 Hlen) as [Lo Hi].
  unfold randNeighbor. cbv [mbind M_bind bind Math_random ret].
  apply Nat.ltb_lt in Hu. rewrite Hu.
  apply Z.leb_le in Lo as Lo'. rewrite Lo'.
  destruct (nth_error (adj u) (Z.to_nat (floor_mul (rnd (rnd_pos w)) (length (adj u)))))
    as [x|] eqn:E.
  - exists x. eexists. split; [reflexivity|]. eapply nth_error_In. exact E.
  - apply nth_error_None in E. lia.
Qed.

Lemma bind_out_of_fuel {A B} (m : M A) (k : A -> M B) (w : world) :
  fst (m w) = OutOfFuel -> fst (bind m k w) = OutOfFuel.
Proof. unfold bind. destruct (m w) as [[a|e|] w']; simpl; congruence. Qed.

Section Trapped.
(** A set of nodes [inC] that a walk cannot leave and that does not
    contain [v]: each of its nodes is in range and has neighbours, all
    of them in the set. *)
Variables (inC : nat -> bool) (n : nat) (adj : nat -> list nat) (v : nat).
Hypothesis closed : forall u, inC u = true ->
  (u < n)%nat /\ adj u <> [] /\ forall x, In x (adj u) -> inC x = true.
Hypothesis v_out : inC v = false.

Lemma inC_neq (u : nat) : inC u = true -> u <> v.
Proof. intros Hu ->. congruence. Qed.

Lemma walk_js_trapped (rnd : nat -> Q) :
  (forall k, (0 <= rnd k)%Q /\ (rnd k < 1)%Q) ->
  forall fuel a b u ca cb w, inC u = true ->
    fst (walk_js rnd n adj v fuel a b (Some u) ca cb w) = OutOfFuel.
Proof.
  intros Hr fuel. induction fuel as [|fuel IH]; intros a b u ca cb w Hu; [reflexivity|].
  assert (Hneq : Some u <> Some v)
    by (intros E; injection E as E; exact (inC_neq u Hu E)).
  simpl. rewrite (decide_False _ _ Hneq).
  cbv [mbind M_bind]. unfold bind at 1.
  destruct (closed u Hu) as (Hn & Hne & Hin).
  destruct (Hr (rnd_pos w)) as [H0 H1].
  destruct (randNeighbor_in rnd n adj u w H0 H1 Hn Hne) as (x & w' & E & Hx).
  rewrite E. apply IH. apply Hin. exact Hx.
Qed.

Lemma walks_js_trapped (rnd : nat -> Q) s t times onProgress :
  (forall k, (0 <= rnd k)%Q /\ (rnd k < 1)%Q) ->
  forall fuel start second i k ca cb w, inC start = true ->
    fst (walks_js rnd n adj s t v times onProgress fuel start second i (S k) ca cb w)
    = OutOfFuel.
Proof.
  intros Hr fuel start second i k ca cb w Hs. simpl. cbv [mbind M_bind].
  apply bind_out_of_fuel. apply walk_js_trapped; assumption.
Qed.

Lemma walk_cpp_trapped s t :
  forall fuel u ca cb w, inC u = true ->
    fst (walk_cpp adj s t v fuel u ca cb w) = OutOfFuel.
Proof.
  intros fuel. induction fuel as [|fuel IH]; intros u ca cb w Hu; [reflexivity|].
  assert (Hv : Nat.eqb u v = false) by (apply Nat.eqb_neq, inC_neq, Hu).
  simpl. rewrite Hv.
  destruct (closed u Hu) as (_ & Hne & Hin).
  assert (Hlen : Nat.eqb (length (adj u)) 0 = false)
    by (apply Nat.eqb_neq; destruct (adj u); [congruence | discriminate]).
  cbv [mbind M_bind bind c_rand]. rewrite Hlen. apply IH. apply Hin.
  apply nth_In. apply Nat.eqb_neq in Hlen.
  assert (Hp : 0 < Z.of_nat (length (adj u))) by lia.
  pose proof (Z.mod_pos_bound (MuslRand.output (MuslRand.step (libc_seed w)))
                (Z.of_nat (length (adj u))) Hp). lia.
Qed.

Lemma walks_cpp_trapped s t :
  forall fuel start k ca cb w, inC start = true ->
    fst (walks_cpp adj s t v fuel start (S k) ca cb w) = OutOfFuel.
Proof.
  intros fuel start k ca cb w Hs. simpl. cbv [mbind M_bind].
  apply bind_out_of_fuel. apply walk_cpp_trapped. exact Hs.
Qed.
End Trapped.

(** Claim C1 (amended).  The walks have no step cap and no sentinel
    result.  If [s] lies in a set of nodes that contains no [v], whose
    nodes all have neighbours and whose neighbours stay in the set, then
    with [times >= 1] neither estimator ever returns: for every amount of
    fuel, the JavaScript [abwalkVSpJS] (with [Math.random()] in [[0, 1)])
    and the C++ [abwalkVSp] (with any seed) are still running. *)
Theorem abwalk_no_step_cap (inC : nat -> bool) (rnd : nat -> Q) (g : Graph)
    (prm : AbwalkVSpParams) (onProgress : num -> M unit) (seed : Z) :
  (forall u, inC u = true ->
     (u < nodes g)%nat /\ adjacency_of g u <> [] /\
     forall x, In x (adjacency_of g u) -> inC x = true) ->
  inC (aw_s prm) = true -> inC (aw_v prm) = false -> (1 <= aw_times prm)%nat ->
  (forall k, (0 <= rnd k)%Q /\ (rnd k < 1)%Q) ->
  forall fuel w,
    fst (abwalkVSpJS rnd fuel g prm onProgress w) = OutOfFuel /\
    fst (abwalkVSp fuel g (aw_s prm) (aw_t prm) (aw_v prm) (aw_times prm) seed w)
      = OutOfFuel.
Proof.
  intros Hc Hs Hv Ht Hr fuel w.
  destruct prm as [s t v times]. cbn [aw_s aw_t aw_v aw_times] in *.
  destruct times as [|k]; [lia|]. split.
  - unfold abwalkVSpJS. cbv [mbind M_bind]. apply bind_out_of_fuel.
    apply (walks_js_trapped inC (nodes g) (adjacency_of g) v Hc Hv); assumption.
  - unfold abwalkVSp. cbv [mbind M_bind]. unfold bind at 1. simpl (c_srand seed w).
    cbv beta iota. apply bind_out_of_fuel.
    apply (walks_cpp_trapped inC (nodes g) (adjacency_of g) v Hc Hv); assumption.
Qed.

Lemma edge01_trapped (u : nat) : Nat.ltb u 2 = true ->
  (u < nodes edge01_graph)%nat /\ adjacency_of edge01_graph u <> [] /\
  forall x, In x (adjacency_of edge01_graph u) -> Nat.ltb x 2 = true.
Proof.
  intros Hu. apply Nat.ltb_lt in Hu.
  destruct u as [|[|u]]; [| |lia]; vm_compute;
    (split; [lia | split; [discriminate | intros x [<-|[]]; reflexivity]]).
Qed.

Lemma abwalk_no_step_cap_witness :
  fst (abwalkVSpJS three_quarters 7 edge01_graph (mkWalkParams 0 1 2 1)
         (fun _ => mret tt) start_world) = OutOfFuel /\
  fst (abwalkVSp 7 edge01_graph 0 1 2 1 5 start_world) = OutOfFuel.
Proof.
  apply (abwalk_no_step_cap (fun u => Nat.ltb u 2) three_quarters edge01_graph
           (mkWalkParams 0 1 2 1) (fun _ => mret tt) 5).
  - exact edge01_trapped.
  - reflexivity.
  - reflexivity.
  - cbn. lia.
  - intros k. unfold three_quarters. split; vm_compute; [intros H; discriminate | reflexivity].
Defined.

(** Claim C1 (counterexample).  On [edge01_graph] the landmark 2 is
    isolated, so it cannot be reached from [s = 0]: with one walk per
    phase, [Math.random()] always 0.75 and seed 0 for the C++ code, both
    estimators are still running after 100000 walk steps, with no
    sentinel returned. *)
Lemma abwalk_unreachable_landmark_runs_on :
  fst (abwalkVSpJS three_quarters 100000 edge01_graph (mkWalkParams 0 1 2 1)
         (fun _ => mret tt) start_world) = OutOfFuel /\
  fst (abwalkVSp 100000 edge01_graph 0 1 2 1 0 start_world) = OutOfFuel.
Proof.
  split.
  - unfold abwalkVSpJS. cbv [mbind M_bind]. apply bind_out_of_fuel.
    apply (walks_js_trapped (fun u => Nat.ltb u 2) 3 (adjacency_of edge01_graph) 2
             edge01_trapped eq_refl); [|reflexivity].
    intros k. unfold three_quarters. split; vm_compute; [intros H; discriminate | reflexivity].
  - unfold abwalkVSp. cbv [mbind M_bind]. unfold bind at 1. simpl (c_srand 0 start_world).
    cbv beta iota. apply bind_out_of_fuel.
    apply (walks_cpp_trapped (fun u => Nat.ltb u 2) 3 (adjacency_of edge01_graph) 2
             edge01_trapped eq_refl). reflexivity.
Qed.

(** * Further properties of the code *)

(** ** Floating-point facts *)

Lemma F64_sub_self (x : num) : F64.sub x x = F64.zero \/ F64.sub x x = F64.nan.
Proof.
  destruct x as [[]|[]| |sx mx ex]; try (left; reflexivity); try (right; reflexivity).
  left. unfold F64.sub, SFsub. rewrite Z.min_id. unfold shl_align.
  rewrite Z.sub_diag. reflexivity.
Qed.

Lemma F64_add_opp_self (s : bool) (m : positive) (e : Z) :
  F64.add (S754_finite (negb s) m e) (S754_finite s m e) = F64.zero.
Proof.
  unfold F64.add, SFadd. rewrite Z.min_id. unfold shl_align.
  rewrite Z.sub_diag. cbv iota beta. cbn [fst].
  destruct s; cbn [negb cond_Zopp]; [rewrite Z.add_opp_diag_r | rewrite Z.add_opp_diag_l];
  reflexivity.
Qed.

(** [((x - x) - y) + y] is +0 or NaN. *)
Lemma F64_cancel_pair (x y : num) :
  F64.add (F64.sub (F64.sub x x) y) y = F64.zero \/
  F64.add (F64.sub (F64.sub x x) y) y = F64.nan.
Proof.
  destruct (F64_sub_self x) as [-> | ->];
    [|right; destruct y as [[]|[]| |[] my ey]; reflexivity].
  destruct y as [[]|[]| |sy my ey]; try (left; reflexivity); try (right; reflexivity).
  left. exact (F64_add_opp_self sy my ey).
Qed.

Lemma walk_estimate_no_walks (degree : nat -> num) (s t : nat) :
  walk_estimate degree s t 0 F64.zero F64.zero F64.zero F64.zero = F64.nan.
Proof.
  unfold walk_estimate.
  destruct (degree s) as [[]|[]| |[] ms es], (degree t) as [[]|[]| |[] mt et];
    reflexivity.
Qed.

(** ** Counters of walks with equal endpoints *)

Lemma walk_js_equal_counters rnd n adj v fuel a u c w x y w' :
  walk_js rnd n adj v fuel a a u c c w = (Done (x, y), w') -> x = y.
Proof.
  revert u c w. induction fuel as [|fuel IH]; intros u c w; simpl; [discriminate|].
  destruct (decide (u = Some v)).
  - intros [= -> -> _]. reflexivity.
  - cbv [mbind M_bind bind].
    destruct (randNeighbor rnd n adj u w) as [[u'| |] w1]; [|discriminate|discriminate].
    apply IH.
Qed.

Lemma walks_js_equal_counters rnd n adj s v times onProgress fuel start second :
  forall k i c w x y w',
  walks_js rnd n adj s s v times onProgress fuel start second i k c c w = (Done (x, y), w') ->
  x = y.
Proof.
  intros k. induction k as [|k IH]; intros i c w x y w'; simpl.
  - intros [= -> -> _]. reflexivity.
  - cbv [mbind M_bind bind].
    destruct (walk_js rnd n adj v fuel s s (Some start) c c w) as [[[ca cb]| |] w1] eqn:E;
      [|discriminate|discriminate].
    apply walk_js_equal_counters in E; subst.
    destruct ((if report_now times i then onProgress (walk_progress times second i)
               else mret tt) w1) as [[[]| |] w2]; [|discriminate|discriminate].
    apply IH.
Qed.

Lemma walk_cpp_equal_counters adj s v fuel u c w x y w' :
  walk_cpp adj s s v fuel u c c w = (Done (x, y), w') -> x = y.
Proof.
  revert u c w. induction fuel as [|fuel IH]; intros u c w; simpl; [discriminate|].
  destruct (Nat.eqb u v).
  - intros [= -> -> _]. reflexivity.
  - cbv [mbind M_bind bind c_rand].
    destruct (Nat.eqb (length (adj u)) 0); [discriminate|]. apply IH.
Qed.

Lemma walks_cpp_equal_counters adj s v fuel start :
  forall k c w x y w',
  walks_cpp adj s s v fuel start k c c w = (Done (x, y), w') -> x = y.
Proof.
  intros k. induction k as [|k IH]; intros c w x y w'; simpl.
  - intros [= -> -> _]. reflexivity.
  - cbv [mbind M_bind bind].
    destruct (walk_cpp adj s s v fuel start c c w) as [[[ca cb]| |] w1] eqn:E;
      [|discriminate|discriminate].
    apply walk_cpp_equal_counters in E; subst.
    apply IH.
Qed.

Lemma walk_estimate_same_endpoints (degree : nat -> num) (s times : nat) (a b : num) :
  walk_estimate degree s s times a a b b = F64.zero \/
  walk_estimate degree s s times a a b b = F64.nan.
Proof. unfold walk_estimate. apply F64_cancel_pair. Qed.

(** Extra X1.  With no walk ([times = 0]) both estimators return NaN: the
    JavaScript one draws no random number and reports no progress, the
    C++ one only reseeds the generator. *)
Theorem abwalk_zero_times_nan (rnd : nat -> Q) (fuel : nat) (g : Graph) (s t v : nat)
    (onProgress : num -> M unit) (seed : Z) (w : world) :
  abwalkVSpJS rnd fuel g (mkWalkParams s t v 0) onProgress w = (Done F64.nan, w) /\
  abwalkVSp fuel g s t v 0 seed w =
    (Done F64.nan, mkWorld (rnd_pos w) (MuslRand.srand seed) (posted w)).
Proof.
  split.
  - unfold abwalkVSpJS. cbv [mbind M_bind bind]. cbn [walks_js aw_s aw_t aw_v aw_times].
    unfold ret. cbv beta iota. rewrite walk_estimate_no_walks. reflexivity.
  - unfold abwalkVSp. cbv [mbind M_bind bind c_srand]. cbn [walks_cpp].
    unfold ret. cbv beta iota. rewrite walk_estimate_no_walks. reflexivity.
Qed.

(** Extra X2.  When [s = t] every value either estimator returns is +0 or
    NaN: the two hit counters of each phase stay equal, and the estimate
    [((a - a) - b) + b] cancels. *)
Theorem abwalk_same_endpoints_zero_or_nan (rnd : nat -> Q) (fuel : nat) (g : Graph)
    (s v times : nat) (onProgress : num -> M unit) (seed : Z) (w w' : world) (r : num) :
  abwalkVSpJS rnd fuel g (mkWalkParams s s v times) onProgress w = (Done r, w') \/
  abwalkVSp fuel g s s v times seed w = (Done r, w') ->
  r = F64.zero \/ r = F64.nan.
Proof.
  intros [H|H].
  - unfold abwalkVSpJS in H. cbv [mbind M_bind bind] in H. cbn [aw_s aw_t aw_v aw_times] in H.
    destruct (walks_js _ _ _ _ _ _ _ _ fuel s false 0 times F64.zero F64.zero w)
      as [[[a a']| |] w1] eqn:E1; [|discriminate|discriminate].
    apply walks_js_equal_counters in E1; subst.
    destruct (walks_js _ _ _ _ _ _ _ _ fuel s true 0 times F64.zero F64.zero w1)
      as [[[b b']| |] w2] eqn:E2; [|discriminate|discriminate].
    apply walks_js_equal_counters in E2; subst.
    unfold ret in H. injection H as <- _. apply walk_estimate_same_endpoints.
  - unfold abwalkVSp in H. cbv [mbind M_bind bind c_srand] in H.
    destruct (walks_cpp (adjacency_of g) s s v fuel s times F64.zero F64.zero _)
      as [[[a a']| |] w1] eqn:E1; [|discriminate|discriminate].
    apply walks_cpp_equal_counters in E1; subst.
    destruct (walks_cpp (adjacency_of g) s s v fuel s times F64.zero F64.zero w1)
      as [[[b b']| |] w2] eqn:E2; [|discriminate|discriminate].
    apply walks_cpp_equal_counters in E2; subst.
    unfold ret in H. injection H as <- _. apply walk_estimate_same_endpoints.
Qed.

Lemma abwalk_same_endpoints_zero_or_nan_witness :
  abwalkVSpJS three_quarters 10 path3 (mkWalkParams 0 0 2 1) (fun _ => mret tt)
    start_world
  = (Done F64.zero,
     snd (abwalkVSpJS three_quarters 10 path3 (mkWalkParams 0 0 2 1)
            (fun _ => mret tt) start_world)) /\
  (F64.zero = F64.zero \/ F64.zero = F64.nan).
Proof.
  assert (E : abwalkVSpJS three_quarters 10 path3 (mkWalkParams 0 0 2 1) (fun _ => mret tt)
                start_world
              = (Done F64.zero,
                 snd (abwalkVSpJS three_quarters 10 path3 (mkWalkParams 0 0 2 1)
                        (fun _ => mret tt) start_world))) by (vm_compute; reflexivity).
  split; [exact E|].
  exact (abwalk_same_endpoints_zero_or_nan three_quarters 10 path3 0 2 1 (fun _ => mret tt)
           0 start_world _ F64.zero (or_introl E)).
Defined.

(** ** Error metrics at the edges *)

(** Extra X3.  An exact estimate of a finite ground truth has absolute
    error +0; its relative error is +0, or Infinity when the ground
    truth is below [1e-10] in magnitude. *)
Theorem calculateErrorMetrics_exact (groundTruth : num) :
  F64.is_finite groundTruth = true ->
  absolute (calculateErrorMetrics groundTruth groundTruth) = F64.zero /\
  relative (calculateErrorMetrics groundTruth groundTruth) =
    if F64.ltb (F64.abs groundTruth) relative_epsilon then F64.infinity else F64.zero.
Proof.
  intros Hf. unfold calculateErrorMetrics, calculateAbsoluteError, calculateRelativeError.
  cbn [absolute relative].
  destruct groundTruth as [sx|sx| |sx mx ex]; try discriminate.
  - destruct sx; split; reflexivity.
  - assert (E : F64.sub (S754_finite sx mx ex) (S754_finite sx mx ex) = F64.zero).
    { unfold F64.sub, SFsub. rewrite Z.min_id. unfold shl_align.
      rewrite Z.sub_diag. reflexivity. }
    rewrite E. split; [reflexivity|].
    destruct (F64.ltb _ _); reflexivity.
Qed.

Lemma calculateErrorMetrics_exact_witness :
  absolute (calculateErrorMetrics F64.one F64.one) = F64.zero /\
  relative (calculateErrorMetrics F64.one F64.one) = F64.zero.
Proof.
  destruct (calculateErrorMetrics_exact F64.one eq_refl) as [Ha Hr].
  split; [exact Ha|]. rewrite Hr. vm_compute. reflexivity.
Defined.

(** Extra X4.  A NaN estimate or a NaN ground truth gives NaN errors, not
    an exception: the absolute error is NaN, and so is the relative
    error unless the ground truth is below [1e-10] in magnitude (then
    Infinity). *)
Theorem calculateErrorMetrics_nan (result groundTruth : num) :
  result = F64.nan \/ groundTruth = F64.nan ->
  absolute (calculateErrorMetrics result groundTruth) = F64.nan /\
  relative (calculateErrorMetrics result groundTruth) =
    if F64.ltb (F64.abs groundTruth) relative_epsilon then F64.infinity else F64.nan.
Proof.
  unfold calculateErrorMetrics, calculateAbsoluteError, calculateRelativeError.
  cbn [absolute relative].
  intros [-> | ->].
  - destruct groundTruth as [[]|[]| |[] mx ex]; split; try reflexivity;
      destruct (F64.ltb _ _); reflexivity.
  - destruct result as [[]|[]| |[] mx ex]; split; reflexivity.
Qed.

Lemma calculateErrorMetrics_nan_witness :
  absolute (calculateErrorMetrics F64.nan F64.one) = F64.nan /\
  relative (calculateErrorMetrics F64.nan F64.one) = F64.nan.
Proof.
  destruct (calculateErrorMetrics_nan F64.nan F64.one (or_introl eq_refl)) as [Ha Hr].
  split; [exact Ha|]. rewrite Hr. vm_compute. reflexivity.
Defined.

(** ** Deliveries of the worker hook *)

Lemma filter_delivery_absent (id : string) (l : list delivery) :
  Forall (fun d => delivery_id d <> id) l ->
  List.filter (fun d => String.eqb (delivery_id d) id) l = [].
Proof.
  induction 1 as [|d l Hd _ IH]; [reflexivity|].
  simpl. apply String.eqb_neq in Hd. rewrite Hd. exact IH.
Qed.

Lemma Permutation_List_filter {A} (f : A -> bool) (l l' : list A) :
  Permutation l l' -> Permutation (List.filter f l) (List.filter f l').
Proof.
  induction 1; simpl.
  - constructor.
  - destruct (f x); [constructor|]; assumption.
  - destruct (f x), (f y); try constructor; reflexivity.
  - etransitivity; eassumption.
Qed.

Lemma hook_failure_deliveries_for (tk : gmap string ComputeTask) (id : string) :
  List.filter (fun d => String.eqb (delivery_id d) id)
    (map (fun '(k, _) => OnError k worker_error_message) (map_to_list tk)) =
  match tk !! id with
  | Some _ => [OnError id worker_error_message]
  | None => []
  end.
Proof.
  destruct (tk !! id) as [task|] eqn:E.
  - pose proof (map_to_list_delete tk id task E) as P.
    apply (Permutation_map (fun '(k, _) => OnError k worker_error_message)) in P.
    apply (Permutation_List_filter (fun d => String.eqb (delivery_id d) id)) in P.
    cbn [map List.filter delivery_id] in P. rewrite String.eqb_refl in P.
    rewrite filter_delivery_absent in P.
    + apply Permutation_length_1_inv. exact P.
    + apply List.Forall_forall. intros d Hd.
      apply in_map_iff in Hd as [[k t'] [<- Hin]]. simpl. intros ->.
      apply list_elem_of_In, elem_of_map_to_list in Hin.
      rewrite lookup_delete_eq in Hin. discriminate.
  - apply filter_delivery_absent. apply List.Forall_forall. intros d Hd.
    apply in_map_iff in Hd as [[k t'] [<- Hin]]. simpl. intros ->.
    apply list_elem_of_In, elem_of_map_to_list in Hin. congruence.
Qed.

Lemma hook_step_no_mount_idle (h : hook_state) (e : hook_event) :
  worker_present h = false -> tasks h = ∅ -> e <> Mount ->
  worker_present (fst (hook_step h e)) = false /\ tasks (fst (hook_step h e)) = ∅ /\
  snd (hook_step h e) = [].
Proof.
  intros Hw Ht Hm.
  destruct e as [| |id op|id|[id p|id r|id err]|]; simpl.
  - congruence.
  - auto.
  - rewrite Hw. auto.
  - rewrite Hw. auto.
  - rewrite Ht, lookup_empty. auto.
  - rewrite Ht, lookup_empty. auto.
  - rewrite Ht, lookup_empty. auto.
  - rewrite Ht, map_to_list_empty. auto.
Qed.

(** Extra X6.  A task's [onResult] or [onError] callback runs at most once:
    when the worker's [RESULT] (or [ERROR]) message for [id] arrives, the
    hook calls [onResult] (or [onError]) if [id] is registered and then
    forgets the task, so no later message, failure, mount or unmount
    reaches task [id] again until a new computation registers [id]. *)
Theorem hook_terminal_message_once (h : hook_state) (id : string) (r : num) (err : string)
    (post : list hook_event) :
  Forall (fun e => registers id e = false) post ->
  List.filter (fun d => String.eqb (delivery_id d) id)
    (snd (hook_run h (Incoming (RESULT id r) :: post))) =
    (if bool_decide (is_Some (tasks h !! id)) then [OnResult id r] else []) /\
  List.filter (fun d => String.eqb (delivery_id d) id)
    (snd (hook_run h (Incoming (ERROR id err) :: post))) =
    (if bool_decide (is_Some (tasks h !! id)) then [OnError id err] else []).
Proof.
  intros F. rewrite !hook_run_cons. cbn [snd]. rewrite !List.filter_app.
  cbn [hook_step].
  destruct (tasks h !! id) as [task|] eqn:E; cbn [fst snd].
  - rewrite !(filter_delivery_absent id (snd (hook_run _ post)))
      by (apply hook_run_absent; [apply lookup_delete_eq | exact F]).
    simpl. rewrite String.eqb_refl. split; reflexivity.
  - rewrite !(filter_delivery_absent id (snd (hook_run _ post)))
      by (apply hook_run_absent; [exact E | exact F]).
    split; reflexivity.
Qed.

Lemma hook_terminal_message_once_witness :
  List.filter (fun d => String.eqb (delivery_id d) "task-1")
    (snd (hook_run (mkHook true {[ "task-1" := mkTask "task-1" true ]})
            (Incoming (RESULT "task-1" F64.one)
               :: [Incoming (RESULT "task-1" F64.zero); WorkerFailure]))) =
    [OnResult "task-1" F64.one].
Proof.
  destruct (hook_terminal_message_once (mkHook true {[ "task-1" := mkTask "task-1" true ]})
              "task-1" F64.one worker_error_message
              [Incoming (RESULT "task-1" F64.zero); WorkerFailure]) as [H _].
  - repeat constructor.
  - rewrite H. reflexivity.
Defined.

(** Extra X7.  When the worker fails ([worker.onerror]), every task that is
    registered at that moment receives exactly one [onError] call, with
    the message ["Worker error occurred"], and unregistered ids receive
    none; after that the tasks are forgotten, so nothing more is delivered
    to them until a computation registers their id again. *)
Theorem hook_worker_failure_once (h : hook_state) (id : string) (post : list hook_event) :
  Forall (fun e => registers id e = false) post ->
  List.filter (fun d => String.eqb (delivery_id d) id)
    (snd (hook_run h (WorkerFailure :: post))) =
    (if bool_decide (is_Some (tasks h !! id)) then [OnError id worker_error_message] else []).
Proof.
  intros F. rewrite hook_run_cons. cbn [snd fst hook_step]. rewrite List.filter_app.
  rewrite (filter_delivery_absent id (snd (hook_run _ post)))
    by (apply hook_run_absent; [apply lookup_empty | exact F]).
  rewrite app_nil_r, hook_failure_deliveries_for.
  destruct (tasks h !! id); reflexivity.
Qed.

Lemma hook_worker_failure_once_witness :
  List.filter (fun d => String.eqb (delivery_id d) "task-1")
    (snd (hook_run (mkHook true {[ "task-1" := mkTask "task-1" true ]})
            (WorkerFailure :: [Incoming (ERROR "task-1" "boom"); WorkerFailure]))) =
    [OnError "task-1" worker_error_message].
Proof.
  rewrite (hook_worker_failure_once (mkHook true {[ "task-1" := mkTask "task-1" true ]})
             "task-1" [Incoming (ERROR "task-1" "boom"); WorkerFailure]).
  - reflexivity.
  - repeat constructor.
Defined.

(** Extra X8.  After the hook's cleanup (unmount), no callback of any task
    runs again until the hook is mounted anew: [compute] and [cancel]
    without a worker do nothing, and no task is left to receive worker
    messages or a worker failure. *)
Theorem hook_unmount_silences (h : hook_state) (post : list hook_event) :
  Forall (fun e => e <> Mount) post ->
  snd (hook_run h (Unmount :: post)) = [].
Proof.
  intros F. rewrite hook_run_cons. cbn [snd fst hook_step worker_present tasks].
  assert (G : forall h', worker_present h' = false -> tasks h' = ∅ ->
                snd (hook_run h' post) = []).
  { induction F as [|e post He F IH]; intros h' Hw Ht; [reflexivity|].
    rewrite hook_run_cons. cbn [snd].
    destruct (hook_step_no_mount_idle h' e Hw Ht He) as (Hw1 & Ht1 & Hd1).
    rewrite Hd1, (IH _ Hw1 Ht1). reflexivity. }
  cbn [app]. apply G; reflexivity.
Qed.

Lemma hook_unmount_silences_witness :
  snd (hook_run (mkHook true {[ "task-1" := mkTask "task-1" true ]})
         (Unmount :: [Compute "task-2" true; Incoming (RESULT "task-1" F64.one);
                      WorkerFailure])) = [].
Proof.
  apply hook_unmount_silences. repeat constructor; discriminate.
Defined.

(** ** SimpleQueue as a FIFO queue without duplicates *)

Lemma sq_push_inv (q : SimpleQueue) (x : nat) :
  sq_inv q ->
  sq_inv (SimpleQueue.push q x) /\
  sq_pending (SimpleQueue.push q x) =
    if bool_decide (x ∈ sq_pending q) then sq_pending q else sq_pending q ++ [x].
Proof.
  intros (Hf & Hnd & Hin). unfold SimpleQueue.push.
  destruct (sq_inQueue q x) eqn:E.
  - assert (Hx : x ∈ sq_pending q) by (apply Hin; exact E).
    rewrite bool_decide_eq_true_2 by exact Hx. split; [split; auto|reflexivity].
  - assert (Hx : x ∉ sq_pending q) by (intros Hx; apply Hin in Hx; congruence).
    rewrite bool_decide_eq_false_2 by exact Hx.
    assert (Hp : sq_pending (mkSimpleQueue (sq_data q ++ [x]) (upd (sq_inQueue q) x true)
                               (sq_front q)) = sq_pending q ++ [x]).
    { unfold sq_pending. cbn [sq_data sq_front]. apply drop_app_le. exact Hf. }
    split; [|exact Hp].
    split; [cbn [sq_data sq_front]; rewrite length_app; lia|].
    rewrite Hp. split.
    + apply NoDup_app. split; [exact Hnd|]. split; [|apply NoDup_singleton].
      intros y Hy Hy'. apply list_elem_of_singleton in Hy'. subst y. contradiction.
    + intros y. cbn [sq_inQueue]. unfold upd. rewrite elem_of_app, list_elem_of_singleton.
      destruct (Nat.eqb y x) eqn:Ey.
      * apply Nat.eqb_eq in Ey. subst y. tauto.
      * apply Nat.eqb_neq in Ey. rewrite Hin. tauto.
Qed.

Lemma sq_empty_iff (q : SimpleQueue) :
  sq_inv q -> SimpleQueue.empty q = true <-> sq_pending q = [].
Proof.
  intros (Hf & _ & _). unfold SimpleQueue.empty, sq_pending.
  symmetry. apply drop_nil_iff. exact Hf.
Qed.

Lemma sq_pop_inv (q : SimpleQueue) (u : nat) (rest : list nat) :
  sq_inv q -> sq_pending q = u :: rest ->
  fst (SimpleQueue.pop q) = u /\ sq_inv (snd (SimpleQueue.pop q)) /\
  sq_pending (snd (SimpleQueue.pop q)) = rest.
Proof.
  intros (Hf & Hnd & Hin) Hq.
  pose proof Hq as Hq'. unfold sq_pending in Hq'.
  apply drop_cons_inv in Hq' as (Hu & Hrest & Hlt).
  unfold SimpleQueue.pop. cbn [fst snd]. rewrite Hu.
  assert (Hp : sq_pending (mkSimpleQueue (sq_data q) (upd (sq_inQueue q) u false)
                             (S (sq_front q))) = rest) by exact Hrest.
  rewrite Hq in Hnd. apply NoDup_cons in Hnd as [Hnu Hnd].
  split; [reflexivity|]. split; [|exact Hp].
  split; [cbn [sq_data sq_front]; lia|]. rewrite Hp. split; [exact Hnd|].
  intros y. cbn [sq_inQueue]. unfold upd.
  destruct (Nat.eqb y u) eqn:Ey.
  - apply Nat.eqb_eq in Ey. subst y. split; [discriminate|contradiction].
  - apply Nat.eqb_neq in Ey. rewrite Hin, Hq, elem_of_cons. tauto.
Qed.

(** Extra X9.  [SimpleQueue] behaves as a first-in first-out queue of the
    nodes between [front] and the end of [data], which never holds a
    node twice: [create]/[clear] give the empty queue, [push] appends a
    node unless it is already waiting, [empty] tells whether nothing
    waits, and [pop] on a nonempty queue returns the oldest node and
    removes it.  The invariant linking [inQueue] to the waiting nodes is
    kept by every operation. *)
Theorem SimpleQueue_refines_fifo (q : SimpleQueue) (x : nat) :
  sq_inv q ->
  (sq_inv (SimpleQueue.clear q) /\ sq_pending (SimpleQueue.clear q) = []) /\
  (sq_inv (SimpleQueue.push q x) /\
   sq_pending (SimpleQueue.push q x) =
     if bool_decide (x ∈ sq_pending q) then sq_pending q else sq_pending q ++ [x]) /\
  (SimpleQueue.empty q = true <-> sq_pending q = []) /\
  (forall u rest, sq_pending q = u :: rest ->
     fst (SimpleQueue.pop q) = u /\ sq_inv (snd (SimpleQueue.pop q)) /\
     sq_pending (snd (SimpleQueue.pop q)) = rest).
Proof.
  intros Hi. split; [|split; [|split]].
  - split; [|reflexivity]. split; [simpl; lia|]. split; [constructor|].
    intros y. simpl. split; [discriminate|]. intros Hy. apply elem_of_nil in Hy. contradiction.
  - apply sq_push_inv. exact Hi.
  - apply sq_empty_iff. exact Hi.
  - intros u rest. apply sq_pop_inv. exact Hi.
Qed.

Lemma SimpleQueue_refines_fifo_witness :
  sq_pending (SimpleQueue.push (SimpleQueue.push SimpleQueue.create 3) 3) = [3%nat].
Proof.
  assert (H0 : sq_inv SimpleQueue.create).
  { split; [simpl; lia|]. split; [constructor|].
    intros y. simpl. split; [discriminate|]. intros Hy. apply elem_of_nil in Hy. contradiction. }
  destruct (SimpleQueue_refines_fifo SimpleQueue.create 3 H0) as (_ & [H1 E1] & _).
  destruct (SimpleQueue_refines_fifo (SimpleQueue.push SimpleQueue.create 3) 3 H1)
    as (_ & [_ E2] & _).
  rewrite E2, E1. reflexivity.
Defined.

Lemma SFltb_trans (x y z : spec_float) :
  SFltb x y = true -> SFltb y z = true -> SFltb x z = true.
Proof.
  unfold SFltb.
  destruct x as [[]|[]| |[] mx ex], y as [[]|[]| |[] my ey], z as [[]|[]| |[] mz ez];
    cbn -[Z.compare Pos.compare_cont]; try discriminate; try reflexivity;
    change (Pos.compare_cont Eq mx my) with (Pos.compare mx my) in *;
    change (Pos.compare_cont Eq my mz) with (Pos.compare my mz) in *;
    change (Pos.compare_cont Eq mx mz) with (Pos.compare mx mz) in *;
    destruct (Z.compare_spec ex ey), (Z.compare_spec ey ez), (Z.compare_spec ex ez);
    try lia; subst; try discriminate; try reflexivity;
    destruct (Pos.compare_spec mx my), (Pos.compare_spec my mz), (Pos.compare_spec mx mz);
    cbn; try discriminate; try reflexivity; lia.
Qed.

Lemma parse_line_inr (st st' : parse_state) (l : list ascii) :
  parse_line st l = inr st' ->
  (p_edges st' = p_edges st /\ minNodeId st' = minNodeId st /\
   maxNodeId st' = maxNodeId st) \/
  (exists a b, 0 <= a /\ 0 <= b /\
     p_edges st' = p_edges st ++ [mkParsedEdge a b] ++
                   (if a =? b then [] else [mkParsedEdge b a]) /\
     minNodeId st' = zmin (minNodeId st) a b /\ maxNodeId st' = zmax (maxNodeId st) a b).
Proof.
  unfold parse_line. destruct l as [|c rest].
  { intros [= <-]. left. auto. }
  cbn [firstDataLineProcessed p_edges minNodeId maxNodeId declaredNodeCount declaredEdgeCount].
  destruct (Ascii.eqb c "#"%char).
  { intros [= <-]. left. auto. }
  destruct (if negb (firstDataLineProcessed st) && _ then _ else None) as [[f s]|].
  { intros [= <-]. left. auto. }
  destruct (negb _); [discriminate|].
  destruct (parseInt (nth 0 _ [])) as [a|]; [|discriminate].
  destruct (parseInt (nth 1 _ [])) as [b|]; [|discriminate].
  destruct ((a <? 0) || (b <? 0)) eqn:Hn; [discriminate|].
  intros [= <-]. right. exists a, b.
  apply orb_false_iff in Hn as [Ha Hb]. apply Z.ltb_ge in Ha, Hb.
  cbn [p_edges minNodeId maxNodeId]. auto.
Qed.

Lemma parse_line_inv (st st' : parse_state) (l : list ascii) :
  parse_inv st -> parse_line st l = inr st' -> parse_inv st'.
Proof.
  unfold parse_inv. intros [Hsym Hr] H. apply parse_line_inr in H as [(-> & -> & ->) | (a & b & Ha & Hb & He & Hmn & Hmx)].
  { split; assumption. }
  rewrite He, Hmn, Hmx. split.
  - intros e Hin. rewrite !in_app_iff in Hin |- *.
    destruct Hin as [Hin | [Hin | Hin]].
    + left. apply Hsym. exact Hin.
    + destruct Hin as [<- | []]. cbn [pe_source pe_target].
      destruct (Z.eqb_spec a b) as [<- | Hne].
      * right. left. left. reflexivity.
      * right. right. left. reflexivity.
    + destruct (Z.eqb_spec a b); [destruct Hin|].
      destruct Hin as [<- | []]. right. left. left. reflexivity.
  - right. unfold zmin, zmax.
    assert (Hnew : Forall (fun e => Z.min a b <= pe_source e <= Z.max a b /\
                                    Z.min a b <= pe_target e <= Z.max a b)
                     ([mkParsedEdge a b] ++ (if a =? b then [] else [mkParsedEdge b a]))).
    { destruct (a =? b); repeat constructor; cbn; lia. }
    assert (Hex : Exists (fun e => pe_source e = Z.max a b)
                    ([mkParsedEdge a b] ++ (if a =? b then [] else [mkParsedEdge b a]))).
    { destruct (Z.eqb_spec a b) as [<- | Hne].
      - apply Exists_cons_hd. cbn. lia.
      - destruct (Z.max_spec a b) as [[_ ->] | [_ ->]].
        + apply Exists_cons_tl. apply Exists_cons_hd. reflexivity.
        + apply Exists_cons_hd. reflexivity. }
    destruct Hr as [(-> & -> & ->) | (mn & mx & -> & -> & Hmn0 & Hall & Hmxw)].
    + exists (Z.min a b), (Z.max a b). split; [reflexivity|]. split; [reflexivity|].
      split; [lia|]. split; [exact Hnew | exact Hex].
    + exists (Z.min mn (Z.min a b)), (Z.max mx (Z.max a b)).
      split; [reflexivity|]. split; [reflexivity|]. split; [lia|]. split.
      * apply Forall_app. split.
        -- eapply Forall_impl; [exact Hall|]. intros e. cbn. lia.
        -- eapply Forall_impl; [exact Hnew|]. intros e. cbn. lia.
      * destruct (Z.max_spec mx (Z.max a b)) as [[_ ->] | [_ ->]].
        -- apply Exists_app. right. exact Hex.
        -- apply Exists_app. left. exact Hmxw.
Qed.

Lemma parse_lines_inv (ls : list (list ascii)) :
  forall st st', parse_inv st -> parse_lines st ls = inr st' -> parse_inv st'.
Proof.
  induction ls as [|l ls IH]; intros st st' Hi H; simpl in H.
  - injection H as <-. exact Hi.
  - destruct (parse_line st l) as [e|st1] eqn:E; [discriminate|].
    exact (IH st1 st' (parse_line_inv st st1 l Hi E) H).
Qed.

Lemma parseEdgeList_wellformed (content : list ascii) (g : ParsedGraph) :
  parseEdgeList content = inr g ->
  pg_edges g <> [] /\ 1 <= pg_nodes g /\ pg_isDirected g = false /\
  Forall (fun e => 0 <= pe_source e < pg_nodes g /\ 0 <= pe_target e < pg_nodes g)
    (pg_edges g) /\
  (forall e, In e (pg_edges g) ->
     In (mkParsedEdge (pe_target e) (pe_source e)) (pg_edges g)) /\
  Exists (fun e => pe_source e = pg_nodes g - 1) (pg_edges g) /\
  pg_originalMaxNodeId g = (if pg_wasOneBased g then pg_nodes g else pg_nodes g - 1).
Proof.
  unfold parseEdgeList.
  destruct (parse_lines parse_init (map trim (split_lines content))) as [e|st] eqn:Ep;
    [discriminate|].
  assert (Hi : parse_inv st).
  { apply (parse_lines_inv (map trim (split_lines content)) parse_init st); [|exact Ep].
    split; [intros e []|]. left. auto. }
  destruct Hi as [Hsym [(He & _ & _) | (mn & mx & Hmn & Hmx & Hmn0 & Hall & Hex)]].
  { rewrite He. discriminate. }
  destruct (p_edges st) as [|e0 es0] eqn:Ees; [inversion Hex|].
  rewrite <- Ees in *. intros H. injection H as <-. cbn.
  rewrite Hmn, Hmx.
  assert (Hne : p_edges st <> []) by (rewrite Ees; discriminate).
  destruct (bool_decide (Some mn = Some 1)) eqn:Eb.
  - apply bool_decide_eq_true in Eb. injection Eb as ->.
    assert (Hm1 : 1 <= mx).
    { destruct (p_edges st) as [|e1 l1]; [contradiction|]. inversion Hall; lia. }
    split; [destruct (p_edges st); [contradiction | discriminate]|].
    split; [lia|]. split; [reflexivity|]. split.
    + apply Forall_map. eapply Forall_impl; [exact Hall|]. intros e. cbn. lia.
    + split.
      * intros e Hin. apply in_map_iff in Hin as [e' [<- Hin']].
        apply in_map_iff. exists (mkParsedEdge (pe_target e') (pe_source e')).
        split; [reflexivity|]. apply Hsym. exact Hin'.
      * split; [|lia]. apply Exists_map. eapply Exists_impl; [exact Hex|].
        intros e. cbn. lia.
  - split; [exact Hne|]. split.
    { destruct (p_edges st) as [|e1 l1]; [contradiction|]. inversion Hall; lia. }
    split; [reflexivity|]. split.
    + eapply Forall_impl; [exact Hall|]. intros e. cbn. lia.
    + split; [exact Hsym|]. split; [|lia].
      eapply Exists_impl; [exact Hex|]. intros e. cbn. lia.
Qed.

(** ** computeDegree *)

Lemma js_incr_length (a : list (option num)) (k : Z) :
  (length a <= length (js_incr a k))%nat /\
  (k < Z.of_nat (length a) -> length (js_incr a k) = length a).
Proof.
  unfold js_incr. destruct (k <? 0) eqn:Hk; [split; [lia | reflexivity]|].
  apply Z.ltb_ge in Hk.
  destruct (Z.to_nat k <? length a)%nat eqn:Hi.
  - rewrite length_insert. split; [lia | reflexivity].
  - apply Nat.ltb_ge in Hi. rewrite !length_app, length_replicate. simpl. split; lia.
Qed.

Lemma js_incr_lookup (a : list (option num)) (k : Z) (u : nat) :
  (u < length a)%nat ->
  js_incr a k !! u =
    if Z.eqb k (Z.of_nat u) then Some (Some (F64.add (js_read a u) F64.one)) else a !! u.
Proof.
  intros Hu. unfold js_incr.
  destruct (Z.eqb_spec k (Z.of_nat u)) as [-> | Hne].
  - replace (Z.of_nat u <? 0) with false by (symmetry; apply Z.ltb_ge; lia).
    rewrite Nat2Z.id. replace (u <? length a)%nat with true by (symmetry; apply Nat.ltb_lt; lia).
    apply list_lookup_insert_eq. exact Hu.
  - destruct (k <? 0) eqn:Hk; [reflexivity|]. apply Z.ltb_ge in Hk.
    destruct (Z.to_nat k <? length a)%nat.
    + apply list_lookup_insert_ne. lia.
    + apply lookup_app_l. exact Hu.
Qed.

Lemma degree_fold_length (es : list ParsedEdge) :
  forall (a : list (option num)),
  (length a <= length (fold_left (fun d e => js_incr d (pe_source e)) es a))%nat /\
  (Forall (fun e => pe_source e < Z.of_nat (length a)) es ->
   length (fold_left (fun d e => js_incr d (pe_source e)) es a) = length a).
Proof.
  induction es as [|e es IH]; intros a; simpl; [auto|].
  destruct (js_incr_length a (pe_source e)) as [Hle Heq].
  destruct (IH (js_incr a (pe_source e))) as [H2 H3].
  split; [lia|]. intros F. inversion F as [|? ? He F'].
  rewrite H3; [apply Heq; exact He|]. rewrite (Heq He). exact F'.
Qed.

Lemma degree_fold (es : list ParsedEdge) :
  forall (a : list (option num)) (u : nat) (x : num),
  a !! u = Some (Some x) ->
  fold_left (fun d e => js_incr d (pe_source e)) es a !! u =
    Some (Some (Nat.iter (length (List.filter (fun e => pe_source e =? Z.of_nat u) es))
                  (fun y => F64.add y F64.one) x)).
Proof.
  induction es as [|e es IH]; intros a u x Hx; simpl; [exact Hx|].
  assert (Hu : (u < length a)%nat) by (apply lookup_lt_is_Some; rewrite Hx; eauto).
  pose proof (js_incr_lookup a (pe_source e) u Hu) as Hl.
  unfold js_read in Hl. rewrite Hx in Hl.
  destruct (pe_source e =? Z.of_nat u).
  - rewrite (IH _ u _ Hl). simpl length. rewrite Nat.iter_succ_r. reflexivity.
  - exact (IH _ u _ Hl).
Qed.

(** Extra X10.  For a node count that is a valid array length, [computeDegree]
    returns the array whose entry [u], for every node [u], is the number
    of edges with source [u] (obtained by repeated [+1] from 0); edges
    whose source is past the end lengthen the array instead of throwing,
    so the array has exactly [graph.nodes] entries when every source is a
    node id. *)
Theorem computeDegree_counts (g : ParsedGraph) :
  valid_array_length (pg_nodes g) = true ->
  exists degree, computeDegree g = inr degree /\
    (Z.to_nat (pg_nodes g) <= length degree)%nat /\
    (Forall (fun e => pe_source e < pg_nodes g) (pg_edges g) ->
       length degree = Z.to_nat (pg_nodes g)) /\
    forall u, (u < Z.to_nat (pg_nodes g))%nat ->
      degree !! u =
        Some (Some (count_up (length (List.filter (fun e => pe_source e =? Z.of_nat u)
                                        (pg_edges g))))).
Proof.
  intros Hv. unfold computeDegree. rewrite Hv.
  eexists. split; [reflexivity|].
  assert (Hn : 0 <= pg_nodes g) by (apply andb_true_iff in Hv as [H _]; lia).
  destruct (degree_fold_length (pg_edges g) (replicate (Z.to_nat (pg_nodes g)) (Some F64.zero)))
    as [H2 H3].
  rewrite length_replicate in H2, H3.
  split; [exact H2|]. split.
  - intros F. apply H3. rewrite Z2Nat.id by exact Hn. exact F.
  - intros u Hu.
    assert (Hz : replicate (Z.to_nat (pg_nodes g)) (Some F64.zero) !! u = Some (Some F64.zero))
      by (apply lookup_replicate_2; exact Hu).
    exact (degree_fold (pg_edges g) _ u F64.zero Hz).
Qed.

(** ** buildAdjacencyList *)

Local Abbreviation adj_push := (fun (acc : exn + list (list Z)) (e : ParsedEdge) =>
      match acc with
      | inl err => inl err
      | inr adj =>
          if (0 <=? pe_source e) && (pe_source e <? Z.of_nat (length adj)) then
            let i := Z.to_nat (pe_source e) in
            inr (<[i := match adj !! i with Some l => l | None => [] end
                        ++ [pe_target e]]> adj)
          else inl (EType push_of_undefined)
      end).

Lemma adj_fold_inl (es : list ParsedEdge) (err : exn) :
  fold_left adj_push es (inl err) = inl err.
Proof. induction es as [|e es IH]; [reflexivity|]. exact IH. Qed.

Lemma adj_fold_ok (es : list ParsedEdge) :
  forall adj : list (list Z),
  Forall (fun e => 0 <= pe_source e < Z.of_nat (length adj)) es ->
  exists adj', fold_left adj_push es (inr adj) = inr adj' /\
    length adj' = length adj /\
    forall u l, adj !! u = Some l ->
      adj' !! u = Some (l ++ map pe_target
                              (List.filter (fun e => pe_source e =? Z.of_nat u) es)).
Proof.
  induction es as [|e es IH]; intros adj F.
  - exists adj. split; [reflexivity|]. split; [reflexivity|].
    intros u l Hl. rewrite app_nil_r. exact Hl.
  - inversion F as [|? ? He F']. subst.
    cbn [fold_left].
    replace ((0 <=? pe_source e) && (pe_source e <? Z.of_nat (length adj))) with true
      by (symmetry; apply andb_true_iff; split; lia).
    set (i := Z.to_nat (pe_source e)).
    set (adj1 := <[i := match adj !! i with Some l => l | None => [] end ++ [pe_target e]]> adj).
    assert (Hlen : length adj1 = length adj) by apply length_insert.
    destruct (IH adj1) as (adj' & E & Hl' & Hlk); [rewrite Hlen; exact F'|].
    exists adj'. split; [exact E|]. split; [lia|].
    intros u l Hl. cbn [List.filter].
    destruct (Z.eqb_spec (pe_source e) (Z.of_nat u)) as [Hs | Hs].
    + assert (Hi : i = u) by (unfold i; rewrite Hs; apply Nat2Z.id).
      rewrite (Hlk u (l ++ [pe_target e])).
      * cbn [map]. rewrite <- app_assoc. reflexivity.
      * unfold adj1. rewrite Hi, Hl. apply list_lookup_insert_eq.
        apply lookup_lt_is_Some. rewrite Hl. eauto.
    + apply Hlk. unfold adj1. rewrite list_lookup_insert_ne; [exact Hl|].
      unfold i. lia.
Qed.

Lemma adj_fold_bad (es : list ParsedEdge) :
  forall adj : list (list Z),
  Exists (fun e => ~ (0 <= pe_source e < Z.of_nat (length adj))) es ->
  fold_left adj_push es (inr adj) = inl (EType push_of_undefined).
Proof.
  induction es as [|e es IH]; intros adj Hx; [inversion Hx|].
  cbn [fold_left].
  destruct ((0 <=? pe_source e) && (pe_source e <? Z.of_nat (length adj))) eqn:Hin.
  - apply andb_true_iff in Hin as [H1 H2]. apply Z.leb_le in H1. apply Z.ltb_lt in H2.
    inversion Hx as [? ? Hbad | ? ? Hx']; subst; [lia|].
    apply IH. rewrite length_insert. exact Hx'.
  - apply adj_fold_inl.
Qed.

(** Extra X11.  For fewer than 2^32 nodes, [buildAdjacencyList] succeeds
    exactly when every edge's source is a node id: it then returns one
    list per node, listing the targets of the edges leaving that node in
    the order of [graph.edges]; an edge whose source is not a node id
    makes it throw the [TypeError] of calling [push] on [undefined]. *)
Theorem buildAdjacencyList_spec (g : ParsedGraph) :
  pg_nodes g < 2 ^ 32 ->
  (Forall (fun e => 0 <= pe_source e < pg_nodes g) (pg_edges g) ->
   exists adj, buildAdjacencyList g = inr adj /\ length adj = Z.to_nat (pg_nodes g) /\
     forall u, (u < Z.to_nat (pg_nodes g))%nat ->
       adj !! u = Some (map pe_target
                          (List.filter (fun e => pe_source e =? Z.of_nat u) (pg_edges g)))) /\
  (Exists (fun e => ~ (0 <= pe_source e < pg_nodes g)) (pg_edges g) ->
   buildAdjacencyList g = inl (EType push_of_undefined)).
Proof.
  intros Hn. unfold buildAdjacencyList.
  replace (2 ^ 32 <=? pg_nodes g) with false by (symmetry; apply Z.leb_gt; lia).
  split.
  - intros F.
    assert (Hp : 0 <= pg_nodes g \/ pg_edges g = []).
    { destruct (pg_edges g) as [|e es]; [right; reflexivity|left]. inversion F. lia. }
    destruct (adj_fold_ok (pg_edges g) (replicate (Z.to_nat (pg_nodes g)) []))
      as (adj & E & Hl & Hlk).
    { rewrite length_replicate. destruct Hp as [Hp | ->]; [|constructor].
      rewrite Z2Nat.id by exact Hp. exact F. }
    exists adj. split; [exact E|]. rewrite length_replicate in Hl. split; [exact Hl|].
    intros u Hu. apply (Hlk u []). apply lookup_replicate_2. exact Hu.
  - intros Hx. apply adj_fold_bad. rewrite length_replicate.
    eapply Exists_impl; [exact Hx|]. intros e He. cbn beta in He |- *.
    destruct (Z.le_gt_cases 0 (pg_nodes g)).
    + rewrite Z2Nat.id by assumption. exact He.
    + rewrite Z2Nat.nonpos by lia. lia.
Qed.

Lemma buildAdjacencyList_spec_witness :
  buildAdjacencyList sample_graph = inr [[1]; [0; 2]; [1]].
Proof.
  destruct (buildAdjacencyList_spec sample_graph ltac:(vm_compute; reflexivity)) as [H _].
  destruct H as (adj & E & Hl & Hlk).
  - repeat constructor; cbn; lia.
  - rewrite E. f_equal.
    cbn in Hl. do 4 (destruct adj as [|? adj]; try discriminate).
    f_equal; [injection (Hlk 0%nat ltac:(vm_compute; lia)); auto|].
    f_equal; [injection (Hlk 1%nat ltac:(vm_compute; lia)); auto|].
    f_equal. injection (Hlk 2%nat ltac:(vm_compute; lia)); auto.
Defined.

(** ** findMaxDegreeNode *)

Lemma SFltb_irrefl (x : spec_float) : SFltb x x = false.
Proof.
  unfold SFltb. destruct x as [[]|[]| |[] mx ex]; cbn -[Z.compare Pos.compare_cont];
    try reflexivity; rewrite Z.compare_refl;
    change (Pos.compare_cont Eq mx mx) with (Pos.compare mx mx); rewrite Pos.compare_refl;
    reflexivity.
Qed.

Lemma max_degree_loop_max (degree : list (option num)) (k : nat) :
  forall i m,
  (m < i)%nat ->
  (forall j, (j < i)%nat -> F64.ltb (js_read degree m) (js_read degree j) = false) ->
  let r := max_degree_loop degree i k m (js_read degree m) in
  (r < i + k)%nat /\
  forall j, (j < i + k)%nat -> F64.ltb (js_read degree r) (js_read degree j) = false.
Proof.
  induction k as [|k IH]; intros i m Hm Hmax; cbn zeta; simpl max_degree_loop.
  - rewrite Nat.add_0_r. auto.
  - replace (i + S k)%nat with (S i + k)%nat by lia.
    destruct (F64.ltb (js_read degree m) (js_read degree i)) eqn:Hlt.
    + apply IH; [lia|]. intros j Hj.
      destruct (Nat.eq_dec j i) as [-> | Hne].
      * apply SFltb_irrefl.
      * destruct (F64.ltb (js_read degree i) (js_read degree j)) eqn:Hij; [|reflexivity].
        rewrite <- (Hmax j ltac:(lia)). symmetry.
        exact (SFltb_trans _ _ _ Hlt Hij).
    + apply IH; [lia|]. intros j Hj.
      destruct (Nat.eq_dec j i) as [-> | Hne]; [exact Hlt|]. apply Hmax. lia.
Qed.

(** Extra X12.  On a graph with at least one node and a valid node count,
    [findMaxDegreeNode] returns a node id whose degree no node's degree
    exceeds (by JavaScript's [>]), computed on the degree array of
    [computeDegree]. *)
Theorem findMaxDegreeNode_max (g : ParsedGraph) (r : nat) :
  0 < pg_nodes g -> findMaxDegreeNode g = inr r ->
  exists degree, computeDegree g = inr degree /\ (r < Z.to_nat (pg_nodes g))%nat /\
    forall j, (j < Z.to_nat (pg_nodes g))%nat ->
      F64.ltb (js_read degree r) (js_read degree j) = false.
Proof.
  intros Hn. unfold findMaxDegreeNode.
  destruct (computeDegree g) as [err|degree] eqn:E; [discriminate|].
  intros [= <-]. exists degree. split; [reflexivity|].
  destruct (max_degree_loop_max degree (Z.to_nat (pg_nodes g) - 1) 1 0 ltac:(lia))
    as [H1 H2].
  { intros j Hj. replace j with 0%nat by lia. apply SFltb_irrefl. }
  replace (1 + (Z.to_nat (pg_nodes g) - 1))%nat with (Z.to_nat (pg_nodes g)) in H1, H2 by lia.
  split; [exact H1 | exact H2].
Qed.

Lemma findMaxDegreeNode_max_witness :
  findMaxDegreeNode sample_graph = inr 1%nat /\ (1 < 3)%nat.
Proof.
  assert (E : findMaxDegreeNode sample_graph = inr 1%nat) by (vm_compute; reflexivity).
  split; [exact E|].
  destruct (findMaxDegreeNode_max sample_graph 1 ltac:(vm_compute; reflexivity) E)
    as (_ & _ & H & _).
  exact H.
Defined.

(** ** loadFromFile *)

(** Extra X13.  A file within the size limit whose text [parseEdgeList]
    accepts is loaded as that graph: [validateGraph] never rejects what
    the parser returns, except a node count of 2^32 or more, for which
    [computeDegree] throws a [RangeError]. *)
Theorem loadFromFile_parsed (size : Z) (content : list ascii) (g : ParsedGraph) :
  size <= MAX_SIZE -> parseEdgeList content = inr g ->
  loadFromFile size content =
    if pg_nodes g <? 2 ^ 32 then inr g else inl (ERange invalid_array_length).
Proof.
  intros Hs Hp. unfold loadFromFile.
  replace (MAX_SIZE <? size) with false by (symmetry; apply Z.ltb_ge; exact Hs).
  rewrite Hp.
  destruct (parseEdgeList_wellformed content g Hp) as (He & Hn & _).
  unfold validateGraph, computeDegree, valid_array_length.
  replace (pg_nodes g <=? 0) with false by (symmetry; apply Z.leb_gt; lia).
  destruct (pg_edges g) as [|e es]; [contradiction|].
  replace (0 <=? pg_nodes g) with true by (symmetry; apply Z.leb_le; lia).
  destruct (pg_nodes g <? 2 ^ 32); reflexivity.
Qed.

Lemma loadFromFile_parsed_witness :
  loadFromFile 30 sample_file = inr sample_graph.
Proof.
  rewrite (loadFromFile_parsed 30 sample_file sample_graph).
  - reflexivity.
  - vm_compute. discriminate.
  - vm_compute. reflexivity.
Defined.

(** ** Line numbers do not matter to what is parsed *)




Lemma same_but_ln_sym (st st' : parse_state) : same_but_ln st st' -> same_but_ln st' st.
Proof. unfold same_but_ln. auto. Qed.




(** ** What the worker posts *)

Section ProgressOnly.
Variable id : string.

Lemma po_ret {A} (a : A) : progress_only id (ret a).
Proof. intros w. exists []. rewrite app_nil_r. auto. Qed.

Lemma po_throw {A} (e : string) : progress_only id (@throw A e).
Proof. intros w. exists []. rewrite app_nil_r. auto. Qed.

Lemma po_out_of_fuel {A} : progress_only id (@out_of_fuel A).
Proof. intros w. exists []. rewrite app_nil_r. auto. Qed.

Lemma po_bind {A B} (m : M A) (k : A -> M B) :
  progress_only id m -> (forall a, progress_only id (k a)) -> progress_only id (bind m k).
Proof.
  intros Hm Hk w. unfold bind. destruct (Hm w) as (ps1 & E1 & F1).
  destruct (m w) as [[a|e|] w1]; cbn [snd] in E1 |- *.
  - destruct (Hk a w1) as (ps2 & E2 & F2). exists (ps1 ++ ps2).
    rewrite E2, E1, app_assoc. split; [reflexivity|]. apply Forall_app. auto.
  - exists ps1. auto.
  - exists ps1. auto.
Qed.

Lemma po_try_catch {A} (m : M A) (h : string -> M A) :
  progress_only id m -> (forall e, progress_only id (h e)) ->
  progress_only id (try_catch m h).
Proof.
  intros Hm Hh w. unfold try_catch. destruct (Hm w) as (ps1 & E1 & F1).
  destruct (m w) as [[a|e|] w1]; cbn [snd] in E1 |- *.
  - exists ps1. auto.
  - destruct (Hh e w1) as (ps2 & E2 & F2). exists (ps1 ++ ps2).
    rewrite E2, E1, app_assoc. split; [reflexivity|]. apply Forall_app. auto.
  - exists ps1. auto.
Qed.

Lemma po_post_progress (p : num) : progress_only id (post_progress id p).
Proof.
  intros w. exists [PROGRESS id p]. split; [reflexivity|].
  repeat constructor. eexists. reflexivity.
Qed.

Lemma po_Math_random (rnd : nat -> Q) : progress_only id (Math_random rnd).
Proof. intros w. exists []. rewrite app_nil_r. auto. Qed.

Lemma po_c_srand (s : Z) : progress_only id (c_srand s).
Proof. intros w. exists []. rewrite app_nil_r. auto. Qed.

Lemma po_c_rand : progress_only id c_rand.
Proof. intros w. exists []. rewrite app_nil_r. auto. Qed.

Lemma po_post_all (l : list num) : progress_only id (post_all id l).
Proof.
  induction l as [|p l IH]; simpl; cbv [mret M_ret mbind M_bind].
  - apply po_ret.
  - apply po_bind; [apply po_post_progress | intros _; exact IH].
Qed.

Lemma po_randNeighbor rnd n adj u : progress_only id (randNeighbor rnd n adj u).
Proof.
  unfold randNeighbor. cbv [mbind M_bind].
  apply po_bind; [apply po_Math_random|]. intros r.
  destruct u as [k|]; [destruct (Nat.ltb k n)|]; auto using po_ret, po_throw.
Qed.

Lemma po_walk_js rnd n adj v fuel a b u ca cb :
  progress_only id (walk_js rnd n adj v fuel a b u ca cb).
Proof.
  revert u ca cb. induction fuel as [|fuel IH]; intros u ca cb; simpl.
  - apply po_out_of_fuel.
  - destruct (decide (u = Some v)); [apply po_ret|]. cbv [mbind M_bind].
    apply po_bind; [apply po_randNeighbor | intros; apply IH].
Qed.

Lemma po_walks_js rnd n adj s t v times fuel start second :
  forall k i ca cb,
  progress_only id
    (walks_js rnd n adj s t v times (post_progress id) fuel start second i k ca cb).
Proof.
  induction k as [|k IH]; intros i ca cb; simpl; cbv [mret M_ret mbind M_bind].
  - apply po_ret.
  - apply po_bind; [apply po_walk_js|]. intros [ca' cb'].
    apply po_bind; [|intros _; apply IH].
    destruct (report_now times i); [apply po_post_progress | apply po_ret].
Qed.

Lemma po_walk_cpp adj s t v fuel u ca cb : progress_only id (walk_cpp adj s t v fuel u ca cb).
Proof.
  revert u ca cb. induction fuel as [|fuel IH]; intros u ca cb; simpl.
  - apply po_out_of_fuel.
  - destruct (Nat.eqb u v); [apply po_ret|]. cbv [mbind M_bind].
    apply po_bind; [apply po_c_rand|]. intros r.
    destruct (Nat.eqb (length (adj u)) 0); [apply po_throw | apply IH].
Qed.

Lemma po_walks_cpp adj s t v fuel start :
  forall k ca cb, progress_only id (walks_cpp adj s t v fuel start k ca cb).
Proof.
  induction k as [|k IH]; intros ca cb; simpl; cbv [mbind M_bind].
  - apply po_ret.
  - apply po_bind; [apply po_walk_cpp|]. intros [ca' cb']. apply IH.
Qed.

Lemma po_abwalkVSpJS rnd fuel g prm :
  progress_only id (abwalkVSpJS rnd fuel g prm (post_progress id)).
Proof.
  unfold abwalkVSpJS. cbv [mbind M_bind].
  apply po_bind; [apply po_walks_js|]. intros [a b].
  apply po_bind; [apply po_walks_js|]. intros [c d]. apply po_ret.
Qed.

Lemma po_abwalkVSp fuel g s t v times seed :
  progress_only id (abwalkVSp fuel g s t v times seed).
Proof.
  unfold abwalkVSp. cbv [mbind M_bind].
  apply po_bind; [apply po_c_srand|]. intros _.
  apply po_bind; [apply po_walks_cpp|]. intros [a b].
  apply po_bind; [apply po_walks_cpp|]. intros [c d]. apply po_ret.
Qed.
End ProgressOnly.

Lemma po_executePushVSpJS fuel msg : progress_only (taskId msg) (executePushVSpJS fuel msg).
Proof.
  unfold executePushVSpJS. destruct (pushVSpJS _ _ _) as [[r reps]|]; [|apply po_out_of_fuel].
  cbv [mbind M_bind mret M_ret]. apply po_bind; [apply po_post_all | intros _; apply po_ret].
Qed.

Lemma po_executeAbwalkVSpJS rnd fuel msg :
  progress_only (taskId msg) (executeAbwalkVSpJS rnd fuel msg).
Proof. apply po_abwalkVSpJS. Qed.

Lemma po_executePushVSpWASM fuel wl msg :
  progress_only (taskId msg) (executePushVSpWASM fuel wl msg).
Proof.
  unfold executePushVSpWASM. apply po_try_catch; [|intros _; apply po_executePushVSpJS].
  destruct wl; [|apply po_throw]. cbv [mbind M_bind mret M_ret].
  apply po_bind; [apply po_post_progress|]. intros _.
  destruct (pushVSp _ _ _ _ _ _); [apply po_ret | apply po_out_of_fuel].
Qed.

Lemma po_executeAbwalkVSpWASM rnd fuel wl msg :
  progress_only (taskId msg) (executeAbwalkVSpWASM rnd fuel wl msg).
Proof.
  unfold executeAbwalkVSpWASM. apply po_try_catch; [|intros _; apply po_executeAbwalkVSpJS].
  destruct wl; [|apply po_throw]. cbv [mbind M_bind].
  apply po_bind; [apply po_Math_random|]. intros r.
  apply po_bind; [apply po_post_progress|]. intros _. apply po_abwalkVSp.
Qed.

(** Extra X15.  Whatever the algorithm, the graph, the random values and the
    fuel, [handleCompute] never lets an exception escape and posts only
    messages tagged with its task id: some [PROGRESS] messages, then, unless
    a loop runs forever, exactly one terminal message ([RESULT] or
    [ERROR]), which is the last one it posts. *)
Theorem handleCompute_message_shape (rnd : nat -> Q) (fuel : nat) (wasm_loaded : bool)
    (msg : ComputePayload) (w : world) :
  exists ps, Forall (is_progress_for (taskId msg)) ps /\
    ((fst (handleCompute rnd fuel wasm_loaded msg w) = OutOfFuel /\
      posted (snd (handleCompute rnd fuel wasm_loaded msg w)) = posted w ++ ps) \/
     (fst (handleCompute rnd fuel wasm_loaded msg w) = Done tt /\
      exists term, is_terminal_for (taskId msg) term /\
        posted (snd (handleCompute rnd fuel wasm_loaded msg w)) = posted w ++ ps ++ [term])).
Proof.
  set (D := match algorithm msg with
            | push_v_sp_wasm => executePushVSpWASM fuel wasm_loaded msg
            | abwalk_v_sp_wasm => executeAbwalkVSpWASM rnd fuel wasm_loaded msg
            | push_v_sp_js => executePushVSpJS fuel msg
            | abwalk_v_sp_js => executeAbwalkVSpJS rnd fuel msg
            end).
  assert (HD : progress_only (taskId msg) D).
  { unfold D. destruct (algorithm msg).
    - apply po_executePushVSpWASM.
    - apply po_executePushVSpJS.
    - apply po_executeAbwalkVSpWASM.
    - apply po_executeAbwalkVSpJS. }
  assert (E : handleCompute rnd fuel wasm_loaded msg w =
              try_catch (bind D (fun r => postMessage (RESULT (taskId msg) r)))
                (fun e => postMessage (ERROR (taskId msg) e)) w) by reflexivity.
  rewrite E. clear E. destruct (HD w) as (ps & Ep & Fp). exists ps. split; [exact Fp|].
  unfold try_catch, bind. destruct (D w) as [[r|e|] w1]; cbn [fst snd] in Ep |- *.
  - right. split; [reflexivity|]. exists (RESULT (taskId msg) r).
    split; [left; eexists; reflexivity|]. cbn. rewrite Ep, app_assoc. reflexivity.
  - right. split; [reflexivity|]. exists (ERROR (taskId msg) e).
    split; [right; eexists; reflexivity|]. cbn. rewrite Ep, app_assoc. reflexivity.
  - left. auto.
Qed.

(** ** Progress of the push variants *)

Lemma push_neighbors_reported degree v rmax u (ns : list nat) :
  forall st, reported (fold_left (push_neighbor_js degree v rmax u) ns st) = reported st.
Proof.
  induction ns as [|n ns IH]; intros st; simpl; [reflexivity|].
  rewrite IH. unfold push_neighbor_js.
  destruct (Nat.eqb n v); [reflexivity|].
  destruct (_ && _); reflexivity.
Qed.

Lemma push_loop_js_reported degree adj v rmax pp (fuel : nat) :
  forall st st', push_loop_js degree adj v rmax pp fuel st = Some st' ->
  exists k, reported st' = reported st ++ repeat pp k.
Proof.
  induction fuel as [|fuel IH]; intros st st' H; simpl in H; [discriminate|].
  destruct (queue st) as [|u rest].
  - injection H as <-. exists 0%nat. rewrite app_nil_r. reflexivity.
  - destruct (IH _ _ H) as [k Hk]. rewrite Hk. unfold push_step_js. cbn [reported].
    rewrite push_neighbors_reported. cbn [reported].
    destruct (Nat.eqb _ 0).
    + exists (S k). rewrite <- app_assoc. reflexivity.
    + exists k. reflexivity.
Qed.

Lemma pushVSpJS_reports (fuel : nat) (g : Graph) (prm : PushVSpParams) r reps :
  pushVSpJS fuel g prm = Some (r, reps) ->
  exists k1 k2, reps = repeat (F64.of_nat 25) k1 ++ repeat (F64.of_nat 75) k2 ++
                       [F64.of_nat 100].
Proof.
  unfold pushVSpJS, push_phase_js.
  match goal with |- context[push_loop_js ?d ?a ?v ?rm (F64.of_nat 25) fuel ?s0] =>
    destruct (push_loop_js d a v rm (F64.of_nat 25) fuel s0) as [sts|] eqn:E1 end;
    [|discriminate].
  match goal with |- context[push_loop_js ?d ?a ?v ?rm (F64.of_nat 75) fuel ?s0] =>
    destruct (push_loop_js d a v rm (F64.of_nat 75) fuel s0) as [stt|] eqn:E2 end;
    [|discriminate].
  intros [= _ <-].
  destruct (push_loop_js_reported _ _ _ _ _ _ _ _ E1) as [k1 H1].
  destruct (push_loop_js_reported _ _ _ _ _ _ _ _ E2) as [k2 H2].
  exists k1, k2. rewrite H2, H1.
  destruct (Nat.eqb (ps_s prm) (ps_v prm)), (Nat.eqb (ps_t prm) (ps_v prm));
    cbn [reported]; rewrite <- app_assoc; reflexivity.
Qed.

Lemma post_all_run (id : string) (l : list num) :
  forall w, post_all id l w =
    (Done tt, mkWorld (rnd_pos w) (libc_seed w) (posted w ++ map (PROGRESS id) l)).
Proof.
  induction l as [|p l IH]; intros w; simpl.
  - rewrite app_nil_r. destruct w; reflexivity.
  - cbv [mbind M_bind bind]. unfold post_progress, postMessage at 1.
    rewrite IH. cbn. rewrite <- app_assoc. reflexivity.
Qed.

Lemma executePushVSpJS_run (fuel : nat) (msg : ComputePayload) (w : world) :
  executePushVSpJS fuel msg w = (OutOfFuel, w) \/
  exists r k1 k2, executePushVSpJS fuel msg w =
    (Done r, mkWorld (rnd_pos w) (libc_seed w)
               (posted w ++ map (PROGRESS (taskId msg))
                  (repeat (F64.of_nat 25) k1 ++ repeat (F64.of_nat 75) k2 ++
                   [F64.of_nat 100]))).
Proof.
  unfold executePushVSpJS.
  destruct (pushVSpJS fuel (graph msg) (push_params (params msg))) as [[r reps]|] eqn:E.
  - right. destruct (pushVSpJS_reports _ _ _ _ _ E) as (k1 & k2 & ->).
    exists r, k1, k2. cbv [mbind M_bind bind mret M_ret]. rewrite post_all_run.
    reflexivity.
  - left. reflexivity.
Qed.

Lemma progress_ordered_repeat (id : string) (last p : num) (k : nat) (rest : list WorkerResult) :
  F64.leb last p = true -> F64.leb p p = true -> F64.leb p (F64.of_nat 100) = true ->
  progress_ordered id last false (map (PROGRESS id) (repeat p k) ++ rest) =
  progress_ordered id (match k with O => last | S _ => p end) false rest.
Proof.
  intros H1 H2 H3. revert last H1. induction k as [|k IH]; intros last H1; [reflexivity|].
  cbn [repeat map app progress_ordered]. rewrite String.eqb_refl, H1, H3. cbn.
  rewrite (IH p H2). destruct k; reflexivity.
Qed.

Lemma push_reports_ordered (id : string) (r : num) (k1 k2 : nat) :
  progress_ordered id F64.zero false
    (map (PROGRESS id) (repeat (F64.of_nat 25) k1 ++ repeat (F64.of_nat 75) k2 ++
                        [F64.of_nat 100]) ++ [RESULT id r]) = true.
Proof.
  rewrite !map_app, <- !app_assoc.
  rewrite progress_ordered_repeat by (vm_compute; reflexivity).
  destruct k1; rewrite progress_ordered_repeat by (vm_compute; reflexivity);
    destruct k2; cbn; rewrite String.eqb_refl; vm_compute; reflexivity.
Qed.

(** Extra X16.  For the push algorithm, in either variant, the progress values
    the worker posts for the task never decrease, stay within [0, 100] and
    all come before the terminal message: the JavaScript implementation
    reports 25 during the first phase, 75 during the second and 100 at
    the end; the WebAssembly one reports 50 once. *)
Theorem handleCompute_push_progress_ordered (rnd : nat -> Q) (fuel : nat)
    (wasm_loaded : bool) (msg : ComputePayload) (w : world) :
  algorithm msg = push_v_sp_js \/ algorithm msg = push_v_sp_wasm ->
  exists new, posted (snd (handleCompute rnd fuel wasm_loaded msg w)) = posted w ++ new /\
    progress_ordered (taskId msg) F64.zero false new = true.
Proof.
  assert (JS : forall w0, exists new,
    posted (snd (try_catch (bind (executePushVSpJS fuel msg)
                                 (fun r => postMessage (RESULT (taskId msg) r)))
                   (fun e => postMessage (ERROR (taskId msg) e)) w0)) = posted w0 ++ new /\
    progress_ordered (taskId msg) F64.zero false new = true).
  { intros w0. unfold try_catch, bind.
    destruct (executePushVSpJS_run fuel msg w0) as [E | (r & k1 & k2 & E)]; rewrite E.
    - exists []. rewrite app_nil_r. split; reflexivity.
    - eexists. split.
      + cbn [snd posted postMessage]. rewrite <- app_assoc. reflexivity.
      + apply push_reports_ordered. }
  intros [Ha | Ha].
  - assert (E : handleCompute rnd fuel wasm_loaded msg w =
                try_catch (bind (executePushVSpJS fuel msg)
                             (fun r => postMessage (RESULT (taskId msg) r)))
                  (fun e => postMessage (ERROR (taskId msg) e)) w)
      by (unfold handleCompute; rewrite Ha; reflexivity).
    rewrite E. apply JS.
  - destruct wasm_loaded.
    + unfold handleCompute. rewrite Ha. cbv [mbind M_bind]. unfold try_catch at 1, bind at 1.
      unfold executePushVSpWASM, try_catch. cbv [mbind M_bind mret M_ret bind postMessage].
      cbn [rnd_pos libc_seed posted].
      destruct (pushVSp fuel (graph msg) _ _ _ _); cbn.
      * eexists. split; [rewrite <- app_assoc; reflexivity|].
        cbn [app progress_ordered]. rewrite String.eqb_refl. vm_compute. reflexivity.
      * eexists. split; [reflexivity|].
        cbn [app progress_ordered]. rewrite String.eqb_refl. vm_compute. reflexivity.
    + assert (E : handleCompute rnd fuel false msg w =
                  try_catch (bind (executePushVSpJS fuel msg)
                               (fun r => postMessage (RESULT (taskId msg) r)))
                    (fun e => postMessage (ERROR (taskId msg) e)) w)
        by (unfold handleCompute; rewrite Ha; reflexivity).
      rewrite E. apply JS.
Qed.

(** ** Walks from a node without neighbours *)

(** Extra X17.  A walk that starts at a node without neighbours, other than
    [v], never moves: with at least one walk, the JavaScript estimator
    throws the [TypeError] of reading [undefined.length] (the neighbour
    drawn from an empty list is [undefined]), whatever [Math.random()]
    returns, and the C++ estimator traps on the remainder by 0. *)
Theorem abwalk_isolated_source (rnd : nat -> Q) (fuel : nat) (g : Graph) (s t v times : nat)
    (onProgress : num -> M unit) (seed : Z) (w : world) :
  adjacency_of g s = [] -> s <> v -> (1 <= times)%nat -> (2 <= fuel)%nat ->
  fst (abwalkVSpJS rnd fuel g (mkWalkParams s t v times) onProgress w) = Thrown type_error /\
  fst (abwalkVSp fuel g s t v times seed w) = Thrown wasm_trap.
Proof.
  intros Ha Hsv Ht Hf.
  destruct times as [|times]; [lia|]. destruct fuel as [|[|fuel]]; [lia|lia|].
  assert (Hne : Some s <> Some v) by congruence.
  split.
  - unfold abwalkVSpJS. cbv [mbind M_bind]. cbn [aw_s aw_t aw_v aw_times walks_js].
    cbv [mbind M_bind]. unfold bind at 1. unfold bind at 1.
    cbn [walk_js]. rewrite (decide_False _ _ Hne).
    cbv [mbind M_bind]. unfold bind at 1.
    pose proof (randNeighbor_no_neighbours rnd (nodes g) (adjacency_of g) s w Ha) as Hr.
    destruct (randNeighbor rnd (nodes g) (adjacency_of g) (Some s) w) as [o w1].
    cbn [fst] in Hr. destruct Hr as [-> | ->]; [|reflexivity].
    cbn [walk_js]. rewrite decide_False by discriminate.
    cbv [mbind M_bind bind randNeighbor Math_random throw]. reflexivity.
  - unfold abwalkVSp. cbv [mbind M_bind bind c_srand]. cbn [walks_cpp walk_cpp].
    apply Nat.eqb_neq in Hsv. rewrite Hsv.
    cbv [mbind M_bind bind c_rand]. rewrite Ha. reflexivity.
Qed.

Lemma abwalk_isolated_source_witness :
  fst (abwalkVSpJS three_quarters 10 edge12_graph (mkWalkParams 0 1 2 3)
         (fun _ => mret tt) start_world) = Thrown type_error /\
  fst (abwalkVSp 10 edge12_graph 0 1 2 3 7 start_world) = Thrown wasm_trap.
Proof.
  apply abwalk_isolated_source.
  - vm_compute. reflexivity.
  - discriminate.
  - lia.
  - lia.
Defined.

(** ** The landmark [v] is never settled *)

Lemma push_neighbors_js_v degree v rmax u (ns : list nat) :
  forall st, ~ In v (queue st) ->
  ~ In v (queue (fold_left (push_neighbor_js degree v rmax u) ns st)) /\
  settled (fold_left (push_neighbor_js degree v rmax u) ns st) = settled st.
Proof.
  induction ns as [|n ns IH]; intros st Hv; simpl; [auto|].
  assert (H : ~ In v (queue (push_neighbor_js degree v rmax u st n)) /\
              settled (push_neighbor_js degree v rmax u st n) = settled st).
  { unfold push_neighbor_js.
    destruct (Nat.eqb_spec n v) as [->|Hn]; [auto|].
    destruct (_ && _); cbn [queue settled]; split; try reflexivity; [|exact Hv].
    rewrite in_app_iff. intros [H | [H | []]]; [exact (Hv H) | congruence]. }
  destruct H as [H1 H2]. destruct (IH _ H1) as [H3 H4]. rewrite H4. auto.
Qed.

Lemma push_loop_js_v degree adj v rmax pp (fuel : nat) :
  forall st st', ~ In v (queue st) -> settled st v = F64.zero ->
  push_loop_js degree adj v rmax pp fuel st = Some st' -> settled st' v = F64.zero.
Proof.
  induction fuel as [|fuel IH]; intros st st' Hq Hs H; simpl in H; [discriminate|].
  destruct (queue st) as [|u rest] eqn:Eq.
  - injection H as <-. exact Hs.
  - destruct (push_neighbors_js_v degree v rmax u (adj u)
                (mkPushState rest (inQueue st ∖ {[u]}) (res st)
                   (upd (settled st) u (F64.add (settled st u) (res st u)))
                   (pushCount st) (reported st))) as [H1 H2].
    { cbn. intros Hr. apply Hq. right. exact Hr. }
    apply (IH (push_step_js degree adj v rmax pp u rest st)); [| |exact H];
      unfold push_step_js; cbv zeta; cbn [queue settled]; [exact H1|].
    rewrite H2. cbn [settled]. unfold upd.
    destruct (Nat.eqb_spec v u) as [-> | _]; [exfalso; apply Hq; left; reflexivity | exact Hs].
Qed.

Lemma push_neighbors_cpp_v degree v rmax u (ns : list nat) :
  forall st, sq_inv (cq st) -> v ∉ sq_pending (cq st) ->
  sq_inv (cq (fold_left (push_neighbor_cpp degree v rmax u) ns st)) /\
  (v ∉ sq_pending (cq (fold_left (push_neighbor_cpp degree v rmax u) ns st))) /\
  cp (fold_left (push_neighbor_cpp degree v rmax u) ns st) = cp st.
Proof.
  induction ns as [|n ns IH]; intros st Hi Hv; simpl; [auto|].
  assert (H : sq_inv (cq (push_neighbor_cpp degree v rmax u st n)) /\
              (v ∉ sq_pending (cq (push_neighbor_cpp degree v rmax u st n))) /\
              cp (push_neighbor_cpp degree v rmax u st n) = cp st).
  { unfold push_neighbor_cpp.
    destruct (Nat.eqb_spec n v) as [->|Hn]; [auto|].
    destruct (F64.ltb _ _); cbn [cq cp]; [|auto].
    destruct (sq_push_inv (cq st) n Hi) as [Hi' Hp].
    split; [exact Hi'|]. split; [|reflexivity].
    rewrite Hp. destruct (bool_decide _); [exact Hv|].
    rewrite elem_of_app, list_elem_of_singleton. intros [H | H]; [exact (Hv H) | congruence]. }
  destruct H as (H1 & H2 & H3). destruct (IH _ H1 H2) as (H4 & H5 & H6).
  rewrite H6. auto.
Qed.

Lemma push_loop_cpp_v degree adj v rmax (fuel : nat) :
  forall st st', sq_inv (cq st) -> v ∉ sq_pending (cq st) -> cp st v = F64.zero ->
  push_loop_cpp degree adj v rmax fuel st = Some st' -> cp st' v = F64.zero.
Proof.
  induction fuel as [|fuel IH]; intros st st' Hi Hq Hs H; cbn [push_loop_cpp] in H; [discriminate|].
  destruct (SimpleQueue.empty (cq st)) eqn:Ee.
  - injection H as <-. exact Hs.
  - destruct (sq_pending (cq st)) as [|u rest] eqn:Ep.
    { apply (sq_empty_iff (cq st) Hi) in Ep. congruence. }
    destruct (sq_pop_inv (cq st) u rest Hi Ep) as (Hu & Hi1 & Hp1).
    destruct (SimpleQueue.pop (cq st)) as [u' q1] eqn:Epop. cbn [fst snd] in Hu, Hi1, Hp1.
    subst u'.
    assert (Hvu : v <> u) by (intros ->; apply Hq; left).
    assert (Hq1 : v ∉ sq_pending q1) by (rewrite Hp1; intros H'; apply Hq; right; exact H').
    destruct (push_neighbors_cpp_v degree v rmax u (adj u)
                (mkCppPushState q1 (cr st) (upd (cp st) u (F64.add (cp st u) (cr st u))))
                Hi1 Hq1) as (H1 & H2 & H3).
    refine (IH _ st' _ _ _ H); cbn [cq cp]; [exact H1 | exact H2 |].
    rewrite H3. cbn [cp]. unfold upd.
    destruct (Nat.eqb_spec v u); [contradiction | exact Hs].
Qed.

(** Extra X18.  The landmark [v] is never settled: in every push phase, from
    any seed, [v] is never queued (a seed equal to [v] is not queued, and
    relaxation skips [v]), so the value settled at [v] stays 0, in the
    JavaScript [pushVSpJS] and in the C++ [pushVSp] alike. *)
Theorem push_phase_landmark_unsettled degree adj v rmax pp fuel seed rep q st c :
  (push_phase_js degree adj v rmax pp fuel seed rep = Some st -> settled st v = F64.zero) /\
  (push_phase_cpp degree adj v rmax fuel q seed = Some c -> cp c v = F64.zero).
Proof.
  split.
  - unfold push_phase_js. apply push_loop_js_v.
    + destruct (Nat.eqb_spec seed v); cbn; [auto|]. intros [H | []]. congruence.
    + destruct (Nat.eqb seed v); reflexivity.
  - unfold push_phase_cpp. unfold SimpleQueue.clear.
    assert (H0 : sq_inv SimpleQueue.create).
    { split; [simpl; lia|]. split; [constructor|].
      intros y. simpl. split; [discriminate|]. intros Hy. apply elem_of_nil in Hy. contradiction. }
    destruct (Nat.eqb_spec seed v) as [-> | Hne].
    + apply push_loop_cpp_v; cbn [cq cp]; [exact H0 | apply not_elem_of_nil | reflexivity].
    + destruct (sq_push_inv SimpleQueue.create seed H0) as [H1 H2].
      apply push_loop_cpp_v; cbn [cq cp]; [exact H1 | | reflexivity].
      rewrite H2. rewrite bool_decide_eq_false_2 by apply not_elem_of_nil.
      intros Hin. apply elem_of_app in Hin as [Hin | Hin]; [exact (not_elem_of_nil _ Hin)|].
      apply list_elem_of_singleton in Hin. congruence.
Qed.

Lemma push_phase_landmark_unsettled_witness :
  match push_phase_js (degree_of path3) (adjacency_of path3) 2 F64.one (F64.of_nat 25) 100 0 []
  with Some st => settled st 2 = F64.zero | None => False end.
Proof.
  destruct (push_phase_js (degree_of path3) (adjacency_of path3) 2 F64.one (F64.of_nat 25) 100 0 [])
    as [st|] eqn:E.
  - exact (proj1 (push_phase_landmark_unsettled (degree_of path3) (adjacency_of path3) 2 F64.one
                    (F64.of_nat 25) 100 0 [] SimpleQueue.create st
                    (mkCppPushState SimpleQueue.create (fun _ => F64.zero) (fun _ => F64.zero))) E).
  - vm_compute in E. discriminate.
Defined.

(** ** The two push variants in the worker *)

Lemma pushVSpJS_pushVSp_agree (fuel : nat) (g : Graph) (s t v : nat) (rmax : num) :
  option_map fst (pushVSpJS fuel g (mkPushParams s t v rmax)) = pushVSp fuel g s t v rmax.
Proof.
  unfold pushVSpJS, pushVSp; simpl.
  pose proof (push_phase_js_cpp (degree_of g) (adjacency_of g) v rmax
                (F64.of_nat 25) fuel s [] SimpleQueue.create) as Hs.
  destruct (push_phase_js _ _ _ _ _ fuel s []) as [sts|];
    destruct (push_phase_cpp _ _ _ _ fuel _ s) as [cs|]; simpl in Hs;
    try contradiction; simpl; [|done].
  pose proof (push_phase_js_cpp (degree_of g) (adjacency_of g) v rmax
                (F64.of_nat 75) fuel t (reported sts) (cq cs)) as Ht.
  destruct (push_phase_js _ _ _ _ _ fuel t _) as [stt|];
    destruct (push_phase_cpp _ _ _ _ fuel _ t) as [ct|]; simpl in Ht;
    try contradiction; simpl; [|done].
  destruct Hs as (_ & _ & _ & _ & Hps). destruct Ht as (_ & _ & _ & _ & Hpt).
  by rewrite Hps, Hpt.
Qed.

(** Extra X19.  With the WebAssembly module loaded, a push request gives the
    same outcome whether it asks for the WebAssembly or the JavaScript
    variant, and the terminal messages it posts ([RESULT] or [ERROR]) carry
    the same task id and the same result value or error text.  The progress
    messages differ, and the run time that [RESULT] also reports is not
    part of the model ([performance.now()] is not modelled). *)
Theorem handleCompute_push_variants_agree (rnd : nat -> Q) (fuel : nat) (g : Graph)
    (p : AlgorithmParams) (id : string) (w : world) :
  fst (handleCompute rnd fuel true (mkCompute push_v_sp_wasm g p id) w) =
    fst (handleCompute rnd fuel true (mkCompute push_v_sp_js g p id) w) /\
  terminal_messages (posted (snd (handleCompute rnd fuel true (mkCompute push_v_sp_wasm g p id) w))) =
    terminal_messages (posted (snd (handleCompute rnd fuel true (mkCompute push_v_sp_js g p id) w))).
Proof.
  pose proof (pushVSpJS_pushVSp_agree fuel g (ap_s p) (ap_t p) (ap_v p) (ap_rmax p)) as Hag.
  unfold handleCompute. cbn [algorithm taskId graph params].
  unfold executePushVSpWASM, executePushVSpJS. cbn [graph params taskId].
  unfold push_params in *.
  cbv [mbind M_bind mret M_ret].
  destruct (pushVSpJS fuel g _) as [[r reps]|]; cbn [option_map] in Hag; rewrite <- Hag.
  - unfold try_catch, bind, postMessage, ret. rewrite post_all_run. cbn.
    unfold terminal_messages. rewrite !List.filter_app. cbn.
    assert (Hp : forall l, List.filter (fun m => match m with PROGRESS _ _ => false | _ => true end)
                             (map (PROGRESS id) l) = []).
    { induction l; [reflexivity|exact IHl]. }
    rewrite Hp. split; reflexivity.
  - unfold try_catch, bind, postMessage, out_of_fuel. cbn.
    unfold terminal_messages. rewrite !List.filter_app. cbn. rewrite app_nil_r.
    split; reflexivity.
Qed.

(** ** What follows the digits of a node id *)

Lemma split_ws_words (W1 sep W2 : list ascii) :
  W2 <> [] -> sep <> [] ->
  Forall (fun c => is_ws c = false) W1 -> Forall (fun c => is_ws c = false) W2 ->
  Forall (fun c => is_ws c = true) sep ->
  split_ws (W1 ++ sep ++ W2) = [W1; W2].
Proof.
  intros H2 Hs F1 F2 Fs. unfold split_ws.
  rewrite (split_ws_aux_word [] W1 _ F1).
  destruct sep as [|c sep']; [congruence|].
  inversion Fs as [|? ? Hc Fs']; subst.
  simpl. rewrite Hc, app_nil_r, rev_involutive, (split_ws_aux_space [] sep' W2 Fs').
  destruct W2 as [|d W2']; [congruence|].
  inversion F2 as [|? ? Hd F2']; subst.
  simpl. rewrite Hd, <- (app_nil_r W2') at 1.
  rewrite (split_ws_aux_word [d] W2' [] F2').
  simpl. rewrite rev_app_distr, rev_involutive. reflexivity.
Qed.

Lemma take_digits_stop (D X : list ascii) :
  Forall (fun c => is_digit c = true) D ->
  (forall c r, X = c :: r -> is_digit c = false) ->
  take_digits (D ++ X) = D.
Proof.
  intros F HX. induction F as [|c D Hc F IH].
  - destruct X as [|c r]; [reflexivity|]. simpl. rewrite (HX c r eq_refl). reflexivity.
  - simpl. rewrite Hc, IH. reflexivity.
Qed.

Lemma parseInt_digits_then (D X : list ascii) :
  D <> [] -> Forall (fun c => is_digit c = true) D ->
  (forall c r, X = c :: r -> is_digit c = false) ->
  parseInt (D ++ X) = parseInt D.
Proof.
  intros H F HX. rewrite (parseInt_digits D H F).
  destruct D as [|d D']; [congruence|].
  inversion F as [|? ? Hd _]; subst.
  unfold parseInt. cbn [app]. rewrite (ltrim_digit d _ Hd).
  rewrite (digit_neq d "-"%char Hd eq_refl), (digit_neq d "+"%char Hd eq_refl).
  change (d :: D' ++ X) with ((d :: D') ++ X).
  rewrite (take_digits_stop (d :: D') X F HX).
  exact (f_equal Some (Z.mul_1_l _)).
Qed.

Lemma ltrim_non_ws (c : ascii) (r : list ascii) : is_ws c = false -> ltrim (c :: r) = c :: r.
Proof. intros H. simpl. rewrite H. reflexivity. Qed.

Lemma trim_fixed (l : list ascii) (c d : ascii) (m : list ascii) :
  l = c :: m -> is_ws c = false -> (exists p, l = p ++ [d]) -> is_ws d = false -> trim l = l.
Proof.
  intros -> Hc [p Hp] Hd. unfold trim. rewrite (ltrim_non_ws c m Hc).
  rewrite Hp, rev_app_distr. cbn [rev app]. rewrite (ltrim_non_ws d (rev p) Hd).
  change (d :: rev p) with (rev [d] ++ rev p).
  rewrite <- rev_app_distr, rev_involutive. reflexivity.
Qed.

Lemma last_char_non_ws (D2 X2 : list ascii) :
  D2 <> [] -> Forall (fun c => is_digit c = true) D2 -> Forall (fun c => is_ws c = false) X2 ->
  exists p d, D2 ++ X2 = p ++ [d] /\ is_ws d = false.
Proof.
  intros H F FX. destruct X2 as [|x X2'] using rev_ind.
  - destruct D2 as [|d D2'] using rev_ind; [congruence|].
    exists D2', d. rewrite app_nil_r. split; [reflexivity|].
    apply digit_not_ws. apply Forall_app in F as [_ F]. inversion F. assumption.
  - exists (D2 ++ X2'), x. rewrite app_assoc. split; [reflexivity|].
    apply Forall_app in FX as [_ FX]. inversion FX. assumption.
Qed.

(** Extra X20.  [parseInt] stops at the first character that is not a digit,
    so a node id followed by other non-blank characters on an edge line
    (["1.5"], ["2abc"]) is read as the integer its leading digits spell:
    replacing the line ["D1X1 D2X2"] by ["D1 D2"] changes nothing in the
    result of [parseEdgeList], errors included.  The suffixes [X1] and
    [X2] are taken from 7-bit ASCII, where the blanks of [trim] and
    [split(/\s+/)] are exactly those of [is_ws]. *)
Theorem parseEdgeList_ignores_id_suffix (pre post : list (list ascii))
    (D1 X1 sep D2 X2 : list ascii) :
  Forall no_newline pre -> Forall no_newline post ->
  D1 <> [] -> Forall (fun c => is_digit c = true) D1 ->
  D2 <> [] -> Forall (fun c => is_digit c = true) D2 ->
  sep <> [] -> Forall (fun c => is_ws c = true /\ c <> "010"%char) sep ->
  Forall (fun c => is_ws c = false) X1 -> Forall (fun c => is_ws c = false) X2 ->
  Forall (fun c => (nat_of_ascii c < 128)%nat) X1 ->
  Forall (fun c => (nat_of_ascii c < 128)%nat) X2 ->
  (forall c r, X1 = c :: r -> is_digit c = false) ->
  (forall c r, X2 = c :: r -> is_digit c = false) ->
  parseEdgeList (join_lines (pre ++ [D1 ++ X1 ++ sep ++ D2 ++ X2] ++ post)) =
  parseEdgeList (join_lines (pre ++ [D1 ++ sep ++ D2] ++ post)).
Proof.
  intros Npre Npost H1 F1 H2 F2 Hs Fs FX1 FX2 _ _ S1 S2.
  assert (Fws : Forall (fun c => is_ws c = true) sep)
    by (eapply Forall_impl; [exact Fs|]; intros c [? ?]; assumption).
  assert (NoNl : forall l, Forall (fun c => is_ws c = false) l -> no_newline l).
  { intros l F. eapply Forall_impl; [exact F|]. intros c Hc ->. discriminate. }
  assert (Fsep : no_newline sep) by (eapply Forall_impl; [exact Fs|]; intros c [_ ?]; assumption).
  destruct D1 as [|d1 D1'] eqn:ED1; [congruence|].
  assert (Hd1 : is_ws d1 = false) by (inversion F1; apply digit_not_ws; assumption).
  assert (ND1 : Forall (fun c => is_ws c = false) (d1 :: D1')) by (apply digits_not_ws, F1).
  assert (ND2 : Forall (fun c => is_ws c = false) D2) by (apply digits_not_ws, F2).
  unfold parseEdgeList.
  rewrite !split_lines_join; try (destruct pre; discriminate);
    try (apply Forall_app; split; [exact Npre|]; constructor; [|exact Npost];
         unfold no_newline; rewrite !Forall_app; repeat split;
         first [apply NoNl; assumption | exact Fsep]).
  rewrite !map_app, !parse_lines_app.
  destruct (parse_lines parse_init (map trim pre)) as [e|st]; [reflexivity|].
  cbn [map parse_lines].
  destruct (last_char_non_ws D2 X2 H2 F2 FX2) as (p & d & Ep & Hd).
  destruct (last_char_non_ws D2 [] H2 F2 ltac:(constructor)) as (p' & d' & Ep' & Hd').
  rewrite app_nil_r in Ep'.
  rewrite (trim_fixed ((d1 :: D1') ++ X1 ++ sep ++ D2 ++ X2) d1 d _ eq_refl Hd1); cycle 1.
  { exists (d1 :: D1' ++ X1 ++ sep ++ p). cbn. rewrite Ep, <- !app_assoc. reflexivity. }
  { exact Hd. }
  rewrite (trim_fixed ((d1 :: D1') ++ sep ++ D2) d1 d' _ eq_refl Hd1); cycle 1.
  { exists (d1 :: D1' ++ sep ++ p'). cbn. rewrite Ep', <- !app_assoc. reflexivity. }
  { exact Hd'. }
  assert (E : parse_line st ((d1 :: D1') ++ X1 ++ sep ++ D2 ++ X2) =
              parse_line st ((d1 :: D1') ++ sep ++ D2)).
  { unfold parse_line. rewrite (app_assoc (d1 :: D1') X1).
    rewrite (split_ws_words ((d1 :: D1') ++ X1) sep (D2 ++ X2)); cycle 1.
    { destruct D2; [congruence | discriminate]. }
    { exact Hs. }
    { apply Forall_app. auto. }
    { apply Forall_app. auto. }
    { exact Fws. }
    rewrite (split_ws_words (d1 :: D1') sep D2 H2 Hs ND1 ND2 Fws).
    rewrite <- app_assoc. cbn [app nth length].
    change (d1 :: D1' ++ X1) with ((d1 :: D1') ++ X1).
    rewrite (parseInt_digits_then (d1 :: D1') X1 H1 F1 S1),
            (parseInt_digits_then D2 X2 H2 F2 S2).
    reflexivity. }
  cbn [app parse_lines] in E |- *. rewrite E. reflexivity.
Qed.

Lemma parseEdgeList_ignores_id_suffix_witness :
  parseEdgeList (join_lines [String.list_ascii_of_string "0.5 1.9";
                             String.list_ascii_of_string "1 2"]) =
  parseEdgeList (join_lines [String.list_ascii_of_string "0 1";
                             String.list_ascii_of_string "1 2"]).
Proof.
  exact (parseEdgeList_ignores_id_suffix [] [String.list_ascii_of_string "1 2"]
           ["0"%char] (String.list_ascii_of_string ".5") [" "%char] ["1"%char]
           (String.list_ascii_of_string ".9")
           ltac:(constructor) ltac:(repeat constructor; discriminate)
           ltac:(discriminate) ltac:(repeat constructor)
           ltac:(discriminate) ltac:(repeat constructor)
           ltac:(discriminate) ltac:(repeat constructor; discriminate)
           ltac:(repeat constructor) ltac:(repeat constructor)
           ltac:(repeat (apply List.Forall_cons; [apply Nat.ltb_lt; reflexivity|]);
                 apply List.Forall_nil)
           ltac:(repeat (apply List.Forall_cons; [apply Nat.ltb_lt; reflexivity|]);
                 apply List.Forall_nil)
           ltac:(intros c r [= <- _]; reflexivity) ltac:(intros c r [= <- _]; reflexivity)).
Defined.

Lemma computeDegree_counts_witness :
  exists degree, computeDegree sample_graph = inr degree /\
    (Z.to_nat (pg_nodes sample_graph) <= length degree)%nat.
Proof.
  destruct (computeDegree_counts sample_graph ltac:(vm_compute; reflexivity))
    as (d & E & L & _).
  exists d. split; [exact E | exact L].
Defined.

Lemma handleCompute_push_progress_ordered_witness :
  exists new,
    posted (snd (handleCompute (fun _ => 1 # 2) 100 false
                   (mkCompute push_v_sp_js path3 (mkParams 0 1 2 F64.one 1) "task-1")
                   start_world)) = posted start_world ++ new /\
    progress_ordered "task-1" F64.zero false new = true.
Proof.
  exact (handleCompute_push_progress_ordered (fun _ => 1 # 2) 100 false
           (mkCompute push_v_sp_js path3 (mkParams 0 1 2 F64.one 1) "task-1")
           start_world (or_introl eq_refl)).
Defined.

(** Extra X21.  What [parseEdgeList] returns is a well-formed undirected graph:
    at least one edge, at least one node, [isDirected] false, every
    endpoint in [0, nodes), each edge present in both directions, the
    largest id [nodes - 1] used as a source, and [originalMaxNodeId] equal
    to [nodes] for a one-based file and to [nodes - 1] otherwise.  This is
    stated for files whose graph has at most 2^53 nodes: every id read is
    then at most 2^53, where JavaScript's numbers compute [parseInt],
    [maxNodeId + 1] and [- 1] exactly, as the integers of the model do. *)
Theorem parseEdgeList_output_wellformed (content : list ascii) (g : ParsedGraph) :
  parseEdgeList content = inr g -> pg_nodes g <= 2 ^ 53 ->
  pg_edges g <> [] /\ 1 <= pg_nodes g /\ pg_isDirected g = false /\
  Forall (fun e => 0 <= pe_source e < pg_nodes g /\ 0 <= pe_target e < pg_nodes g)
    (pg_edges g) /\
  (forall e, In e (pg_edges g) ->
     In (mkParsedEdge (pe_target e) (pe_source e)) (pg_edges g)) /\
  Exists (fun e => pe_source e = pg_nodes g - 1) (pg_edges g) /\
  pg_originalMaxNodeId g = (if pg_wasOneBased g then pg_nodes g else pg_nodes g - 1).
Proof. intros H _. exact (parseEdgeList_wellformed content g H). Qed.

Lemma parseEdgeList_output_wellformed_witness :
  parseEdgeList sample_file = inr sample_graph /\ 1 <= pg_nodes sample_graph.
Proof.
  assert (E : parseEdgeList sample_file = inr sample_graph) by (vm_compute; reflexivity).
  split; [exact E|].
  exact (proj1 (proj2 (parseEdgeList_output_wellformed sample_file sample_graph E
                         ltac:(vm_compute; discriminate)))).
Defined.
